(** * redes_tp3: wire codec and flooding engine of the servent

    A shallow embedding of [utils.py] (message codec, query model) and of
    the receive loop of [servent.py].

    - Python [str] is a list of Unicode code points ([list Z]); [bytes] is
      a list of [Byte.byte].
    - Python [int] is [Z]; nothing wraps around, and [struct] refuses
      values outside the range of a field.
    - A raised exception is [None]; the servent catches none.
    - [logging] calls and [sendto] calls are collected, in program order,
      in a trace of effects; a [sendto] hands its datagram to the network
      and does not fail. *)

From Stdlib Require Import ZArith Lia List.
From Stdlib.Strings Require Import Byte.
From stdpp Require Import gmap list.

Open Scope Z_scope.

Abbreviation bytes := (list Byte.byte).
Abbreviation str := (list Z).

(** ** Bytes as numbers *)

Definition byte_to_Z (b : Byte.byte) : Z := Z.of_N (Byte.to_N b).

Definition byte_of_Z (z : Z) : Byte.byte :=
  match Byte.of_N (Z.to_N (z mod 256)) with
  | Some b => b
  | None => Byte.x00
  end.

(** ** The text codec: [str.encode()] and [bytes.decode()]

    Both default to strict UTF-8.  Encoding raises on a lone surrogate
    (and the model's [list Z] also has to refuse what is no code point at
    all); decoding raises on every ill-formed sequence: a stray
    continuation byte, an overlong form, an encoded surrogate, a value
    above U+10FFFF, a truncated sequence. *)

Module Utf8.

Definition is_scalar (c : Z) : bool :=
  ((0 <=? c) && (c <? 0xD800)) || ((0xE000 <=? c) && (c <=? 0x10FFFF)).

(** The strings [encode] accepts. *)
Definition encodable (s : str) : bool := forallb is_scalar s.

Definition encode_char (c : Z) : option bytes :=
  if negb (is_scalar c) then None
  else if c <? 0x80 then Some [byte_of_Z c]
  else if c <? 0x800 then
    Some [byte_of_Z (0xC0 + c / 64); byte_of_Z (0x80 + c mod 64)]
  else if c <? 0x10000 then
    Some [byte_of_Z (0xE0 + c / 4096); byte_of_Z (0x80 + (c / 64) mod 64);
          byte_of_Z (0x80 + c mod 64)]
  else
    Some [byte_of_Z (0xF0 + c / 262144); byte_of_Z (0x80 + (c / 4096) mod 64);
          byte_of_Z (0x80 + (c / 64) mod 64); byte_of_Z (0x80 + c mod 64)].

Fixpoint encode (s : str) : option bytes :=
  match s with
  | [] => Some []
  | c :: s' =>
      match encode_char c, encode s' with
      | Some b, Some bs => Some (b ++ bs)
      | _, _ => None
      end
  end.

(** The payload (low six bits) of a continuation byte [10xxxxxx]. *)
Definition continuation (b : Byte.byte) : option Z :=
  let z := byte_to_Z b in
  if (0x80 <=? z) && (z <? 0xC0) then Some (z - 0x80) else None.

Fixpoint decode (bs : bytes) : option str :=
  match bs with
  | [] => Some []
  | b0 :: r0 =>
      let z0 := byte_to_Z b0 in
      if z0 <? 0x80 then cons z0 <$> decode r0
      else if z0 <? 0xC2 then None
      else if z0 <? 0xE0 then
        match r0 with
        | b1 :: r1 =>
            match continuation b1 with
            | Some c1 => cons ((z0 - 0xC0) * 64 + c1) <$> decode r1
            | None => None
            end
        | _ => None
        end
      else if z0 <? 0xF0 then
        match r0 with
        | b1 :: b2 :: r2 =>
            match continuation b1, continuation b2 with
            | Some c1, Some c2 =>
                let c := (z0 - 0xE0) * 4096 + c1 * 64 + c2 in
                if (0x800 <=? c) && is_scalar c then cons c <$> decode r2
                else None
            | _, _ => None
            end
        | _ => None
        end
      else if z0 <? 0xF5 then
        match r0 with
        | b1 :: b2 :: b3 :: r3 =>
            match continuation b1, continuation b2, continuation b3 with
            | Some c1, Some c2, Some c3 =>
                let c := (z0 - 0xF0) * 262144 + c1 * 4096 + c2 * 64 + c3 in
                if (0x10000 <=? c) && is_scalar c then cons c <$> decode r3
                else None
            | _, _, _ => None
            end
        | _ => None
        end
      else None
  end.

End Utf8.

(** [s.rstrip(ch)] for a one-character argument: every trailing [ch] goes. *)
Fixpoint rstrip (ch : Z) (s : str) : str :=
  match s with
  | [] => []
  | c :: s' =>
      match rstrip ch s' with
      | [] => if c =? ch then [] else [c]
      | r => c :: r
      end
  end.

(** ** [struct]: network byte order, no padding

    [pack] raises [struct.error] on a value outside the field's range;
    [unpack] raises unless the buffer has exactly the size of the format. *)

Module Struct.

(** Format [H]: unsigned, 16 bits. *)
Definition pack_H (v : Z) : option bytes :=
  if (0 <=? v) && (v <? 2 ^ 16)
  then Some [byte_of_Z (v / 256); byte_of_Z (v mod 256)]
  else None.

Definition unpack_H (b : bytes) : option Z :=
  match b with
  | [h; l] => Some (byte_to_Z h * 256 + byte_to_Z l)
  | _ => None
  end.

(** Format [I]: unsigned, 32 bits. *)
Definition pack_I (v : Z) : option bytes :=
  if (0 <=? v) && (v <? 2 ^ 32)
  then Some [byte_of_Z (v / 2 ^ 24); byte_of_Z (v / 2 ^ 16 mod 256);
             byte_of_Z (v / 256 mod 256); byte_of_Z (v mod 256)]
  else None.

Definition unpack_I (b : bytes) : option Z :=
  match b with
  | [b3; b2; b1; b0] =>
      Some (byte_to_Z b3 * 2 ^ 24 + byte_to_Z b2 * 2 ^ 16
            + byte_to_Z b1 * 256 + byte_to_Z b0)
  | _ => None
  end.

(** Format [4s]: four bytes, the argument cut or padded with NULs. *)
Definition pack_4s (b : bytes) : bytes := take 4 (b ++ replicate 4 Byte.x00).

End Struct.

(** ** [socket.inet_aton] and [socket.inet_ntoa]

    The two conversions belong to the platform's C library, not to the
    repository; the codec is written against this interface.
    [dotted_quad] below is the instance every concrete run uses. *)

Class SocketLib := {
  inet_aton : str -> option bytes;
  inet_ntoa : bytes -> option str
}.

(** What the codec relies on: a packed address has four bytes, and the
    text [inet_ntoa] prints for four bytes is read back by [inet_aton]. *)
Definition inet_lawful `{SocketLib} : Prop :=
  (forall s b, inet_aton s = Some b -> length b = 4%nat) /\
  (forall b, length b = 4%nat ->
     exists s, inet_ntoa b = Some s /\ inet_aton s = Some b).

Module DottedQuad.

(** A number below 256 in decimal, as [inet_ntoa] prints it. *)
Definition decimal (n : Z) : str :=
  if n <? 10 then [48 + n]
  else if n <? 100 then [48 + n / 10; 48 + n mod 10]
  else [48 + n / 100; 48 + n / 10 mod 10; 48 + n mod 10].

Definition ntoa (b : bytes) : option str :=
  match b with
  | [b0; b1; b2; b3] =>
      Some (decimal (byte_to_Z b0) ++ 46 :: decimal (byte_to_Z b1) ++
            46 :: decimal (byte_to_Z b2) ++ 46 :: decimal (byte_to_Z b3))
  | _ => None
  end.

Fixpoint split_on (sep : Z) (s : str) : list str :=
  match s with
  | [] => [[]]
  | c :: s' =>
      if c =? sep then [] :: split_on sep s'
      else match split_on sep s' with
           | p :: ps => (c :: p) :: ps
           | [] => [[c]]
           end
  end.

Definition is_digit (c : Z) : bool := (48 <=? c) && (c <=? 57).

(** One to three decimal digits without a leading zero, at most 255. *)
Definition octet (p : str) : option Z :=
  if negb (forallb is_digit p) then None
  else match p with
       | [a] => Some (a - 48)
       | [a; b] => if a =? 48 then None else Some ((a - 48) * 10 + (b - 48))
       | [a; b; c] =>
           let n := (a - 48) * 100 + (b - 48) * 10 + (c - 48) in
           if (a =? 48) || (255 <? n) then None else Some n
       | _ => None
       end.

(** The four-part decimal notation only; the other notations the C
    function reads (fewer parts, octal, hexadecimal) never reach the
    codec from [recvfrom] or [inet_ntoa]. *)
Definition aton (s : str) : option bytes :=
  match split_on 46 s with
  | [p0; p1; p2; p3] =>
      match octet p0, octet p1, octet p2, octet p3 with
      | Some a, Some b, Some c, Some d =>
          Some [byte_of_Z a; byte_of_Z b; byte_of_Z c; byte_of_Z d]
      | _, _, _, _ => None
      end
  | _ => None
  end.

End DottedQuad.

Definition dotted_quad : SocketLib :=
  {| inet_aton := DottedQuad.aton; inet_ntoa := DottedQuad.ntoa |}.

(** ** utils.py *)

Module Utils.

Definition MAX_KEY_SIZE : nat := 40.
Definition MAX_VALUE_SIZE : nat := 160.
Definition MESSAGE_TYPE_SIZE : nat := 2.
Definition CLIREQ_MESSAGE_SIZE : nat := MESSAGE_TYPE_SIZE + MAX_KEY_SIZE + 1.
Definition RESPONSE_DATA_SIZE : nat := MAX_KEY_SIZE + 1 + MAX_VALUE_SIZE + 1.
Definition RESPONSE_MESSAGE_SIZE : nat := MESSAGE_TYPE_SIZE + RESPONSE_DATA_SIZE.
Definition QUERY_HEADER_SIZE : nat := MESSAGE_TYPE_SIZE + 2 + 4 + 2 + 4.
Definition QUERY_MESSAGE_SIZE : nat := QUERY_HEADER_SIZE + MAX_KEY_SIZE + 1.
Definition MAX_SERVER_MESSAGE_SIZE : nat :=
  Nat.max CLIREQ_MESSAGE_SIZE QUERY_MESSAGE_SIZE.

(** [TYPE_FORMATTER = struct.Struct('!H')] *)
Definition pack_type : Z -> option bytes := Struct.pack_H.
Definition unpack_type : bytes -> option Z := Struct.unpack_H.

(** [QUERY_FORMATTER = struct.Struct('!HH4sHI')] *)
Definition pack_query_header (message_type ttl : Z) (packed_ip : bytes)
    (port sequence : Z) : option bytes :=
  t ← Struct.pack_H message_type;
  l ← Struct.pack_H ttl;
  p ← Struct.pack_H port;
  s ← Struct.pack_I sequence;
  Some (t ++ l ++ Struct.pack_4s packed_ip ++ p ++ s).

Definition unpack_query_header (b : bytes) : option (Z * Z * bytes * Z * Z) :=
  match b with
  | [t1; t0; l1; l0; i0; i1; i2; i3; p1; p0; s3; s2; s1; s0] =>
      t ← Struct.unpack_H [t1; t0];
      l ← Struct.unpack_H [l1; l0];
      p ← Struct.unpack_H [p1; p0];
      s ← Struct.unpack_I [s3; s2; s1; s0];
      Some (t, l, [i0; i1; i2; i3], p, s)
  | _ => None
  end.

Inductive MessageType := CLIREQ | QUERY | RESPONSE.

Definition MessageType_value (t : MessageType) : Z :=
  match t with CLIREQ => 1 | QUERY => 2 | RESPONSE => 3 end.

(** The call [MessageType(v)]: [ValueError] when no member has the value. *)
Definition MessageType_of_value (v : Z) : option MessageType :=
  match v with
  | 1 => Some CLIREQ
  | 2 => Some QUERY
  | 3 => Some RESPONSE
  | _ => None
  end.

(** An [(ip, port)] tuple. *)
Abbreviation ip_port := (str * Z)%type.

Record QueryContent := {
  key : str;
  address : ip_port;
  sequence : Z
}.

Record Query := {
  content : QueryContent;
  ttl : Z
}.

Record QueryCreator := {
  _next_sequence : Z;
  _initial_ttl : Z
}.

(** [QueryCreator()], with the defaults of [__init__]. *)
Definition QueryCreator_init : QueryCreator :=
  {| _next_sequence := 0; _initial_ttl := 3 |}.

(** [new_query] returns the query and the creator as the call leaves it. *)
Definition new_query (self : QueryCreator) (k : str) (a : ip_port)
    : Query * QueryCreator :=
  let query :=
    {| content := {| key := k; address := a;
                     sequence := _next_sequence self |};
       ttl := _initial_ttl self |} in
  (query, {| _next_sequence := _next_sequence self + 1;
             _initial_ttl := _initial_ttl self |}).

(** *** Effects: log records and datagrams sent *)

Inductive effect :=
| log_invalid_message (expected actual : MessageType)
| log_received_clireq (query : Query)
| log_received_query (query : Query)
| log_received_response (message_origin : ip_port)
| log_already_seen (query : Query)
| log_forwarding (neighbor_address : ip_port)
| log_sending_response (a : ip_port)
| sendto (data : bytes) (a : ip_port).

(** A computation returns a value and its trace, or raises. *)
Definition M (A : Type) : Type := option (A * list effect).

Definition ret {A} (a : A) : M A := Some (a, []).

Definition bind {A B} (c : M A) (k : A -> M B) : M B :=
  match c with
  | None => None
  | Some (a, t) =>
      match k a with
      | None => None
      | Some (b, t') => Some (b, t ++ t')
      end
  end.

Definition lift {A} (o : option A) : M A :=
  match o with Some a => ret a | None => None end.

Definition tell (t : list effect) : M unit := Some (tt, t).

Declare Scope M_scope.
Delimit Scope M_scope with M.
Notation "x <- c ;; k" := (bind c (fun x => k))
  (at level 100, c at next level, right associativity) : M_scope.
Notation "c ;; k" := (bind c (fun _ => k))
  (at level 100, right associativity) : M_scope.

(** [_log_invalid_message]; in [unpack_query] the second argument is the
    number read from the wire, here the member [MessageType] made of it. *)
Definition _log_invalid_message (expected actual : MessageType) : M unit :=
  tell [log_invalid_message expected actual].

Definition MessageType_eqb (a b : MessageType) : bool :=
  MessageType_value a =? MessageType_value b.

Definition extract_message_type (packed_message : bytes)
    : option MessageType :=
  message_type ← unpack_type (take MESSAGE_TYPE_SIZE packed_message);
  MessageType_of_value message_type.

Definition pack_clireq (k : str) : option bytes :=
  let data := take MAX_KEY_SIZE k ++ [0] in
  t ← pack_type (MessageType_value CLIREQ);
  d ← Utf8.encode data;
  Some (t ++ d).

Definition unpack_clireq (clireq : bytes) : M str :=
  (message_type <- lift (extract_message_type clireq);;
   (if negb (MessageType_eqb message_type CLIREQ)
    then _log_invalid_message CLIREQ message_type else ret tt);;
   text <- lift (Utf8.decode (drop MESSAGE_TYPE_SIZE clireq));;
   ret (rstrip 0 text))%M.

Definition pack_response (k value : str) : option bytes :=
  let response := take MAX_KEY_SIZE k ++ [9] ++ take MAX_VALUE_SIZE value ++ [0] in
  t ← pack_type (MessageType_value RESPONSE);
  d ← Utf8.encode response;
  Some (t ++ d).

Definition unpack_response (response : bytes) : M str :=
  (message_type <- lift (extract_message_type response);;
   (if negb (MessageType_eqb message_type RESPONSE)
    then _log_invalid_message RESPONSE message_type else ret tt);;
   text <- lift (Utf8.decode (drop MESSAGE_TYPE_SIZE response));;
   ret (rstrip 0 text))%M.

Section Codec.
Context `{SocketLib}.

Definition pack_query (query : Query) : option bytes :=
  let data := take MAX_KEY_SIZE (key (content query)) ++ [0] in
  let '(ip, port) := address (content query) in
  packed_ip ← inet_aton ip;
  h ← pack_query_header (MessageType_value QUERY) (ttl query) packed_ip
        port (sequence (content query));
  d ← Utf8.encode data;
  Some (h ++ d).

Definition unpack_query (query : bytes) : M Query :=
  (header <- lift (unpack_query_header (take QUERY_HEADER_SIZE query));;
   let '(message_type, ttl', packed_ip, port, sequence') := header in
   text <- lift (Utf8.decode (drop QUERY_HEADER_SIZE query));;
   let k := rstrip 0 text in
   ip <- lift (inet_ntoa packed_ip);;
   actual <- lift (MessageType_of_value message_type);;
   (if negb (MessageType_eqb actual QUERY)
    then _log_invalid_message QUERY actual else ret tt);;
   ret {| content := {| key := k; address := (ip, port);
                        sequence := sequence' |};
          ttl := ttl' - 1 |})%M.

End Codec.

End Utils.

Global Instance MessageType_eq_dec : EqDecision Utils.MessageType.
Proof. solve_decision. Defined.

Global Instance QueryContent_eq_dec : EqDecision Utils.QueryContent.
Proof. solve_decision. Defined.

Global Instance QueryContent_countable : Countable Utils.QueryContent.
Proof.
  apply (inj_countable'
           (fun c => (Utils.key c, Utils.address c, Utils.sequence c))
           (fun t => match t with
                     | (k, a, s) =>
                         {| Utils.key := k; Utils.address := a;
                            Utils.sequence := s |}
                     end)).
  intros c. destruct c. reflexivity.
Defined.

(** ** servent.py *)

Module Servent.
Import Utils.

(** [recvfrom(bufsize)] hands over at most [bufsize] bytes of a datagram
    and drops the rest. *)
Definition recvfrom (bufsize : nat) (datagram : bytes) : bytes :=
  take bufsize datagram.

(** What [main] keeps across iterations of its loop. *)
Record state := {
  query_creator : QueryCreator;
  queries_seen : gset QueryContent
}.

Definition initial : state :=
  {| query_creator := QueryCreator_init; queries_seen := ∅ |}.

(** The datagrams an effect trace puts on the network. *)
Definition sent (t : list effect) : list (bytes * ip_port) :=
  flat_map (fun e => match e with sendto d a => [(d, a)] | _ => [] end) t.

Section Loop.
Context `{SocketLib}.

(** [database] is the dict [parse_database] returned,
    [neighbor_addresses] is [args.neighbor_addresses]. *)
Variable database : gmap str str.
Variable neighbor_addresses : list ip_port.

(** The [for] loop over the neighbours. *)
Definition forward (packed_query : bytes) (message_origin : ip_port)
    : list effect :=
  flat_map
    (fun neighbor_address =>
       if decide (neighbor_address <> message_origin)
       then [log_forwarding neighbor_address;
             sendto packed_query neighbor_address]
       else [])
    neighbor_addresses.

Definition nonempty {A} (l : list A) : bool :=
  match l with [] => false | _ => true end.

(** The loop body from the duplicate test on; the [continue] of a
    duplicate leaves the state as it is. *)
Definition handle_query (st : state) (query : Query)
    (message_origin : ip_port) : M state :=
  (if decide (content query ∈ queries_seen st) then
     tell [log_already_seen query];;
     ret st
   else
     let st' := {| query_creator := query_creator st;
                   queries_seen := {[content query]} ∪ queries_seen st |} in
     (if (0 <? ttl query) && nonempty neighbor_addresses then
        packed_query <- lift (pack_query query);;
        tell (forward packed_query message_origin)
      else ret tt);;
     match database !! key (content query) with
     | Some value =>
         response <- lift (pack_response (key (content query)) value);;
         tell [log_sending_response (address (content query));
               sendto response (address (content query))]
     | None => ret tt
     end;;
     ret st')%M.

(** One iteration of [while True] on the datagram the socket delivers. *)
Definition iteration (st : state) (datagram : bytes)
    (message_origin : ip_port) : M state :=
  (let message_data := recvfrom MAX_SERVER_MESSAGE_SIZE datagram in
   message_type <- lift (extract_message_type message_data);;
   match message_type with
   | CLIREQ =>
       k <- unpack_clireq message_data;;
       let '(query, creator) :=
         new_query (query_creator st) k message_origin in
       tell [log_received_clireq query];;
       handle_query {| query_creator := creator;
                       queries_seen := queries_seen st |}
                    query message_origin
   | QUERY =>
       query <- unpack_query message_data;;
       tell [log_received_query query];;
       handle_query st query message_origin
   | RESPONSE =>
       tell [log_received_response message_origin];;
       ret st
   end)%M.

(** The loop on the datagrams that arrive, in order; an iteration that
    raises ends the process, and the later datagrams are never read. *)
Fixpoint main (st : state) (incoming : list (bytes * ip_port)) : M state :=
  match incoming with
  | [] => ret st
  | (datagram, message_origin) :: rest =>
      (st' <- iteration st datagram message_origin;;
       main st' rest)%M
  end.

End Loop.

End Servent.


(** ** Vocabulary of the statements *)

Section Vocabulary.
Context `{SocketLib}.
Import Utils.

(** An address as [recvfrom] reports it: an IPv4 address that [inet_aton]
    reads, and a 16-bit port. *)
Definition socket_address (a : ip_port) : Prop :=
  is_Some (inet_aton a.1) /\ 0 <= a.2 < 2 ^ 16.

(** An IPv4 address written the way [inet_ntoa] prints it. *)
Definition canonical_ip (ip : str) : Prop :=
  exists b, inet_aton ip = Some b /\ inet_ntoa b = Some ip.

(** The content of a query every field of which has room in the QUERY
    layout and whose key is text. *)
Definition fits_wire (c : QueryContent) : Prop :=
  socket_address (address c) /\ 0 <= sequence c < 2 ^ 32 /\
  Utf8.encodable (key c) = true.

(** A database all values of which are text. *)
Definition database_text (database : gmap str str) : Prop :=
  map_Forall (fun _ value => Utf8.encodable value = true) database.

(** The ttl and sequence fields of a packed QUERY, read with the
    formatter of the header. *)
Definition wire_ttl (packed_query : bytes) : option Z :=
  match unpack_query_header (take QUERY_HEADER_SIZE packed_query) with
  | Some (_, ttl', _, _, _) => Some ttl'
  | None => None
  end.

Definition wire_sequence (packed_query : bytes) : option Z :=
  match unpack_query_header (take QUERY_HEADER_SIZE packed_query) with
  | Some (_, _, _, _, sequence') => Some sequence'
  | None => None
  end.

(** The state of a servent whose counter still fits the sequence field
    and whose creator has the initial ttl [main] gave it. *)
Definition creator_ok (st : Servent.state) : Prop :=
  _initial_ttl (Servent.query_creator st) = 3 /\
  0 <= _next_sequence (Servent.query_creator st) < 2 ^ 32.

(** What the iteration needs of a datagram to get through its decoding:
    a known type and a UTF-8 key, behind a whole header for a QUERY. *)
Definition decodes (message_data : bytes) : Prop :=
  match extract_message_type message_data with
  | Some CLIREQ =>
      is_Some (Utf8.decode (drop MESSAGE_TYPE_SIZE message_data))
  | Some QUERY =>
      (QUERY_HEADER_SIZE <= length message_data)%nat /\
      is_Some (Utf8.decode (drop QUERY_HEADER_SIZE message_data))
  | Some RESPONSE => True
  | None => False
  end.

(** Every content of the set of seen queries was stamped before the
    next sequence number. *)
Definition stamped_below (st : Servent.state) : Prop :=
  forall c, c ∈ Servent.queries_seen st ->
            sequence c < _next_sequence (Servent.query_creator st).

End Vocabulary.

(** A key or a value of the round-trip property: at most [n] characters,
    none of them NUL or tab, all of them text. *)
Definition plain (n : nat) (s : str) : bool :=
  bool_decide (length s <= n)%nat &&
  forallb (fun c => negb (c =? 0) && negb (c =? 9) && Utf8.is_scalar c) s.

(** A RESPONSE for [k] and [value] as it is on the wire: the two bytes of
    the type 3, then the UTF-8 of the first 40 characters of the key, a
    tab, the first 160 characters of the value and a NUL. *)
Definition response_for (k value : str) (r : bytes) : Prop :=
  exists d,
    Utf8.encode (take Utils.MAX_KEY_SIZE k ++ [9]
                 ++ take Utils.MAX_VALUE_SIZE value ++ [0]) = Some d /\
    r = [Byte.x00; Byte.x03] ++ d.

(** The QUERY and the RESPONSE datagrams of a trace. *)
Definition queries_sent (t : list Utils.effect)
    : list (bytes * Utils.ip_port) :=
  filter (fun da => Utils.extract_message_type da.1 = Some Utils.QUERY)
         (Servent.sent t).

Definition responses_sent (t : list Utils.effect)
    : list (bytes * Utils.ip_port) :=
  filter (fun da => Utils.extract_message_type da.1 = Some Utils.RESPONSE)
         (Servent.sent t).

(** Successive calls of [new_query] on one creator. *)
Fixpoint new_queries (self : Utils.QueryCreator)
    (calls : list (str * Utils.ip_port)) : list Utils.Query :=
  match calls with
  | [] => []
  | (k, a) :: rest =>
      let '(query, self') := Utils.new_query self k a in
      query :: new_queries self' rest
  end.

(** ** The scenario of two servents and a client

    Servent A knows [foo], servent B knows [baz], B is the only neighbour
    of A, and the client asks A.  C is one more servent. *)

Module Scenario.
Import Utils.

(** ["127.0.0.1"] *)
Definition localhost : str := [49; 50; 55; 46; 48; 46; 48; 46; 49].

Definition A_address : ip_port := (localhost, 9000).
Definition B_address : ip_port := (localhost, 9001).
Definition C_address : ip_port := (localhost, 9002).
Definition client_address : ip_port := (localhost, 50000).

Definition foo : str := [102; 111; 111].
Definition bar : str := [98; 97; 114].
Definition baz : str := [98; 97; 122].
Definition qux : str := [113; 117; 120].

Definition A_database : gmap str str := {[ foo := bar ]}.
Definition B_database : gmap str str := {[ baz := qux ]}.
Definition A_neighbors : list ip_port := [B_address].

(** The query A makes of the client's first request. *)
Definition first_query : Query :=
  {| content := {| key := baz; address := client_address; sequence := 0 |};
     ttl := 3 |}.

(** The same query as B unpacks it, and with its last hop used up. *)
Definition relayed_query : Query :=
  {| content := content first_query; ttl := 2 |}.
Definition spent_query : Query :=
  {| content := content first_query; ttl := 0 |}.

(** A query stamped with the first sequence number beyond 16 bits. *)
Definition late_query : Query :=
  {| content := {| key := baz; address := client_address;
                   sequence := 2 ^ 16 |};
     ttl := 3 |}.

Definition late_relayed_query : Query :=
  {| content := content late_query; ttl := 2 |}.

(** The datagrams of the scenario, byte by byte: the CLIREQs for [baz]
    and for [foo] (type 1, key, NUL), and the four queries as [pack_query]
    writes them (type 2, ttl, the four bytes of 127.0.0.1, port 50000,
    sequence, key, NUL). *)
Definition clireq_baz : bytes :=
  [x00; x01; x62; x61; x7a; x00]%list.

Definition clireq_foo : bytes :=
  [x00; x01; x66; x6f; x6f; x00]%list.

Definition packed_first_query : bytes :=
  [x00; x02; x00; x03; x7f; x00; x00; x01; xc3; x50;
   x00; x00; x00; x00; x62; x61; x7a; x00]%list.

Definition packed_relayed_query : bytes :=
  [x00; x02; x00; x02; x7f; x00; x00; x01; xc3; x50;
   x00; x00; x00; x00; x62; x61; x7a; x00]%list.

Definition packed_late_query : bytes :=
  [x00; x02; x00; x03; x7f; x00; x00; x01; xc3; x50;
   x00; x01; x00; x00; x62; x61; x7a; x00]%list.

Definition packed_late_relayed_query : bytes :=
  [x00; x02; x00; x02; x7f; x00; x00; x01; xc3; x50;
   x00; x01; x00; x00; x62; x61; x7a; x00]%list.

(** The first query with 1 in its ttl field, its last hop: B unpacks it
    as [spent_query]. *)
Definition packed_last_hop_query : bytes :=
  [x00; x02; x00; x01; x7f; x00; x00; x01; xc3; x50;
   x00; x00; x00; x00; x62; x61; x7a; x00]%list.

End Scenario.

(** ** More of the program: start-up and the client *)

(** *** [str] methods on whitespace, and [str(int)] *)

Module Text.

(** The characters [str.strip()] and [str.split()] take for whitespace. *)
Definition isspace (c : Z) : bool :=
  ((9 <=? c) && (c <=? 13)) || ((28 <=? c) && (c <=? 32)) ||
  (c =? 0x85) || (c =? 0xA0) || (c =? 0x1680) ||
  ((0x2000 <=? c) && (c <=? 0x200A)) ||
  (c =? 0x2028) || (c =? 0x2029) || (c =? 0x202F) || (c =? 0x205F) ||
  (c =? 0x3000).

Fixpoint lstrip (s : str) : str :=
  match s with
  | [] => []
  | c :: s' => if isspace c then lstrip s' else s
  end.

Fixpoint rstrip (s : str) : str :=
  match s with
  | [] => []
  | c :: s' =>
      match rstrip s' with
      | [] => if isspace c then [] else [c]
      | r => c :: r
      end
  end.

Definition strip (s : str) : str := rstrip (lstrip s).

(** The characters up to the first whitespace, and the rest. *)
Fixpoint word (s : str) : str * str :=
  match s with
  | [] => ([], [])
  | c :: s' =>
      if isspace c then ([], s)
      else let '(w, r) := word s' in (c :: w, r)
  end.

(** [s.split(maxsplit=1)]: the first word, and what follows the
    whitespace behind it, if anything does. *)
Definition split_maxsplit_1 (s : str) : list str :=
  match lstrip s with
  | [] => []
  | s1 =>
      let '(w, r) := word s1 in
      match lstrip r with
      | [] => [w]
      | rest => [w; rest]
      end
  end.

Fixpoint digits (u : Decimal.uint) : str :=
  match u with
  | Decimal.Nil => []
  | Decimal.D0 u => 48 :: digits u
  | Decimal.D1 u => 49 :: digits u
  | Decimal.D2 u => 50 :: digits u
  | Decimal.D3 u => 51 :: digits u
  | Decimal.D4 u => 52 :: digits u
  | Decimal.D5 u => 53 :: digits u
  | Decimal.D6 u => 54 :: digits u
  | Decimal.D7 u => 55 :: digits u
  | Decimal.D8 u => 56 :: digits u
  | Decimal.D9 u => 57 :: digits u
  end.

(** [str(n)] of an [int], as [format] prints it for [{}]. *)
Definition str_of_int (n : Z) : str :=
  match Z.to_int n with
  | Decimal.Pos u => digits u
  | Decimal.Neg u => 45 :: digits u
  end.

End Text.

(** *** servent.py: [parse_database] *)

Module Database.

(** The body of the [for] loop on one line the file yields: [line[0]]
    raises on an empty line, a line that starts with [#] is passed over,
    and the unpacking into [key, value] raises unless the split gives two
    parts. *)
Definition parse_line (database : gmap str str) (line : str)
    : option (gmap str str) :=
  match line with
  | [] => None
  | c :: _ =>
      if c =? 35 then Some database
      else
        match Text.split_maxsplit_1 (Text.strip line) with
        | [k; value] => Some (<[k := value]> database)
        | _ => None
        end
  end.

Fixpoint parse_lines (database : gmap str str) (input_file : list str)
    : option (gmap str str) :=
  match input_file with
  | [] => Some database
  | line :: rest =>
      match parse_line database line with
      | Some database' => parse_lines database' rest
      | None => None
      end
  end.

(** [parse_database], on the lines the open file yields. *)
Definition parse_database (input_file : list str) : option (gmap str str) :=
  parse_lines ∅ input_file.

End Database.

(** *** utils.py: [make_address_parser] *)

Module AddressParser.
Import Utils.

Section Int.

(** The built-in [int], applied to a [str]. *)
Variable int : str -> option Z.

Definition _parse_address (address : str) (port_only : bool)
    : option ip_port :=
  match
    (if port_only then Some ([], address)
     else match DottedQuad.split_on 58 address with
          | [ip; port] => Some (ip, port)
          | _ => None
          end)
  with
  | Some (ip, port) =>
      match int port with
      | Some n => Some (ip, n)
      | None => None
      end
  | None => None
  end.

Fixpoint parse_all (port_only : bool) (value : list str)
    : option (list ip_port) :=
  match value with
  | [] => Some []
  | address :: rest =>
      match _parse_address address port_only with
      | Some a =>
          match parse_all port_only rest with
          | Some output => Some (a :: output)
          | None => None
          end
      | None => None
      end
  end.

(** [IpParser.__call__]: what it stores under [dest], for a list of
    addresses and for one address. *)
Definition call (port_only : bool) (value : str + list str)
    : option (ip_port + list ip_port) :=
  match value with
  | inr addresses => inr <$> parse_all port_only addresses
  | inl address => inl <$> _parse_address address port_only
  end.

End Int.

End AddressParser.

(** *** client.py *)

Module Client.
Import Utils.

Inductive effect :=
| input_prompt
| print (line : str)
| sendto (data : bytes) (a : ip_port)
| log_timeout_trying_again
| log_timeout_stop
| log (record : Utils.effect).

(** What one [recvfrom] on the socket comes back with: a datagram and
    its sender, or [None] for [socket.timeout].  A socket is the list of
    what its calls are going to meet; when the list is used up, nothing
    arrives any more and every call times out. *)
Abbreviation arrival := (option (bytes * ip_port)).

Inductive ending := returned | timed_out.

Definition recvfrom (bufsize : nat) (client_socket : list arrival)
    : arrival * list arrival :=
  match client_socket with
  | [] => (None, [])
  | None :: rest => (None, rest)
  | Some (datagram, a) :: rest => (Some (take bufsize datagram, a), rest)
  end.

(** ['Querying servents for key...'] *)
Definition querying : str :=
  [81; 117; 101; 114; 121; 105; 110; 103; 32; 115; 101; 114; 118; 101; 110;
   116; 115; 32; 102; 111; 114; 32; 107; 101; 121; 46; 46; 46].

(** ['{}:{}: {}'.format(ip, port, value)] *)
Definition response_line (a : ip_port) (value : str) : str :=
  a.1 ++ [58] ++ Text.str_of_int a.2 ++ [58; 32] ++ value.

(** [recv_and_print_response]: how the call ends, what it does, and the
    socket after it; [None] when [unpack_response] raises. *)
Definition recv_and_print_response (client_socket : list arrival)
    : option (ending * list effect * list arrival) :=
  match recvfrom RESPONSE_MESSAGE_SIZE client_socket with
  | (None, rest) => Some (timed_out, [], rest)
  | (Some (data, a), rest) =>
      match unpack_response data with
      | Some (value, records) =>
          Some (returned,
                map log records ++ [print (response_line a value)], rest)
      | None => None
      end
  end.

(** The second [try]: [recv_and_print_response] again and again until
    one call times out. *)
Fixpoint receive_until_timeout (client_socket : list arrival)
    : option (list effect) :=
  match client_socket with
  | [] => Some [log_timeout_stop]
  | _ :: rest =>
      match recv_and_print_response client_socket with
      | Some (returned, t, _) =>
          match receive_until_timeout rest with
          | Some t' => Some (t ++ t')
          | None => None
          end
      | Some (timed_out, t, _) => Some (t ++ [log_timeout_stop])
      | None => None
      end
  end.

(** The body of [while True] in [main] once [input] has returned
    [query], on the socket it makes for the key. *)
Definition lookup (address : ip_port) (query : str)
    (client_socket : list arrival) : option (list effect) :=
  match pack_clireq query with
  | None => None
  | Some clireq =>
      match recv_and_print_response client_socket with
      | None => None
      | Some (e, t, rest) =>
          match receive_until_timeout rest with
          | None => None
          | Some t' =>
              Some ([print querying; sendto clireq address] ++
                    match e with
                    | returned => t
                    | timed_out =>
                        [log_timeout_trying_again; sendto clireq address]
                    end ++ t')
          end
      end
  end.

(** [main], on the keys the operator types and the socket of each. *)
Fixpoint main (address : ip_port) (keys : list (str * list arrival))
    : option (list effect) :=
  match keys with
  | [] => Some [input_prompt]
  | (query, client_socket) :: rest =>
      match lookup address query client_socket with
      | None => None
      | Some t =>
          match main address rest with
          | Some t' => Some (input_prompt :: t ++ t')
          | None => None
          end
      end
  end.

(** The datagrams a trace of the client puts on the network, and the
    lines it prints. *)
Definition sent (t : list effect) : list (bytes * ip_port) :=
  flat_map (fun e => match e with sendto d a => [(d, a)] | _ => [] end) t.

Definition printed (t : list effect) : list str :=
  flat_map (fun e => match e with print l => [l] | _ => [] end) t.

(** The datagrams a lookup reads off its socket: after one timeout at
    the very start, if there is one, all up to the next timeout. *)
Fixpoint until_timeout (client_socket : list arrival)
    : list (bytes * ip_port) :=
  match client_socket with
  | Some da :: rest => da :: until_timeout rest
  | _ => []
  end.

Definition heard (client_socket : list arrival) : list (bytes * ip_port) :=
  match client_socket with
  | None :: rest => until_timeout rest
  | _ => until_timeout client_socket
  end.

End Client.

(** *** Vocabulary of the further statements *)

(** The line the client prints for a datagram it reads, if the datagram
    unpacks. *)
Definition shown (da : bytes * Utils.ip_port) : option str :=
  match Utils.unpack_response (take Utils.RESPONSE_MESSAGE_SIZE da.1) with
  | Some (value, _) => Some (Client.response_line da.2 value)
  | None => None
  end.

Definition times_out_first (client_socket : list Client.arrival) : bool :=
  match client_socket with
  | Some _ :: _ => false
  | _ => true
  end.

(** Text of the characters up to 127, which take one byte each. *)
Definition is_ascii (s : str) : bool :=
  forallb (fun c => (0 <=? c) && (c <? 128)) s.

(** Text of whitespace only, and text with no whitespace in it. *)
Definition blank (s : str) : bool := forallb Text.isspace s.

Definition solid (s : str) : bool :=
  forallb (fun c => negb (Text.isspace c)) s.

(** Text that starts and ends with a character other than whitespace. *)
Definition trimmed (s : str) : bool :=
  match head s, last s with
  | Some c, Some c' => negb (Text.isspace c) && negb (Text.isspace c')
  | _, _ => false
  end.

(** A line of the dict file that gives [value] to [k]: no comment, the
    key, whitespace, the value, with whitespace around them at will. *)
Definition sets (line k value : str) : Prop :=
  head line <> Some 35 /\
  k <> [] /\ solid k = true /\ trimmed value = true /\
  exists pre sep post,
    line = pre ++ k ++ sep ++ value ++ post /\
    blank pre = true /\ sep <> [] /\ blank sep = true /\ blank post = true.

(** ** More of the scenario: a dict file and a response *)

Module DictFile.

(** ["# dict\n"] *)
Definition comment : str := [35; 32; 100; 105; 99; 116; 10].

(** ["foo bar\n"] *)
Definition foo_bar : str := Scenario.foo ++ [32] ++ Scenario.bar ++ [10].

(** ["baz qux"], and the line [" foo\t baz qux \n"] that gives it to
    [foo]. *)
Definition baz_qux : str := Scenario.baz ++ [32] ++ Scenario.qux.

Definition foo_again : str :=
  [32] ++ Scenario.foo ++ [9; 32] ++ baz_qux ++ [32; 10].

Definition input_file : list str := [comment; foo_bar; foo_again; comment].

Definition database : gmap str str :=
  <[Scenario.foo := baz_qux]> (<[Scenario.foo := Scenario.bar]> ∅).

End DictFile.

(** The RESPONSE of B for [baz], byte by byte: type 3, [baz], tab, [qux],
    NUL; and the line the client prints for it when it comes from the
    port 40000 of the local host. *)
Definition response_baz : bytes :=
  [x00; x03; x62; x61; x7a; x09; x71; x75; x78; x00]%list.

(** The RESPONSE of A for [foo]: type 3, [foo], tab, [bar], NUL. *)
Definition response_foo : bytes :=
  [x00; x03; x66; x6f; x6f; x09; x62; x61; x72; x00]%list.

Definition response_baz_line : str :=
  Scenario.localhost ++ [58; 52; 48; 48; 48; 48; 58; 32]
  ++ Scenario.baz ++ [9] ++ Scenario.qux.

(** * Properties *)

(** ** Bytes *)

Lemma byte_to_Z_range (b : Byte.byte) : 0 <= byte_to_Z b < 256.
Proof.
  unfold byte_to_Z. pose proof (Byte.to_N_bounded b) as Hb. lia.
Qed.

Lemma byte_to_of_Z (z : Z) : 0 <= z < 256 -> byte_to_Z (byte_of_Z z) = z.
Proof.
  intros Hz. unfold byte_to_Z, byte_of_Z.
  rewrite Z.mod_small by lia.
  destruct (Byte.of_N (Z.to_N z)) as [b|] eqn:Hb.
  - apply Byte.to_of_N in Hb. rewrite Hb. lia.
  - apply Byte.of_N_None_iff in Hb. lia.
Qed.

Lemma byte_of_to_Z (b : Byte.byte) : byte_of_Z (byte_to_Z b) = b.
Proof.
  unfold byte_of_Z. rewrite Z.mod_small by apply byte_to_Z_range.
  unfold byte_to_Z. rewrite N2Z.id, Byte.of_to_N. reflexivity.
Qed.

(** ** The text codec *)

Module Utf8Facts.
Import Utf8.

Lemma continuation_of_Z (x : Z) :
  0 <= x < 64 -> continuation (byte_of_Z (0x80 + x)) = Some x.
Proof.
  intros Hx. unfold continuation. rewrite byte_to_of_Z by lia.
  replace ((128 <=? 128 + x) && (128 + x <? 192)) with true by lia.
  f_equal. lia.
Qed.

(** Decoding reads back one encoded character and goes on with the rest. *)
Lemma decode_encode_char (c : Z) (b r : bytes) :
  encode_char c = Some b -> decode (b ++ r) = cons c <$> decode r.
Proof.
  unfold encode_char, is_scalar. intros Hb.
  destruct (negb _) eqn:Hs; [discriminate|].
  apply negb_false_iff in Hs.
  destruct (c <? 128) eqn:H1.
  { injection Hb as <-. cbn [app decode]. rewrite byte_to_of_Z by lia.
    rewrite H1. reflexivity. }
  destruct (c <? 2048) eqn:H2.
  { injection Hb as <-. cbn [app decode].
    assert (2 <= c / 64 < 32 /\ 0 <= c mod 64 < 64 /\
            c / 64 * 64 + c mod 64 = c) as (? & ? & Hc)
      by (Z.div_mod_to_equations; lia).
    rewrite byte_to_of_Z by lia.
    replace (192 + c / 64 <? 128) with false by lia.
    replace (192 + c / 64 <? 194) with false by lia.
    replace (192 + c / 64 <? 224) with true by lia.
    rewrite continuation_of_Z by lia.
    do 2 f_equal. lia. }
  destruct (c <? 65536) eqn:H3.
  { injection Hb as <-. cbn [app decode].
    assert (0 <= c / 4096 < 16 /\ 0 <= (c / 64) mod 64 < 64 /\
            0 <= c mod 64 < 64 /\
            c / 4096 * 4096 + (c / 64) mod 64 * 64 + c mod 64 = c)
      as (? & ? & ? & Hc) by (Z.div_mod_to_equations; lia).
    rewrite byte_to_of_Z by lia.
    replace (224 + c / 4096 <? 128) with false by lia.
    replace (224 + c / 4096 <? 194) with false by lia.
    replace (224 + c / 4096 <? 224) with false by lia.
    replace (224 + c / 4096 <? 240) with true by lia.
    rewrite !continuation_of_Z by lia. cbv zeta.
    replace ((224 + c / 4096 - 224) * 4096 + (c / 64) mod 64 * 64 + c mod 64)
      with c by lia.
    unfold is_scalar. rewrite Hs.
    replace (2048 <=? c) with true by lia. reflexivity. }
  injection Hb as <-. cbn [app decode].
  assert (0 <= c / 262144 < 5 /\ 0 <= (c / 4096) mod 64 < 64 /\
          0 <= (c / 64) mod 64 < 64 /\ 0 <= c mod 64 < 64 /\
          c / 262144 * 262144 + (c / 4096) mod 64 * 4096
          + (c / 64) mod 64 * 64 + c mod 64 = c)
    as (? & ? & ? & ? & Hc) by (Z.div_mod_to_equations; lia).
  rewrite byte_to_of_Z by lia.
  replace (240 + c / 262144 <? 128) with false by lia.
  replace (240 + c / 262144 <? 194) with false by lia.
  replace (240 + c / 262144 <? 224) with false by lia.
  replace (240 + c / 262144 <? 240) with false by lia.
  replace (240 + c / 262144 <? 245) with true by lia.
  rewrite !continuation_of_Z by lia. cbv zeta.
  replace ((240 + c / 262144 - 240) * 262144 + (c / 4096) mod 64 * 4096
           + (c / 64) mod 64 * 64 + c mod 64) with c by lia.
  unfold is_scalar. rewrite Hs.
  replace (65536 <=? c) with true by lia. reflexivity.
Qed.

Lemma decode_encode (s : str) (b : bytes) :
  encode s = Some b -> decode b = Some s.
Proof.
  revert b. induction s as [|c s IH]; intros b Hb; cbn in Hb.
  - injection Hb as <-. reflexivity.
  - destruct (encode_char c) as [bc|] eqn:Hc; [|discriminate].
    destruct (encode s) as [bs|]; [|discriminate].
    injection Hb as <-.
    rewrite (decode_encode_char _ _ _ Hc), (IH bs eq_refl). reflexivity.
Qed.

Lemma encode_char_is_Some (c : Z) :
  is_scalar c = true -> is_Some (encode_char c).
Proof.
  intros Hc. unfold encode_char. rewrite Hc. cbn.
  repeat (destruct (_ <? _); [eexists; reflexivity|]).
  eexists; reflexivity.
Qed.

Lemma encode_is_Some (s : str) : encodable s = true -> is_Some (encode s).
Proof.
  induction s as [|c s IH]; cbn; intros Hs.
  - eexists; reflexivity.
  - apply andb_true_iff in Hs as [Hc Hs].
    destruct (encode_char_is_Some c Hc) as [bc ->].
    destruct (IH Hs) as [bs ->]. eexists; reflexivity.
Qed.

Lemma encodable_app (s t : str) :
  encodable (s ++ t) = encodable s && encodable t.
Proof. apply forallb_app. Qed.

Lemma encodable_take (n : nat) (s : str) :
  encodable s = true -> encodable (take n s) = true.
Proof.
  revert n. induction s as [|c s IH]; intros [|n]; cbn; auto.
  intros Hs. apply andb_true_iff in Hs as [-> Hs]. cbn. auto.
Qed.

Lemma continuation_range (b : Byte.byte) (c : Z) :
  continuation b = Some c -> 0 <= c < 64.
Proof.
  unfold continuation. destruct (_ && _) eqn:Hb; [|discriminate].
  intros [= <-]. lia.
Qed.

Local Ltac decode_cases H :=
  repeat match type of H with
    | context [if ?b then _ else _] => destruct b eqn:?
    | context [match ?r with [] => _ | _ :: _ => _ end] => destruct r
    | context [match continuation ?b with Some _ => _ | None => _ end] =>
        let E := fresh "Hcont" in
        destruct (continuation b) eqn:E;
        [apply continuation_range in E|]
    | None = Some _ => discriminate H
    end.

(** Whatever [decode] returns can be encoded again. *)
Lemma decode_encodable (bs : bytes) (s : str) :
  decode bs = Some s -> encodable s = true.
Proof.
  remember (length bs) as n eqn:Hn. revert bs s Hn.
  induction n as [n IH] using lt_wf_ind. intros bs s Hn Hd.
  destruct bs as [|b0 r0]; cbn [decode] in Hd.
  { injection Hd as <-. reflexivity. }
  pose proof (byte_to_Z_range b0) as Hb0. cbv zeta in Hd.
  decode_cases Hd;
    match type of Hd with
    | cons ?c <$> decode ?r = Some _ =>
        let E := fresh "Hr" in
        destruct (decode r) as [s'|] eqn:E; [|discriminate Hd];
        injection Hd as <-; cbn [encodable forallb];
        apply andb_true_iff; split;
          [| eapply (IH (length r)); [cbn in Hn; lia | reflexivity | exact E]]
    end;
    try match goal with
        | Hc : _ && is_scalar ?c = true |- is_scalar ?c = true =>
            apply andb_true_iff in Hc as [_ ->]; reflexivity
        end;
    unfold is_scalar; lia.
Qed.

End Utf8Facts.

(** ** [rstrip] *)

Lemma rstrip_snoc (ch : Z) (s : str) : rstrip ch (s ++ [ch]) = rstrip ch s.
Proof.
  induction s as [|c s IH]; cbn.
  - rewrite Z.eqb_refl. reflexivity.
  - rewrite IH. reflexivity.
Qed.

Lemma rstrip_id (ch : Z) (s : str) : ch ∉ s -> rstrip ch s = s.
Proof.
  induction s as [|c s IH]; cbn; intros Hs; [reflexivity|].
  apply not_elem_of_cons in Hs as [Hc Hs]. rewrite (IH Hs).
  destruct s; [|reflexivity].
  destruct (Z.eqb_spec c ch); congruence.
Qed.

Lemma rstrip_encodable (ch : Z) (s : str) :
  Utf8.encodable s = true -> Utf8.encodable (rstrip ch s) = true.
Proof.
  induction s as [|c s IH]; cbn; intros Hs; [reflexivity|].
  apply andb_true_iff in Hs as [Hc Hs]. specialize (IH Hs).
  destruct (rstrip ch s) as [|c' r].
  - destruct (c =? ch); cbn; [reflexivity|]. rewrite Hc. reflexivity.
  - cbn [Utf8.encodable forallb] in *. rewrite Hc. exact IH.
Qed.

(** ** [struct] *)

Module StructFacts.
Import Struct.

Lemma unpack_pack_H (v : Z) (b : bytes) :
  pack_H v = Some b -> unpack_H b = Some v /\ length b = 2%nat.
Proof.
  unfold pack_H. destruct (_ && _) eqn:Hv; [|discriminate].
  intros [= <-]. split; [|reflexivity]. cbn.
  rewrite !byte_to_of_Z by (Z.div_mod_to_equations; lia).
  f_equal. Z.div_mod_to_equations; lia.
Qed.

Lemma pack_H_range (v : Z) : is_Some (pack_H v) <-> 0 <= v < 2 ^ 16.
Proof.
  unfold pack_H. destruct (_ && _) eqn:Hv.
  - split; [lia | eexists; reflexivity].
  - split; [intros [? [=]] | lia].
Qed.

Lemma pack_unpack_H (b : bytes) (v : Z) :
  unpack_H b = Some v -> pack_H v = Some b.
Proof.
  destruct b as [|h [|l [|]]]; try discriminate. intros [= <-].
  pose proof (byte_to_Z_range h). pose proof (byte_to_Z_range l).
  unfold pack_H.
  replace ((0 <=? _) && (_ <? 2 ^ 16)) with true by lia.
  replace ((byte_to_Z h * 256 + byte_to_Z l) / 256) with (byte_to_Z h)
    by (Z.div_mod_to_equations; lia).
  replace ((byte_to_Z h * 256 + byte_to_Z l) mod 256) with (byte_to_Z l)
    by (Z.div_mod_to_equations; lia).
  rewrite !byte_of_to_Z. reflexivity.
Qed.

Lemma unpack_pack_I (v : Z) (b : bytes) :
  pack_I v = Some b -> unpack_I b = Some v /\ length b = 4%nat.
Proof.
  unfold pack_I. destruct (_ && _) eqn:Hv; [|discriminate].
  intros [= <-]. split; [|reflexivity]. cbn.
  change (2 ^ 24) with 16777216 in *. change (2 ^ 16) with 65536 in *.
  change (2 ^ 32) with 4294967296 in *.
  rewrite !byte_to_of_Z by (Z.div_mod_to_equations; lia).
  f_equal. Z.div_mod_to_equations; lia.
Qed.

Lemma pack_I_range (v : Z) : is_Some (pack_I v) <-> 0 <= v < 2 ^ 32.
Proof.
  unfold pack_I. destruct (_ && _) eqn:Hv.
  - split; [lia | eexists; reflexivity].
  - split; [intros [? [=]] | lia].
Qed.

Lemma pack_unpack_I (b : bytes) (v : Z) :
  unpack_I b = Some v -> pack_I v = Some b.
Proof.
  destruct b as [|b3 [|b2 [|b1 [|b0 [|]]]]]; try discriminate. intros [= <-].
  pose proof (byte_to_Z_range b3). pose proof (byte_to_Z_range b2).
  pose proof (byte_to_Z_range b1). pose proof (byte_to_Z_range b0).
  unfold pack_I.
  change (2 ^ 24) with 16777216 in *. change (2 ^ 16) with 65536 in *.
  change (2 ^ 32) with 4294967296 in *.
  replace ((0 <=? _) && (_ <? 4294967296)) with true by lia.
  set (v := byte_to_Z b3 * 16777216 + byte_to_Z b2 * 65536
            + byte_to_Z b1 * 256 + byte_to_Z b0).
  replace (v / 16777216) with (byte_to_Z b3)
    by (subst v; Z.div_mod_to_equations; lia).
  replace (v / 65536 mod 256) with (byte_to_Z b2)
    by (subst v; Z.div_mod_to_equations; lia).
  replace (v / 256 mod 256) with (byte_to_Z b1)
    by (subst v; Z.div_mod_to_equations; lia).
  replace (v mod 256) with (byte_to_Z b0)
    by (subst v; Z.div_mod_to_equations; lia).
  rewrite !byte_of_to_Z. reflexivity.
Qed.

Lemma pack_4s_id (b : bytes) : length b = 4%nat -> pack_4s b = b.
Proof.
  intros Hb. unfold pack_4s.
  destruct b as [|? [|? [|? [|? [|]]]]]; try discriminate. reflexivity.
Qed.

Lemma pack_4s_length (b : bytes) : length (pack_4s b) = 4%nat.
Proof.
  unfold pack_4s. rewrite length_take, length_app, length_replicate. lia.
Qed.

End StructFacts.

(** ** The dotted-quad instance of the socket library *)

Module DottedQuadFacts.
Import DottedQuad.

Lemma split_on_sep (sep : Z) (p r : str) :
  sep ∉ p -> split_on sep (p ++ sep :: r) = p :: split_on sep r.
Proof.
  induction p as [|c p IH]; cbn; intros Hp.
  - rewrite Z.eqb_refl. reflexivity.
  - apply not_elem_of_cons in Hp as [Hc Hp].
    destruct (Z.eqb_spec c sep); [congruence|].
    rewrite (IH Hp). reflexivity.
Qed.

Lemma split_on_none (sep : Z) (p : str) : sep ∉ p -> split_on sep p = [p].
Proof.
  induction p as [|c p IH]; cbn; intros Hp; [reflexivity|].
  apply not_elem_of_cons in Hp as [Hc Hp].
  destruct (Z.eqb_spec c sep); [congruence|].
  rewrite (IH Hp). reflexivity.
Qed.

Lemma digits_no_dot (p : str) : forallb is_digit p = true -> 46 ∉ p.
Proof.
  induction p as [|c p IH]; cbn; intros Hp.
  - apply not_elem_of_nil.
  - apply andb_true_iff in Hp as [Hc Hp].
    apply not_elem_of_cons. split; [unfold is_digit in Hc; lia | auto].
Qed.

Lemma decimal_digits (b : Byte.byte) :
  forallb is_digit (decimal (byte_to_Z b)) = true.
Proof. destruct b; reflexivity. Qed.

Lemma octet_decimal (b : Byte.byte) :
  octet (decimal (byte_to_Z b)) = Some (byte_to_Z b).
Proof. destruct b; reflexivity. Qed.

Lemma aton_ntoa (b : bytes) (s : str) : ntoa b = Some s -> aton s = Some b.
Proof.
  destruct b as [|b0 [|b1 [|b2 [|b3 [|]]]]]; try discriminate.
  intros [= <-]. unfold aton.
  rewrite !split_on_sep by (apply digits_no_dot, decimal_digits).
  rewrite split_on_none by (apply digits_no_dot, decimal_digits).
  rewrite !octet_decimal, !byte_of_to_Z. reflexivity.
Qed.

Lemma aton_length (s : str) (b : bytes) :
  aton s = Some b -> length b = 4%nat.
Proof.
  unfold aton. intros Hb.
  repeat match type of Hb with
         | context [match ?x with _ => _ end] => destruct x; try discriminate
         end.
  injection Hb as <-. reflexivity.
Qed.

End DottedQuadFacts.

Lemma dotted_quad_lawful : @inet_lawful dotted_quad.
Proof.
  split.
  - exact DottedQuadFacts.aton_length.
  - intros b Hb.
    destruct b as [|b0 [|b1 [|b2 [|b3 [|]]]]]; try discriminate.
    eexists. split; [reflexivity|].
    apply DottedQuadFacts.aton_ntoa. reflexivity.
Qed.

(** ** The codec of utils.py *)

Module CodecFacts.
Import Utils.

Ltac run_M := cbn -[rstrip take drop MAX_KEY_SIZE MAX_VALUE_SIZE].

Lemma pack_type_value (t : MessageType) :
  pack_type (MessageType_value t)
  = Some [Byte.x00; byte_of_Z (MessageType_value t)].
Proof. destruct t; reflexivity. Qed.

Lemma extract_message_type_tagged (t : MessageType) (d : bytes) :
  extract_message_type (Byte.x00 :: byte_of_Z (MessageType_value t) :: d)
  = Some t.
Proof. destruct t; reflexivity. Qed.

Lemma encodable_key_data (k : str) :
  Utf8.encodable k = true ->
  is_Some (Utf8.encode (take MAX_KEY_SIZE k ++ [0])).
Proof.
  intros Hk. apply Utf8Facts.encode_is_Some.
  rewrite Utf8Facts.encodable_app, Utf8Facts.encodable_take by exact Hk.
  reflexivity.
Qed.

Lemma pack_clireq_is_Some (k : str) :
  Utf8.encodable k = true -> is_Some (pack_clireq k).
Proof.
  intros Hk. unfold pack_clireq. rewrite pack_type_value.
  destruct (encodable_key_data k Hk) as [d Hd].
  rewrite Hd. eexists; reflexivity.
Qed.

Lemma unpack_pack_clireq (k : str) (w : bytes) :
  pack_clireq k = Some w ->
  unpack_clireq w = Some (rstrip 0 (take MAX_KEY_SIZE k), []).
Proof.
  unfold pack_clireq. rewrite pack_type_value.
  destruct (Utf8.encode _) as [d|] eqn:Hd; [|discriminate].
  intros [= <-]. unfold unpack_clireq.
  change (extract_message_type _) with (Some CLIREQ).
  change (drop _ _) with d.
  rewrite (Utf8Facts.decode_encode _ _ Hd). run_M.
  rewrite rstrip_snoc. reflexivity.
Qed.

Lemma pack_response_is_Some (k value : str) :
  Utf8.encodable k = true -> Utf8.encodable value = true ->
  is_Some (pack_response k value).
Proof.
  intros Hk Hv. unfold pack_response. rewrite pack_type_value.
  destruct (Utf8Facts.encode_is_Some
              (take MAX_KEY_SIZE k ++ [9] ++ take MAX_VALUE_SIZE value ++ [0]))
    as [d Hd].
  { rewrite !Utf8Facts.encodable_app, !Utf8Facts.encodable_take by assumption.
    reflexivity. }
  rewrite Hd. eexists; reflexivity.
Qed.

Lemma unpack_pack_response (k value : str) (w : bytes) :
  pack_response k value = Some w ->
  unpack_response w
  = Some (rstrip 0 (take MAX_KEY_SIZE k ++ 9 :: take MAX_VALUE_SIZE value),
          []).
Proof.
  unfold pack_response. rewrite pack_type_value.
  destruct (Utf8.encode _) as [d|] eqn:Hd; [|discriminate].
  intros [= <-]. unfold unpack_response.
  change (extract_message_type _) with (Some RESPONSE).
  change (drop _ _) with d.
  rewrite (Utf8Facts.decode_encode _ _ Hd). run_M.
  change (take MAX_KEY_SIZE k ++ 9 :: take MAX_VALUE_SIZE value ++ [0])
    with (take MAX_KEY_SIZE k ++ (9 :: take MAX_VALUE_SIZE value) ++ [0]).
  rewrite app_assoc, rstrip_snoc. reflexivity.
Qed.

Lemma extract_message_type_response (k value : str) (w : bytes) :
  pack_response k value = Some w -> extract_message_type w = Some RESPONSE.
Proof.
  unfold pack_response. rewrite pack_type_value.
  destruct (Utf8.encode _) as [d|]; [|discriminate].
  intros [= <-]. reflexivity.
Qed.

Lemma unpack_pack_query_header (t l : Z) (ip : bytes) (p sq : Z) (h : bytes) :
  pack_query_header t l ip p sq = Some h ->
  length h = QUERY_HEADER_SIZE /\
  unpack_query_header h = Some (t, l, Struct.pack_4s ip, p, sq).
Proof.
  unfold pack_query_header.
  destruct (Struct.pack_H t) as [bt|] eqn:Ht; [|discriminate].
  destruct (Struct.pack_H l) as [bl|] eqn:Hl; [|discriminate].
  destruct (Struct.pack_H p) as [bp|] eqn:Hp; [|discriminate].
  destruct (Struct.pack_I sq) as [bs|] eqn:Hs; [|discriminate].
  intros [= <-].
  apply StructFacts.unpack_pack_H in Ht as [Ht ?], Hl as [Hl ?], Hp as [Hp ?].
  apply StructFacts.unpack_pack_I in Hs as [Hs ?].
  pose proof (StructFacts.pack_4s_length ip) as Hip.
  destruct bt as [|? [|? [|]]]; try discriminate.
  destruct bl as [|? [|? [|]]]; try discriminate.
  destruct bp as [|? [|? [|]]]; try discriminate.
  destruct bs as [|? [|? [|? [|? [|]]]]]; try discriminate.
  destruct (Struct.pack_4s ip) as [|? [|? [|? [|? [|]]]]]; try discriminate.
  split; [reflexivity|].
  cbn [app unpack_query_header]. rewrite Ht, Hl, Hp, Hs. reflexivity.
Qed.

Lemma unpack_H_range (b : bytes) (v : Z) :
  Struct.unpack_H b = Some v -> 0 <= v < 2 ^ 16.
Proof.
  intros Hv. apply StructFacts.pack_H_range.
  rewrite (StructFacts.pack_unpack_H _ _ Hv). eexists; reflexivity.
Qed.

Lemma unpack_I_range (b : bytes) (v : Z) :
  Struct.unpack_I b = Some v -> 0 <= v < 2 ^ 32.
Proof.
  intros Hv. apply StructFacts.pack_I_range.
  rewrite (StructFacts.pack_unpack_I _ _ Hv). eexists; reflexivity.
Qed.

Lemma unpack_query_header_inv (b : bytes) (t l : Z) (ip : bytes) (p sq : Z) :
  unpack_query_header b = Some (t, l, ip, p, sq) ->
  length b = QUERY_HEADER_SIZE /\ length ip = 4%nat /\
  0 <= t < 2 ^ 16 /\ 0 <= l < 2 ^ 16 /\ 0 <= p < 2 ^ 16 /\ 0 <= sq < 2 ^ 32.
Proof.
  unfold unpack_query_header.
  destruct b as [|t1 [|t0 [|l1 [|l0 [|i0 [|i1 [|i2 [|i3 [|p1 [|p0
                [|s3 [|s2 [|s1 [|s0 [|]]]]]]]]]]]]]]]; try discriminate.
  destruct (Struct.unpack_H [t1; t0]) as [t'|] eqn:Ht; [|discriminate].
  destruct (Struct.unpack_H [l1; l0]) as [l'|] eqn:Hl; [|discriminate].
  destruct (Struct.unpack_H [p1; p0]) as [p'|] eqn:Hp; [|discriminate].
  destruct (Struct.unpack_I _) as [s'|] eqn:Hs; [|discriminate].
  intros [= <- <- <- <- <-].
  apply unpack_H_range in Ht, Hl, Hp. apply unpack_I_range in Hs.
  repeat split; lia.
Qed.

Section Query.
Context `{SocketLib} (Hlaw : inet_lawful).

Lemma inet_ntoa_aton (b : bytes) (ip : str) :
  length b = 4%nat -> inet_ntoa b = Some ip -> inet_aton ip = Some b.
Proof.
  intros Hb Hip. destruct Hlaw as [_ Hl].
  destruct (Hl b Hb) as (ip' & Hn & Ha). congruence.
Qed.

(** What [unpack_query] makes of a packed query: the key cut and
    stripped, the address as [inet_ntoa] prints it, one hop fewer. *)
Lemma unpack_pack_query (q : Query) (w : bytes) :
  pack_query q = Some w ->
  exists b ip',
    inet_aton (address (content q)).1 = Some b /\
    inet_ntoa b = Some ip' /\
    unpack_query w
    = Some ({| content :=
                 {| key := rstrip 0 (take MAX_KEY_SIZE (key (content q)));
                    address := (ip', (address (content q)).2);
                    sequence := sequence (content q) |};
               ttl := ttl q - 1 |}, []).
Proof.
  unfold pack_query. destruct q as [[k [ip port] sq] l].
  cbn [content key address sequence ttl fst snd].
  destruct (inet_aton ip) as [b|] eqn:Hb; [|discriminate]. cbn [mbind option_bind].
  destruct (pack_query_header _ _ _ _ _) as [h|] eqn:Hh; [|discriminate].
  destruct (Utf8.encode _) as [d|] eqn:Hd; [|discriminate].
  cbn [mbind option_bind]. intros [= <-].
  apply unpack_pack_query_header in Hh as [Hlen Hh].
  destruct Hlaw as [Hl4 Hl].
  pose proof (Hl4 _ _ Hb) as Hb4.
  destruct (Hl b Hb4) as (ip' & Hn & Ha).
  exists b, ip'. split; [reflexivity|]. split; [exact Hn|].
  unfold unpack_query.
  rewrite take_app_length' by (symmetry; exact Hlen).
  rewrite drop_app_length' by (symmetry; exact Hlen).
  rewrite Hh, (Utf8Facts.decode_encode _ _ Hd). run_M.
  rewrite StructFacts.pack_4s_id by exact Hb4.
  rewrite Hn. run_M. rewrite rstrip_snoc. reflexivity.
Qed.

Lemma pack_query_is_Some (q : Query) :
  fits_wire (content q) -> 0 <= ttl q < 2 ^ 16 -> is_Some (pack_query q).
Proof.
  destruct q as [[k [ip port] sq] l].
  intros ([[b Hb] Hport] & Hsq & Hk) Hl. cbn in Hb, Hport, Hsq, Hk, Hl.
  unfold pack_query, pack_query_header.
  cbn [content key address sequence ttl]. rewrite Hb.
  apply StructFacts.pack_H_range in Hl as [bl ->], Hport as [bp ->].
  apply StructFacts.pack_I_range in Hsq as [bs ->].
  destruct (encodable_key_data k Hk) as [d ->].
  eexists; reflexivity.
Qed.

(** The header of a packed query shows its type, ttl and sequence. *)
Lemma pack_query_inv (q : Query) (w : bytes) :
  pack_query q = Some w ->
  extract_message_type w = Some QUERY /\
  wire_ttl w = Some (ttl q) /\ 0 <= ttl q < 2 ^ 16 /\
  wire_sequence w = Some (sequence (content q)) /\
  0 <= sequence (content q) < 2 ^ 32.
Proof.
  unfold pack_query. destruct q as [[k [ip port] sq] l].
  cbn [content key address sequence ttl].
  destruct (inet_aton ip) as [b|]; [|discriminate]. cbn [mbind option_bind].
  destruct (pack_query_header _ _ _ _ _) as [h|] eqn:Hh; [|discriminate].
  destruct (Utf8.encode _) as [d|]; [|discriminate].
  cbn [mbind option_bind]. intros [= <-].
  pose proof (unpack_pack_query_header _ _ _ _ _ _ Hh) as [Hlen Hu].
  unfold wire_ttl, wire_sequence.
  rewrite take_app_length' by (symmetry; exact Hlen). rewrite Hu.
  apply unpack_query_header_inv in Hu as (_ & _ & _ & ? & _ & ?).
  repeat split; try lia.
  unfold pack_query_header in Hh.
  destruct (Struct.pack_H l); [|discriminate].
  destruct (Struct.pack_H port); [|discriminate].
  destruct (Struct.pack_I sq); [|discriminate].
  injection Hh as <-. reflexivity.
Qed.

Lemma unpack_query_header_is_Some (b : bytes) :
  length b = QUERY_HEADER_SIZE -> is_Some (unpack_query_header b).
Proof.
  intros Hb.
  destruct b as [|t1 [|t0 [|l1 [|l0 [|i0 [|i1 [|i2 [|i3 [|p1 [|p0
                [|s3 [|s2 [|s1 [|s0 [|]]]]]]]]]]]]]]]; try discriminate.
  eexists; reflexivity.
Qed.

(** The type in the header is the one [extract_message_type] reads. *)
Lemma unpack_query_header_type (d : bytes) (t l : Z) (ip : bytes) (p sq : Z) :
  unpack_query_header (take QUERY_HEADER_SIZE d) = Some (t, l, ip, p, sq) ->
  extract_message_type d = MessageType_of_value t.
Proof.
  destruct d as [|t1 [|t0 [|l1 [|l0 [|i0 [|i1 [|i2 [|i3 [|p1 [|p0
                [|s3 [|s2 [|s1 [|s0 d]]]]]]]]]]]]]]; try discriminate.
  cbn [take QUERY_HEADER_SIZE MESSAGE_TYPE_SIZE Nat.add unpack_query_header].
  unfold extract_message_type, unpack_type.
  cbn [take MESSAGE_TYPE_SIZE]. destruct (Struct.unpack_H [t1; t0]) as [t'|]; [|discriminate].
  destruct (Struct.unpack_H [l1; l0]); [|discriminate].
  destruct (Struct.unpack_H [p1; p0]); [|discriminate].
  destruct (Struct.unpack_I _); [|discriminate].
  intros [= <- <- <- <- <-]. reflexivity.
Qed.

(** A QUERY the socket delivers is unpacked whenever its header is whole
    and its key is UTF-8; the query then fits the wire again. *)
Lemma unpack_query_is_Some (d : bytes) :
  extract_message_type d = Some QUERY ->
  (QUERY_HEADER_SIZE <= length d)%nat ->
  is_Some (Utf8.decode (drop QUERY_HEADER_SIZE d)) ->
  exists q, unpack_query d = Some (q, []).
Proof.
  intros Ht Hlen [text Htext].
  destruct (unpack_query_header_is_Some (take QUERY_HEADER_SIZE d))
    as [[[[[t l] ip] p] sq] Hh].
  { rewrite length_take. change QUERY_HEADER_SIZE with 14%nat in *. lia. }
  pose proof (unpack_query_header_type _ _ _ _ _ _ Hh) as Htype.
  rewrite Ht in Htype.
  pose proof (unpack_query_header_inv _ _ _ _ _ _ Hh) as (_ & Hip & _).
  destruct Hlaw as [_ Hl]. destruct (Hl ip Hip) as (ip' & Hn & _).
  unfold unpack_query. rewrite Hh, Htext. run_M.
  rewrite Hn, <- Htype. run_M. eexists; reflexivity.
Qed.

Lemma unpack_query_inv (d : bytes) (q : Query) (t : list effect) :
  unpack_query d = Some (q, t) ->
  (QUERY_HEADER_SIZE <= length d)%nat /\
  is_Some (Utf8.decode (drop QUERY_HEADER_SIZE d)) /\
  (exists mt, extract_message_type d = Some mt /\
              t = if MessageType_eqb mt QUERY then []
                  else [log_invalid_message QUERY mt]) /\
  fits_wire (content q) /\ -1 <= ttl q < 2 ^ 16 - 1 /\
  wire_ttl d = Some (ttl q + 1) /\
  wire_sequence d = Some (sequence (content q)).
Proof.
  unfold unpack_query, wire_ttl, wire_sequence.
  destruct (unpack_query_header _) as [[[[[mt l] ip] p] sq]|] eqn:Hh;
    [|discriminate].
  pose proof (unpack_query_header_type _ _ _ _ _ _ Hh) as Htype.
  pose proof (unpack_query_header_inv _ _ _ _ _ _ Hh)
    as (Hlen & Hip & _ & Hl & Hp & Hsq).
  destruct (Utf8.decode _) as [text|] eqn:Htext; [|discriminate].
  run_M.
  destruct (inet_ntoa ip) as [ip'|] eqn:Hn; [|discriminate]. run_M.
  destruct (MessageType_of_value mt) as [actual|]; [|discriminate].
  intros Hq.
  assert (Hq' : q = {| content := {| key := rstrip 0 text;
                                     address := (ip', p);
                                     sequence := sq |};
                       ttl := l - 1 |} /\
                t = if MessageType_eqb actual QUERY then []
                    else [log_invalid_message QUERY actual]).
  { destruct actual; cbn in Hq; injection Hq as <- <-; split; reflexivity. }
  destruct Hq' as [-> ->]. clear Hq.
  rewrite length_take in Hlen. change QUERY_HEADER_SIZE with 14%nat in *.
  split; [lia|]. split; [eexists; reflexivity|].
  split; [exists actual; split; [exact Htype | reflexivity]|].
  split.
  { split; [split|split]; cbn.
    - rewrite (inet_ntoa_aton _ _ Hip Hn). eexists; reflexivity.
    - exact Hp.
    - exact Hsq.
    - apply rstrip_encodable. eapply Utf8Facts.decode_encodable, Htext. }
  cbn. repeat split; try lia. f_equal. lia.
Qed.

End Query.

End CodecFacts.

(** ** The loop of servent.py *)

Module LoopFacts.
Import Utils Servent CodecFacts.

Lemma sent_app (t t' : list effect) : sent (t ++ t') = sent t ++ sent t'.
Proof. unfold sent. apply flat_map_app. Qed.

Section Facts.
Context `{SocketLib} (Hlaw : inet_lawful).
Variable database : gmap str str.
Variable neighbor_addresses : list ip_port.

(** The neighbours a query goes to: all but the one it came from. *)
Lemma sent_forward (w : bytes) (o : ip_port) :
  sent (forward neighbor_addresses w o)
  = map (fun n => (w, n)) (filter (fun n => n <> o) neighbor_addresses).
Proof.
  unfold forward. induction neighbor_addresses as [|n l IH]; [reflexivity|].
  cbn [flat_map]. rewrite sent_app, IH, filter_cons.
  destruct (decide (n <> o)); reflexivity.
Qed.

Lemma handle_query_seen (st : state) (q : Query) (o : ip_port) :
  content q ∈ queries_seen st ->
  handle_query database neighbor_addresses st q o
  = Some (st, [log_already_seen q]).
Proof.
  intros Hq. unfold handle_query.
  destruct (decide (content q ∈ queries_seen st)); [reflexivity|contradiction].
Qed.

(** The trace of a query that is not a duplicate: the forwarding pass,
    if the ttl and the neighbour list allow one, then the answer, if the
    database has the key. *)
Lemma handle_query_fresh (st : state) (q : Query) (o : ip_port) :
  content q ∉ queries_seen st ->
  fits_wire (content q) -> ttl q < 2 ^ 16 -> database_text database ->
  (0 < ttl q -> neighbor_addresses <> [] -> is_Some (pack_query q)) /\
  (forall value, database !! key (content q) = Some value ->
                 is_Some (pack_response (key (content q)) value)) /\
  handle_query database neighbor_addresses st q o
  = Some ({| query_creator := query_creator st;
             queries_seen := {[content q]} ∪ queries_seen st |},
          (if (0 <? ttl q) && nonempty neighbor_addresses
           then forward neighbor_addresses (default [] (pack_query q)) o
           else []) ++
          match database !! key (content q) with
          | Some value =>
              [log_sending_response (address (content q));
               sendto (default [] (pack_response (key (content q)) value))
                      (address (content q))]
          | None => []
          end).
Proof.
  intros Hq Hfit Httl Hdb.
  assert (Hpack : 0 < ttl q -> is_Some (pack_query q)).
  { intros Hpos. apply (pack_query_is_Some q Hfit). lia. }
  assert (Hresp : forall value, database !! key (content q) = Some value ->
                    is_Some (pack_response (key (content q)) value)).
  { intros value Hv. apply pack_response_is_Some.
    - apply Hfit.
    - exact (Hdb _ _ Hv). }
  split; [auto|]. split; [exact Hresp|].
  unfold handle_query.
  destruct (decide (content q ∈ queries_seen st)); [contradiction|].
  destruct ((0 <? ttl q) && nonempty neighbor_addresses) eqn:Hfw.
  - apply andb_true_iff in Hfw as [Hpos _].
    destruct (Hpack ltac:(lia)) as [w Hw]. rewrite Hw.
    destruct (database !! key (content q)) as [value|] eqn:Hv.
    + destruct (Hresp value eq_refl) as [r Hr]. rewrite Hr.
      cbn. rewrite ?app_nil_r. reflexivity.
    + cbn. rewrite ?app_nil_r. reflexivity.
  - destruct (database !! key (content q)) as [value|] eqn:Hv.
    + destruct (Hresp value eq_refl) as [r Hr]. rewrite Hr. reflexivity.
    + reflexivity.
Qed.

Lemma iteration_response (st : state) (d : bytes) (o : ip_port) :
  extract_message_type (recvfrom MAX_SERVER_MESSAGE_SIZE d) = Some RESPONSE ->
  iteration database neighbor_addresses st d o
  = Some (st, [log_received_response o]).
Proof. intros Ht. unfold iteration. rewrite Ht. reflexivity. Qed.

Lemma iteration_query (st : state) (d : bytes) (o : ip_port) (q : Query) :
  unpack_query (recvfrom MAX_SERVER_MESSAGE_SIZE d) = Some (q, []) ->
  iteration database neighbor_addresses st d o
  = match handle_query database neighbor_addresses st q o with
    | Some (st', t) => Some (st', log_received_query q :: t)
    | None => None
    end.
Proof.
  intros Hq. unfold iteration.
  destruct (unpack_query_inv Hlaw _ _ _ Hq) as (_ & _ & (mt & Hmt & Ht) & _).
  rewrite Hmt. destruct mt; try discriminate.
  cbv zeta. rewrite Hq. cbn [lift bind ret tell app].
  destruct (handle_query _ _ _ _ _) as [[st' t]|]; reflexivity.
Qed.

Lemma iteration_clireq (st : state) (d : bytes) (o : ip_port) (text : str) :
  extract_message_type (recvfrom MAX_SERVER_MESSAGE_SIZE d) = Some CLIREQ ->
  Utf8.decode (drop MESSAGE_TYPE_SIZE (recvfrom MAX_SERVER_MESSAGE_SIZE d))
  = Some text ->
  iteration database neighbor_addresses st d o
  = let made := new_query (query_creator st) (rstrip 0 text) o in
    match handle_query database neighbor_addresses
            {| query_creator := made.2; queries_seen := queries_seen st |}
            made.1 o with
    | Some (st', t) => Some (st', log_received_clireq made.1 :: t)
    | None => None
    end.
Proof.
  intros Ht Htext. unfold iteration, unpack_clireq. cbv zeta.
  rewrite Ht. cbn [lift bind ret tell app MessageType_eqb negb MessageType_value Z.eqb Pos.eqb].
  rewrite Htext. cbn [lift bind ret tell app new_query fst snd].
  destruct (handle_query _ _ _ _ _) as [[st' t]|]; reflexivity.
Qed.

Lemma queries_sent_app (t t' : list effect) :
  queries_sent (t ++ t') = queries_sent t ++ queries_sent t'.
Proof. unfold queries_sent. rewrite sent_app. apply filter_app. Qed.

Lemma responses_sent_app (t t' : list effect) :
  responses_sent (t ++ t') = responses_sent t ++ responses_sent t'.
Proof. unfold responses_sent. rewrite sent_app. apply filter_app. Qed.

Lemma filter_tagged (mt mt' : MessageType) (w : bytes) (l : list ip_port) :
  extract_message_type w = Some mt ->
  filter (fun da : bytes * ip_port => extract_message_type da.1 = Some mt')
         (map (fun n => (w, n)) l)
  = if decide (mt = mt') then map (fun n => (w, n)) l else [].
Proof.
  intros Hw. induction l as [|n l IH]; cbn [map].
  - destruct (decide (mt = mt')); reflexivity.
  - rewrite filter_cons, IH. cbn [fst]. rewrite Hw.
    destruct (decide (mt = mt')) as [Heq|Hne];
      destruct (decide (Some mt = Some mt')) as [Heq'|Hne'];
      congruence.
Qed.

Lemma sent_by_kind_forward (w : bytes) (o : ip_port) :
  extract_message_type w = Some QUERY ->
  queries_sent (forward neighbor_addresses w o)
  = map (fun n => (w, n)) (filter (fun n => n <> o) neighbor_addresses) /\
  responses_sent (forward neighbor_addresses w o) = [].
Proof.
  intros Hw. unfold queries_sent, responses_sent.
  rewrite sent_forward, !(filter_tagged QUERY) by exact Hw.
  destruct (decide (QUERY = QUERY)); [|congruence].
  destruct (decide (QUERY = RESPONSE)); [discriminate|].
  split; reflexivity.
Qed.

Lemma sent_by_kind_answer (r : bytes) (a : ip_port) :
  extract_message_type r = Some RESPONSE ->
  queries_sent [log_sending_response a; sendto r a] = [] /\
  responses_sent [log_sending_response a; sendto r a] = [(r, a)].
Proof.
  intros Hr. unfold queries_sent, responses_sent.
  cbn [sent flat_map app]. rewrite !filter_cons, !filter_nil.
  cbn [fst]. rewrite Hr.
  destruct (decide (Some RESPONSE = Some QUERY)); [discriminate|].
  destruct (decide (Some RESPONSE = Some RESPONSE)); [|congruence].
  split; reflexivity.
Qed.

(** What an iteration does with a query that is not a duplicate: it
    records the content, sends the packed query to every neighbour but
    the sender when the ttl is positive, and then the response to the
    address of the content when the database has the key. *)
Lemma handle_query_outcome (st : state) (q : Query) (o : ip_port) :
  content q ∉ queries_seen st ->
  fits_wire (content q) -> ttl q < 2 ^ 16 -> database_text database ->
  exists t,
    handle_query database neighbor_addresses st q o
    = Some ({| query_creator := query_creator st;
               queries_seen := {[content q]} ∪ queries_seen st |}, t) /\
    queries_sent t
    = (if (0 <? ttl q) && nonempty neighbor_addresses
       then map (fun n => (default [] (pack_query q), n))
              (filter (fun n => n <> o) neighbor_addresses)
       else []) /\
    responses_sent t
    = match database !! key (content q) with
      | Some value =>
          [(default [] (pack_response (key (content q)) value),
            address (content q))]
      | None => []
      end /\
    sent t = queries_sent t ++ responses_sent t.
Proof.
  intros Hq Hfit Httl Hdb.
  destruct (handle_query_fresh st q o Hq Hfit Httl Hdb) as (Hpack & Hresp & ->).
  eexists. split; [reflexivity|].
  rewrite queries_sent_app, responses_sent_app, sent_app.
  assert (Hf : exists fw,
    (if (0 <? ttl q) && nonempty neighbor_addresses
     then forward neighbor_addresses (default [] (pack_query q)) o
     else []) = fw /\
    queries_sent fw
    = (if (0 <? ttl q) && nonempty neighbor_addresses
       then map (fun n => (default [] (pack_query q), n))
              (filter (fun n => n <> o) neighbor_addresses)
       else []) /\
    responses_sent fw = [] /\ sent fw = queries_sent fw).
  { eexists. split; [reflexivity|].
    destruct ((0 <? ttl q) && nonempty neighbor_addresses) eqn:Hfw.
    - apply andb_true_iff in Hfw as [Hpos Hne].
      destruct (Hpack ltac:(lia)) as [w Hw].
      { destruct neighbor_addresses; [discriminate | congruence]. }
      rewrite Hw. cbn [default from_option]. unfold id.
      destruct (pack_query_inv _ _ Hw) as (Htag & _).
      destruct (sent_by_kind_forward w o Htag) as [Hfq Hfr].
      rewrite Hfq, Hfr. repeat split. apply sent_forward.
    - repeat split. }
  destruct Hf as (fw & -> & Hfq & Hfr & Hfs).
  assert (Ha : exists an,
    match database !! key (content q) with
    | Some value =>
        [log_sending_response (address (content q));
         sendto (default [] (pack_response (key (content q)) value))
                (address (content q))]
    | None => []
    end = an /\
    queries_sent an = [] /\
    responses_sent an
    = match database !! key (content q) with
      | Some value =>
          [(default [] (pack_response (key (content q)) value),
            address (content q))]
      | None => []
      end /\
    sent an = responses_sent an).
  { eexists. split; [reflexivity|].
    destruct (database !! key (content q)) as [value|] eqn:Hv.
    - destruct (Hresp value eq_refl) as [r Hr]. rewrite Hr.
      cbn [default from_option]. unfold id.
      pose proof (extract_message_type_response _ _ _ Hr) as Htag.
      destruct (sent_by_kind_answer r (address (content q)) Htag)
        as [Haq Har].
      rewrite Haq, Har. repeat split.
    - repeat split. }
  destruct Ha as (an & -> & Haq & Har & Has).
  rewrite Hfq, Hfr, Haq, Har, Hfs, Has, Hfq, Har, !app_nil_r.
  repeat split.
Qed.

(** The content of the query made of a CLIREQ fits the wire. *)
Lemma clireq_content_fits (st : state) (o : ip_port) (bs : bytes)
    (text : str) :
  socket_address o -> creator_ok st -> Utf8.decode bs = Some text ->
  fits_wire {| key := rstrip 0 text; address := o;
               sequence := _next_sequence (query_creator st) |}.
Proof.
  intros Ho [_ Hsq] Htext. split; [exact Ho|]. split; [exact Hsq|].
  cbn. apply rstrip_encodable. eapply Utf8Facts.decode_encodable, Htext.
Qed.

End Facts.

End LoopFacts.

(** * The claims *)

Module Claims.
Import Utils Servent CodecFacts LoopFacts.

(** Closes an equation between closed terms by running both sides. *)
Ltac run_both_sides :=
  match goal with
  | |- ?l = ?r => vm_cast_no_check (@eq_refl _ r)
  end.

Lemma plain_inv (n : nat) (s : str) :
  plain n s = true ->
  take n s = s /\ (0 ∉ s) /\ (9 ∉ s) /\ Utf8.encodable s = true.
Proof.
  unfold plain. intros Hs. apply andb_true_iff in Hs as [Hlen Hs].
  apply bool_decide_eq_true in Hlen.
  split; [apply take_ge; exact Hlen|]. clear Hlen.
  induction s as [|c s IH]; cbn in Hs.
  - repeat split; try apply not_elem_of_nil.
  - apply andb_true_iff in Hs as [Hc Hs]. destruct (IH Hs) as (H0 & H9 & He).
    apply andb_true_iff in Hc as [Hc Hsc].
    apply andb_true_iff in Hc as [Hc0 Hc9].
    repeat split.
    + apply not_elem_of_cons. split; [lia | exact H0].
    + apply not_elem_of_cons. split; [lia | exact H9].
    + cbn. rewrite Hsc. exact He.
Qed.

(** The text of a response has one reading as a key and a value. *)
Lemma tab_separated_inj (k k' v v' : str) :
  9 ∉ k -> 9 ∉ k' -> k ++ 9 :: v = k' ++ 9 :: v' -> k = k' /\ v = v'.
Proof.
  revert k'. induction k as [|c k IH]; intros [|c' k'] Hk Hk' Heq;
    cbn in Heq.
  - injection Heq as <-. split; reflexivity.
  - injection Heq as <- _. exfalso. apply Hk'. left.
  - injection Heq as -> _. exfalso. apply Hk. left.
  - injection Heq as <- Heq.
    apply not_elem_of_cons in Hk as [_ Hk], Hk' as [_ Hk'].
    destruct (IH k' Hk Hk' Heq) as [-> ->]. split; reflexivity.
Qed.

(** C1, as the code has it: for a key of at most 40 characters and a
    value of at most 160, both text without NUL and tab, unpacking a packed
    CLIREQ gives the key back, unpacking a packed RESPONSE gives the text
    key, tab, value, which no other such pair has, and unpacking a packed
    QUERY whose fields fit the wire and whose address is in the notation of
    [inet_ntoa] gives the content back with the ttl one less. *)
Theorem roundtrip_messages `{SocketLib} (Hlaw : inet_lawful) :
  (forall k, plain MAX_KEY_SIZE k = true ->
     exists w, pack_clireq k = Some w /\ unpack_clireq w = Some (k, [])) /\
  (forall k v, plain MAX_KEY_SIZE k = true -> plain MAX_VALUE_SIZE v = true ->
     exists w, pack_response k v = Some w /\
               unpack_response w = Some (k ++ 9 :: v, []) /\
               forall k' v', plain MAX_KEY_SIZE k' = true ->
                             k' ++ 9 :: v' = k ++ 9 :: v ->
                             k' = k /\ v' = v) /\
  (forall q, plain MAX_KEY_SIZE (key (content q)) = true ->
             fits_wire (content q) ->
             canonical_ip (address (content q)).1 ->
             0 <= ttl q < 2 ^ 16 ->
     exists w, pack_query q = Some w /\
               unpack_query w
               = Some ({| content := content q; ttl := ttl q - 1 |}, [])).
Proof.
  split; [|split].
  - intros k Hk. apply plain_inv in Hk as (Htake & H0 & _ & He).
    destruct (pack_clireq_is_Some k He) as [w Hw]. exists w.
    split; [exact Hw|].
    rewrite (unpack_pack_clireq _ _ Hw), Htake, rstrip_id by exact H0.
    reflexivity.
  - intros k v Hk Hv.
    apply plain_inv in Hk as (Hktake & Hk0 & Hk9 & Hke).
    apply plain_inv in Hv as (Hvtake & Hv0 & _ & Hve).
    destruct (pack_response_is_Some k v Hke Hve) as [w Hw]. exists w.
    split; [exact Hw|]. split.
    + rewrite (unpack_pack_response _ _ _ Hw), Hktake, Hvtake.
      rewrite rstrip_id; [reflexivity|].
      rewrite elem_of_app, elem_of_cons. intros [Hin|[Hin|Hin]];
        [contradiction | discriminate | contradiction].
    + intros k' v' Hk' Heq. apply plain_inv in Hk' as (_ & _ & Hk'9 & _).
      exact (tab_separated_inj _ _ _ _ Hk'9 Hk9 Heq).
  - intros q Hk Hfit (b & Hb & Hip) Httl.
    apply plain_inv in Hk as (Htake & H0 & _ & _).
    destruct (pack_query_is_Some q Hfit Httl) as [w Hw]. exists w.
    split; [exact Hw|].
    destruct (unpack_pack_query Hlaw _ _ Hw) as (b' & ip' & Hb' & Hip' & ->).
    rewrite Htake, rstrip_id by exact H0.
    assert (b' = b) as -> by congruence.
    assert (ip' = (address (content q)).1) as -> by congruence.
    destruct q as [[k [ip port] sq] l]. reflexivity.
Qed.

(** The round trip of the three messages of the scenario. *)
Lemma roundtrip_messages_witness :
  unpack_clireq (default [] (pack_clireq Scenario.baz))
  = Some (Scenario.baz, []) /\
  unpack_response (default [] (pack_response Scenario.baz Scenario.qux))
  = Some (Scenario.baz ++ 9 :: Scenario.qux, []) /\
  @unpack_query dotted_quad
    (default [] (@pack_query dotted_quad Scenario.first_query))
  = Some ({| content := content Scenario.first_query; ttl := 2 |}, []).
Proof.
  destruct (@roundtrip_messages dotted_quad dotted_quad_lawful)
    as (Hc & Hr & Hq).
  split; [|split].
  - destruct (Hc Scenario.baz eq_refl) as (w & -> & Hw). exact Hw.
  - destruct (Hr Scenario.baz Scenario.qux eq_refl eq_refl)
      as (w & -> & Hw & _).
    exact Hw.
  - destruct (Hq Scenario.first_query eq_refl) as (w & -> & Hw).
    + split; [split|split]; [eexists; reflexivity | cbn; lia | cbn; lia
                              | reflexivity].
    + eexists. split; reflexivity.
    + cbn. lia.
    + exact Hw.
Defined.

(** C1 as stated fails for the QUERY: the query of the scenario, a key
    of three letters and ttl 3, comes back from the wire with ttl 2. *)
Lemma roundtrip_query_counterexample :
  plain MAX_KEY_SIZE (key (content Scenario.first_query)) = true /\
  @pack_query dotted_quad Scenario.first_query
  = Some Scenario.packed_first_query /\
  @unpack_query dotted_quad Scenario.packed_first_query
  = Some (Scenario.relayed_query, []) /\
  Scenario.relayed_query <> Scenario.first_query.
Proof.
  split; [reflexivity|]. split; [reflexivity|]. split; [reflexivity|].
  discriminate.
Qed.

(** The [i]-th call of [new_query] stamps the [i]-th number after the
    one the creator started with. *)
Lemma new_queries_lookup (self : QueryCreator)
    (calls : list (str * ip_port)) (i : nat) :
  new_queries self calls !! i
  = (fun ka : str * ip_port =>
       {| content := {| key := ka.1; address := ka.2;
                        sequence := _next_sequence self + Z.of_nat i |};
          ttl := _initial_ttl self |}) <$> calls !! i.
Proof.
  revert self i. induction calls as [|[k a] calls IH]; intros self i.
  - reflexivity.
  - destruct i as [|i]; cbn [new_queries new_query].
    + cbn. rewrite Z.add_0_r. reflexivity.
    + cbn [lookup list_lookup]. rewrite IH. cbn [_next_sequence _initial_ttl].
      destruct (calls !! i); [|reflexivity]. cbn. do 3 f_equal. lia.
Qed.

Lemma wire_sequence_field `{SocketLib} (w : bytes) (sq : Z) :
  wire_sequence w = Some sq ->
  Struct.unpack_I (take 4 (drop 10 w)) = Some sq.
Proof.
  unfold wire_sequence.
  destruct w as [|t1 [|t0 [|l1 [|l0 [|i0 [|i1 [|i2 [|i3 [|p1 [|p0
                [|s3 [|s2 [|s1 [|s0 w]]]]]]]]]]]]]]; try discriminate.
  cbn [take drop QUERY_HEADER_SIZE MESSAGE_TYPE_SIZE Nat.add
       unpack_query_header].
  destruct (Struct.unpack_H [t1; t0]); [|discriminate].
  destruct (Struct.unpack_H [l1; l0]); [|discriminate].
  destruct (Struct.unpack_H [p1; p0]); [|discriminate].
  destruct (Struct.unpack_I _) as [sq'|]; [|discriminate].
  intros [= <-]. reflexivity.
Qed.

(** C9, as the code has it: the sequence is a 32-bit quantity on the
    wire.  The creator stamps its starting number plus the count of the
    calls before, without a bound; [pack_query] packs a sequence below
    2^32, into the four bytes at offset 10 of the header, and refuses any
    other. *)
Theorem sequence_32_bit `{SocketLib} :
  (forall self calls i q,
     new_queries self calls !! i = Some q ->
     sequence (content q) = _next_sequence self + Z.of_nat i) /\
  (forall q w,
     pack_query q = Some w ->
     0 <= sequence (content q) < 2 ^ 32 /\
     wire_sequence w = Some (sequence (content q)) /\
     Struct.unpack_I (take 4 (drop 10 w)) = Some (sequence (content q))) /\
  (forall q, 2 ^ 32 <= sequence (content q) -> pack_query q = None).
Proof.
  split; [|split].
  - intros self calls i q. rewrite new_queries_lookup.
    destruct (calls !! i); [|discriminate]. intros [= <-]. reflexivity.
  - intros q w Hw.
    destruct (pack_query_inv _ _ Hw) as (_ & _ & _ & Hsq & Hrange).
    split; [exact Hrange|]. split; [exact Hsq|].
    apply wire_sequence_field, Hsq.
  - intros q Hsq. destruct (pack_query q) as [w|] eqn:Hw; [|reflexivity].
    destruct (pack_query_inv _ _ Hw) as (_ & _ & _ & _ & Hrange). lia.
Qed.

Lemma sequence_32_bit_witness :
  (forall q,
     new_queries QueryCreator_init
       [(Scenario.baz, Scenario.client_address);
        (Scenario.baz, Scenario.client_address)] !! 1%nat = Some q ->
     sequence (content q) = 1) /\
  (exists w, @pack_query dotted_quad Scenario.late_query = Some w /\
             wire_sequence w = Some (2 ^ 16)) /\
  @pack_query dotted_quad
    {| content := {| key := Scenario.baz;
                     address := Scenario.client_address;
                     sequence := 2 ^ 32 |};
       ttl := 3 |} = None.
Proof.
  destruct (@sequence_32_bit dotted_quad) as (Hstamp & Hpack & Hnone).
  split; [|split].
  - intros q Hq. exact (Hstamp _ _ _ _ Hq).
  - eexists. split; [reflexivity|].
    apply (Hpack Scenario.late_query). reflexivity.
  - apply Hnone. cbn. lia.
Defined.

(** C9 as stated fails: servent A passes on to B a query stamped 2^16,
    and the sequence travels in a field of four bytes. *)
Lemma sequence_16_bit_counterexample :
  @pack_query dotted_quad Scenario.late_query
  = Some Scenario.packed_late_query /\
  @iteration dotted_quad Scenario.A_database Scenario.A_neighbors
    initial Scenario.packed_late_query Scenario.C_address
  = Some ({| query_creator := QueryCreator_init;
             queries_seen := {[content Scenario.late_query]} ∪ ∅ |},
          [log_received_query Scenario.late_relayed_query;
           log_forwarding Scenario.B_address;
           sendto Scenario.packed_late_relayed_query Scenario.B_address]) /\
  wire_sequence Scenario.packed_late_relayed_query = Some (2 ^ 16) /\
  drop 10 (take QUERY_HEADER_SIZE Scenario.packed_late_relayed_query)
  = [Byte.x00; Byte.x01; Byte.x00; Byte.x00] /\
  ~ 2 ^ 16 < 2 ^ 16.
Proof.
  repeat split; try run_both_sides. lia.
Qed.

(** C4: for a query with a ttl in the 16 bits of the field, whatever
    [pack_query] returns unpacks, without an error logged, to a query with
    the ttl less one; and [pack_query] does return when the other fields
    fit the wire. *)
Theorem unpack_query_consumes_hop `{SocketLib} (Hlaw : inet_lawful)
    (q : Query) :
  0 <= ttl q < 2 ^ 16 ->
  (fits_wire (content q) -> is_Some (pack_query q)) /\
  (forall w, pack_query q = Some w ->
     exists q', unpack_query w = Some (q', []) /\ ttl q' = ttl q - 1).
Proof.
  intros Httl. split.
  - intros Hfit. exact (pack_query_is_Some q Hfit Httl).
  - intros w Hw.
    destruct (unpack_pack_query Hlaw _ _ Hw) as (b & ip' & _ & _ & Hu).
    eexists. split; [exact Hu|]. reflexivity.
Qed.

Lemma unpack_query_consumes_hop_witness :
  exists w q', @pack_query dotted_quad Scenario.first_query = Some w /\
               @unpack_query dotted_quad w = Some (q', []) /\
               ttl q' = 3 - 1.
Proof.
  destruct (@unpack_query_consumes_hop dotted_quad dotted_quad_lawful
              Scenario.first_query ltac:(cbn; lia)) as [Hpack Hunpack].
  destruct Hpack as [w Hw].
  - split; [split|split];
      [eexists; reflexivity | cbn; lia | cbn; lia | reflexivity].
  - destruct (Hunpack w Hw) as (q' & Hq' & Httl).
    exists w, q'. split; [exact Hw|]. split; [exact Hq' | exact Httl].
Defined.

Section Engine.
Context `{SocketLib} (Hlaw : inet_lawful).
Variable database : gmap str str.
Variable neighbor_addresses : list ip_port.

Lemma nonempty_true {A} (l : list A) : l <> [] -> nonempty l = true.
Proof. destruct l; [congruence | reflexivity]. Qed.

(** C2, as the code has it: a servent with neighbours that accepts a
    CLIREQ sends each neighbour but the client the query packed with the
    initial ttl 3 in the ttl field; the neighbour that unpacks it reads
    ttl 2. *)
Theorem clireq_forwarded_with_initial_ttl (st : state) (datagram : bytes)
    (message_origin : ip_port) (text : str) :
  let message_data := recvfrom MAX_SERVER_MESSAGE_SIZE datagram in
  let query :=
    {| content := {| key := rstrip 0 text; address := message_origin;
                     sequence := _next_sequence (query_creator st) |};
       ttl := 3 |} in
  database_text database -> socket_address message_origin ->
  creator_ok st -> neighbor_addresses <> [] ->
  extract_message_type message_data = Some CLIREQ ->
  Utf8.decode (drop MESSAGE_TYPE_SIZE message_data) = Some text ->
  content query ∉ queries_seen st ->
  exists st' t w q',
    iteration database neighbor_addresses st datagram message_origin
    = Some (st', t) /\
    pack_query query = Some w /\
    queries_sent t
    = map (fun n => (w, n))
        (filter (fun n => n <> message_origin) neighbor_addresses) /\
    wire_ttl w = Some 3 /\
    unpack_query w = Some (q', []) /\ ttl q' = 2.
Proof.
  intros message_data query Hdb Ho Hst Hne Htype Htext Hfresh.
  pose proof (clireq_content_fits st message_origin _ text Ho Hst Htext)
    as Hfit.
  destruct Hst as [Httl Hsq].
  rewrite (iteration_clireq _ _ st datagram message_origin text Htype Htext).
  cbn [new_query fst snd]. rewrite Httl. fold query.
  destruct (handle_query_outcome database neighbor_addresses
              {| query_creator :=
                   {| _next_sequence := _next_sequence (query_creator st) + 1;
                      _initial_ttl := 3 |};
                 queries_seen := queries_seen st |}
              query message_origin Hfresh Hfit ltac:(cbn; lia) Hdb)
    as (t & -> & Hqs & _ & _).
  destruct (pack_query_is_Some query Hfit ltac:(cbn; lia)) as [w Hw].
  destruct (unpack_pack_query Hlaw _ _ Hw) as (b & ip' & _ & _ & Hu).
  destruct (pack_query_inv _ _ Hw) as (_ & Hwttl & _).
  rewrite Hw in Hqs. cbn [default from_option ttl] in Hqs. unfold id in Hqs.
  rewrite (nonempty_true _ Hne) in Hqs. cbn in Hqs.
  do 4 eexists. split; [reflexivity|]. split; [exact Hw|].
  split; [exact Hqs|]. split; [exact Hwttl|]. split; [exact Hu|]. reflexivity.
Qed.

End Engine.

(** The scenario: A sends B the query with 3 in the ttl field, and B
    reads ttl 2. *)
Lemma clireq_forwarded_with_initial_ttl_witness :
  exists st' t w q',
    @iteration dotted_quad Scenario.A_database Scenario.A_neighbors initial
      Scenario.clireq_baz Scenario.client_address
    = Some (st', t) /\
    @pack_query dotted_quad Scenario.first_query = Some w /\
    queries_sent t = [(w, Scenario.B_address)] /\
    wire_ttl w = Some 3 /\
    @unpack_query dotted_quad w = Some (q', []) /\ ttl q' = 2.
Proof.
  apply (@clireq_forwarded_with_initial_ttl dotted_quad dotted_quad_lawful
           Scenario.A_database Scenario.A_neighbors initial
           Scenario.clireq_baz Scenario.client_address
           (Scenario.baz ++ [0])).
  - intros k v Hkv. unfold Scenario.A_database in Hkv.
    apply lookup_singleton_Some in Hkv as [_ <-]. reflexivity.
  - split; [eexists; reflexivity | cbn; lia].
  - split; [reflexivity | cbn; lia].
  - discriminate.
  - reflexivity.
  - reflexivity.
  - apply not_elem_of_empty.
Defined.

(** C2 as stated fails: the ttl field of the query A sends to B in the
    scenario, the third and fourth byte, holds 3, not 2. *)
Lemma clireq_forward_ttl_counterexample :
  pack_clireq Scenario.baz = Some Scenario.clireq_baz /\
  @iteration dotted_quad Scenario.A_database Scenario.A_neighbors initial
    Scenario.clireq_baz Scenario.client_address
  = Some ({| query_creator := {| _next_sequence := 1; _initial_ttl := 3 |};
             queries_seen := {[content Scenario.first_query]} ∪ ∅ |},
          [log_received_clireq Scenario.first_query;
           log_forwarding Scenario.B_address;
           sendto Scenario.packed_first_query Scenario.B_address]) /\
  wire_ttl Scenario.packed_first_query = Some 3 /\
  wire_ttl Scenario.packed_first_query <> Some 2.
Proof.
  split; [run_both_sides|]. split; [run_both_sides|].
  split; [run_both_sides|].
  assert (Hw : wire_ttl Scenario.packed_first_query = Some 3)
    by run_both_sides.
  rewrite Hw. discriminate.
Qed.

Lemma initial_creator_ok : creator_ok initial.
Proof. split; [reflexivity | cbn; lia]. Qed.

Lemma client_socket_address : @socket_address dotted_quad Scenario.client_address.
Proof. split; [eexists; reflexivity | cbn; lia]. Qed.

Lemma A_database_text : @database_text Scenario.A_database.
Proof.
  intros k v Hkv. unfold Scenario.A_database in Hkv.
  apply lookup_singleton_Some in Hkv as [_ <-]. reflexivity.
Qed.

Lemma B_database_text : @database_text Scenario.B_database.
Proof.
  intros k v Hkv. unfold Scenario.B_database in Hkv.
  apply lookup_singleton_Some in Hkv as [_ <-]. reflexivity.
Qed.

Lemma first_query_fits : @fits_wire dotted_quad (content Scenario.first_query).
Proof.
  split; [split|split];
    [eexists; reflexivity | cbn; lia | cbn; lia | reflexivity].
Qed.

Section Query.
Context `{SocketLib} (Hlaw : inet_lawful).
Variable database : gmap str str.
Variable neighbor_addresses : list ip_port.

Lemma handle_query_answer (st : state) (query : Query)
    (message_origin : ip_port) (value : str) :
  content query ∉ queries_seen st ->
  fits_wire (content query) -> ttl query < 2 ^ 16 ->
  database_text database ->
  database !! key (content query) = Some value ->
  exists st' t r,
    handle_query database neighbor_addresses st query message_origin
    = Some (st', t) /\
    pack_response (key (content query)) value = Some r /\
    responses_sent t = [(r, address (content query))] /\
    sent t = queries_sent t ++ responses_sent t.
Proof.
  intros Hfresh Hfit Httl Hdb Hv.
  destruct (handle_query_outcome database neighbor_addresses st query
              message_origin Hfresh Hfit Httl Hdb)
    as (t & Hrun & _ & Hrs & Hsent).
  destruct (handle_query_fresh database neighbor_addresses st query
              message_origin Hfresh Hfit Httl Hdb) as (_ & Hresp & _).
  destruct (Hresp value Hv) as [r Hr].
  rewrite Hv, Hr in Hrs. cbn [default from_option] in Hrs. unfold id in Hrs.
  eexists. exists t, r. split; [exact Hrun|]. split; [exact Hr|].
  split; [exact Hrs | exact Hsent].
Qed.

(** The bytes of a packed RESPONSE. *)
Lemma pack_response_for (k value : str) (r : bytes) :
  pack_response k value = Some r -> response_for k value r.
Proof.
  unfold pack_response. rewrite pack_type_value.
  destruct (Utf8.encode _) as [d|] eqn:Hd; [|discriminate].
  intros [= <-]. exists d. split; [exact Hd | reflexivity].
Qed.

(** What the loop body does with a query that is no duplicate, the
    packed query and the packed response named: the query goes to the
    neighbours other than the sender when the ttl is positive, and the
    response to the address in the query when the database has the key. *)
Lemma handle_query_sends (st : state) (query : Query) (o : ip_port) :
  content query ∉ queries_seen st ->
  fits_wire (content query) -> ttl query < 2 ^ 16 ->
  database_text database ->
  exists st' t,
    handle_query database neighbor_addresses st query o = Some (st', t) /\
    (ttl query <= 0 -> queries_sent t = []) /\
    (0 < ttl query ->
     exists w, pack_query query = Some w /\
       queries_sent t
       = map (fun n => (w, n))
           (filter (fun n => n <> o) neighbor_addresses)) /\
    (forall value,
       database !! key (content query) = Some value ->
       exists r, pack_response (key (content query)) value = Some r /\
                 response_for (key (content query)) value r /\
                 responses_sent t = [(r, address (content query))]) /\
    (database !! key (content query) = None -> responses_sent t = []) /\
    sent t = queries_sent t ++ responses_sent t.
Proof.
  intros Hfresh Hfit Httl Hdb.
  destruct (handle_query_outcome database neighbor_addresses st query
              o Hfresh Hfit Httl Hdb)
    as (t & Hrun & Hqs & Hrs & Hsent).
  destruct (handle_query_fresh database neighbor_addresses st query
              o Hfresh Hfit Httl Hdb) as (_ & Hresp & _).
  do 2 eexists. split; [exact Hrun|].
  split; [|split; [|split; [|split; [|exact Hsent]]]].
  - intros Hle. rewrite Hqs.
    replace (0 <? ttl query) with false by lia. reflexivity.
  - intros Hpos.
    destruct (pack_query_is_Some query Hfit ltac:(lia)) as [w Hw].
    exists w. split; [exact Hw|]. rewrite Hqs, Hw.
    replace (0 <? ttl query) with true by lia.
    destruct neighbor_addresses; reflexivity.
  - intros value Hv. destruct (Hresp value Hv) as [r Hr].
    exists r. split; [exact Hr|]. split; [apply pack_response_for, Hr|].
    rewrite Hrs, Hv, Hr. reflexivity.
  - intros Hv. rewrite Hrs, Hv. reflexivity.
Qed.

(** The same of a whole iteration on a QUERY that arrives: the query is
    the one [unpack_query] reads off the datagram, its ttl one less than
    the ttl field. *)
Lemma iteration_query_sends (st : state) (datagram : bytes) (o : ip_port)
    (query : Query) :
  database_text database ->
  unpack_query (recvfrom MAX_SERVER_MESSAGE_SIZE datagram)
  = Some (query, []) ->
  content query ∉ queries_seen st ->
  fits_wire (content query) /\ ttl query < 2 ^ 16 - 1 /\
  wire_ttl (recvfrom MAX_SERVER_MESSAGE_SIZE datagram)
  = Some (ttl query + 1) /\
  exists st' t,
    iteration database neighbor_addresses st datagram o = Some (st', t) /\
    (ttl query <= 0 -> queries_sent t = []) /\
    (0 < ttl query ->
     exists w, pack_query query = Some w /\
       queries_sent t
       = map (fun n => (w, n))
           (filter (fun n => n <> o) neighbor_addresses)) /\
    (forall value,
       database !! key (content query) = Some value ->
       exists r, pack_response (key (content query)) value = Some r /\
                 response_for (key (content query)) value r /\
                 responses_sent t = [(r, address (content query))]) /\
    (database !! key (content query) = None -> responses_sent t = []) /\
    sent t = queries_sent t ++ responses_sent t.
Proof.
  intros Hdb Hq Hfresh.
  destruct (unpack_query_inv Hlaw _ _ _ Hq)
    as (_ & _ & _ & Hfit & Httl & Hwire & _).
  split; [exact Hfit|]. split; [lia|]. split; [exact Hwire|].
  destruct (handle_query_sends st query o Hfresh Hfit ltac:(lia) Hdb)
    as (st' & t & Hrun & Hsends).
  rewrite (iteration_query Hlaw _ _ st datagram o query Hq), Hrun.
  exists st', (log_received_query query :: t). split; [reflexivity|].
  exact Hsends.
Qed.

(** And of a whole iteration on a CLIREQ: the query is the one
    [new_query] makes of the key, with the address of the sender, the
    next sequence number and the ttl 3. *)
Lemma iteration_clireq_sends (st : state) (datagram : bytes) (o : ip_port)
    (text : str) :
  let message_data := recvfrom MAX_SERVER_MESSAGE_SIZE datagram in
  let query := {| content := {| key := rstrip 0 text; address := o;
                                sequence :=
                                  _next_sequence (query_creator st) |};
                  ttl := 3 |} in
  database_text database -> socket_address o -> creator_ok st ->
  extract_message_type message_data = Some CLIREQ ->
  Utf8.decode (drop MESSAGE_TYPE_SIZE message_data) = Some text ->
  content query ∉ queries_seen st ->
  exists st' t,
    iteration database neighbor_addresses st datagram o = Some (st', t) /\
    (exists w, pack_query query = Some w /\
       queries_sent t
       = map (fun n => (w, n))
           (filter (fun n => n <> o) neighbor_addresses)) /\
    (forall value,
       database !! rstrip 0 text = Some value ->
       exists r, pack_response (rstrip 0 text) value = Some r /\
                 response_for (rstrip 0 text) value r /\
                 responses_sent t = [(r, o)]) /\
    (database !! rstrip 0 text = None -> responses_sent t = []) /\
    sent t = queries_sent t ++ responses_sent t.
Proof.
  intros message_data query Hdb Ho Hst Htype Htext Hfresh.
  pose proof (clireq_content_fits st o _ text Ho Hst Htext) as Hfit.
  destruct Hst as [Httl _].
  rewrite (iteration_clireq _ _ st datagram o text Htype Htext).
  cbn [new_query fst snd]. rewrite Httl. fold query.
  match goal with
  | |- context [handle_query _ _ ?s query _] =>
      destruct (handle_query_sends s query o Hfresh Hfit
                  ltac:(cbn; lia) Hdb)
        as (st' & t & Hrun & _ & Hqs & Hsends)
  end.
  rewrite Hrun. exists st', (log_received_clireq query :: t).
  split; [reflexivity|]. split; [|exact Hsends].
  apply Hqs. cbn. lia.
Qed.

(** C5: in an iteration on a query that is not a duplicate the ttl
    decides on the forwarding alone.  For a QUERY that arrives, the ttl of
    the query is the ttl field of the datagram less one; when that is 0 or
    less, no QUERY leaves the servent, and when it is positive the packed
    query goes to the neighbours.  The query made of a CLIREQ has ttl 3
    and goes to the neighbours.  Whatever the ttl, the servent sends the
    one RESPONSE, with the key and the value of its database, when the
    database has the key, and none when it has not; it sends nothing
    else. *)
Theorem ttl_gates_forwarding_only (st : state) (datagram : bytes)
    (message_origin : ip_port) :
  let message_data := recvfrom MAX_SERVER_MESSAGE_SIZE datagram in
  database_text database ->
  (forall query,
     unpack_query message_data = Some (query, []) ->
     content query ∉ queries_seen st ->
     exists st' t,
       iteration database neighbor_addresses st datagram message_origin
       = Some (st', t) /\
       wire_ttl message_data = Some (ttl query + 1) /\
       (ttl query <= 0 -> queries_sent t = []) /\
       (0 < ttl query ->
        exists w, pack_query query = Some w /\
          queries_sent t
          = map (fun n => (w, n))
              (filter (fun n => n <> message_origin) neighbor_addresses)) /\
       (forall value,
          database !! key (content query) = Some value ->
          exists r, response_for (key (content query)) value r /\
                    responses_sent t = [(r, address (content query))]) /\
       (database !! key (content query) = None -> responses_sent t = []) /\
       sent t = queries_sent t ++ responses_sent t) /\
  (forall text,
     socket_address message_origin -> creator_ok st ->
     extract_message_type message_data = Some CLIREQ ->
     Utf8.decode (drop MESSAGE_TYPE_SIZE message_data) = Some text ->
     {| key := rstrip 0 text; address := message_origin;
        sequence := _next_sequence (query_creator st) |}
     ∉ queries_seen st ->
     exists st' t,
       iteration database neighbor_addresses st datagram message_origin
       = Some (st', t) /\
       (exists w,
          pack_query
            {| content := {| key := rstrip 0 text;
                             address := message_origin;
                             sequence :=
                               _next_sequence (query_creator st) |};
               ttl := 3 |} = Some w /\
          queries_sent t
          = map (fun n => (w, n))
              (filter (fun n => n <> message_origin) neighbor_addresses)) /\
       (forall value,
          database !! rstrip 0 text = Some value ->
          exists r, response_for (rstrip 0 text) value r /\
                    responses_sent t = [(r, message_origin)]) /\
       (database !! rstrip 0 text = None -> responses_sent t = []) /\
       sent t = queries_sent t ++ responses_sent t).
Proof.
  intros message_data Hdb. split.
  - intros query Hq Hfresh.
    destruct (iteration_query_sends st datagram message_origin query
                Hdb Hq Hfresh)
      as (_ & _ & Hwire & st' & t & Hrun & Hle & Hpos & Hyes & Hno & Hsent).
    exists st', t. split; [exact Hrun|]. split; [exact Hwire|].
    split; [exact Hle|]. split; [exact Hpos|].
    split; [|split; [exact Hno | exact Hsent]].
    intros value Hv. destruct (Hyes value Hv) as (r & _ & Hfor & Hrs).
    exists r. split; [exact Hfor | exact Hrs].
  - intros text Ho Hst Htype Htext Hfresh.
    destruct (iteration_clireq_sends st datagram message_origin text
                Hdb Ho Hst Htype Htext Hfresh)
      as (st' & t & Hrun & Hqs & Hyes & Hno & Hsent).
    exists st', t. split; [exact Hrun|]. split; [exact Hqs|].
    split; [|split; [exact Hno | exact Hsent]].
    intros value Hv. destruct (Hyes value Hv) as (r & _ & Hfor & Hrs).
    exists r. split; [exact Hfor | exact Hrs].
Qed.

(** The datagrams of a list of packed queries to the neighbours other
    than the sender, as a property of each address. *)
Lemma forwarded_to (t : list effect) (w : bytes) (o : ip_port) :
  extract_message_type w = Some QUERY ->
  queries_sent t
  = map (fun n => (w, n)) (filter (fun n => n <> o) neighbor_addresses) ->
  sent t = queries_sent t ++ responses_sent t ->
  (forall d a, (d, a) ∈ queries_sent t <->
               d = w /\ a ∈ neighbor_addresses /\ a <> o) /\
  (forall a, (w, a) ∈ sent t <-> a ∈ neighbor_addresses /\ a <> o).
Proof.
  intros Htag Hqs Hsent.
  assert (Hq : forall d a, (d, a) ∈ queries_sent t <->
                           d = w /\ a ∈ neighbor_addresses /\ a <> o).
  { intros d a. rewrite Hqs. split.
    - intros Hin.
      apply list_elem_of_In, in_map_iff in Hin as (n & [= <- <-] & Hn).
      apply list_elem_of_In, list_elem_of_filter in Hn as [Hn Hin].
      auto.
    - intros (-> & Hin & Ha). apply list_elem_of_In, in_map_iff.
      exists a. split; [reflexivity|].
      apply list_elem_of_In, list_elem_of_filter. split; assumption. }
  split; [exact Hq|]. intros a. rewrite Hsent, elem_of_app. split.
  - intros [Hin|Hin]; [apply Hq in Hin as (_ & Hin); exact Hin|].
    apply list_elem_of_filter in Hin as [Hr _]. cbn in Hr. congruence.
  - intros Ha. left. apply Hq. split; [reflexivity | exact Ha].
Qed.

(** C7: in an iteration that forwards a query, the packed query goes to
    the neighbours other than the address the datagram came from, in the
    order of the list, once each entry, and to no other address; a
    neighbour that is the sender gets none.  The datagram sent on is the
    query packed anew: a servent that receives it unpacks the key (its
    first 40 characters), the port and the sequence of the query, the ip
    as [inet_ntoa] prints it, and a ttl one lower.  This holds for a QUERY
    that arrives with a ttl field above 1 and for the query made of a
    CLIREQ. *)
Theorem forward_excludes_sender (st : state) (datagram : bytes)
    (message_origin : ip_port) :
  let message_data := recvfrom MAX_SERVER_MESSAGE_SIZE datagram in
  let forwarded (query : Query) (t : list effect) :=
    exists w b ip',
      pack_query query = Some w /\
      inet_aton (address (content query)).1 = Some b /\
      inet_ntoa b = Some ip' /\
      unpack_query w
      = Some ({| content :=
                   {| key := rstrip 0 (take MAX_KEY_SIZE
                                         (key (content query)));
                      address := (ip', (address (content query)).2);
                      sequence := sequence (content query) |};
                 ttl := ttl query - 1 |}, []) /\
      queries_sent t
      = map (fun n => (w, n))
          (filter (fun n => n <> message_origin) neighbor_addresses) /\
      (forall d a, (d, a) ∈ queries_sent t <->
                   d = w /\ a ∈ neighbor_addresses /\ a <> message_origin) /\
      (forall a, (w, a) ∈ sent t <->
                 a ∈ neighbor_addresses /\ a <> message_origin) in
  database_text database -> neighbor_addresses <> [] ->
  (forall query,
     unpack_query message_data = Some (query, []) ->
     content query ∉ queries_seen st ->
     0 < ttl query ->
     exists st' t,
       iteration database neighbor_addresses st datagram message_origin
       = Some (st', t) /\
       forwarded query t) /\
  (forall text,
     socket_address message_origin -> creator_ok st ->
     extract_message_type message_data = Some CLIREQ ->
     Utf8.decode (drop MESSAGE_TYPE_SIZE message_data) = Some text ->
     {| key := rstrip 0 text; address := message_origin;
        sequence := _next_sequence (query_creator st) |}
     ∉ queries_seen st ->
     exists st' t,
       iteration database neighbor_addresses st datagram message_origin
       = Some (st', t) /\
       forwarded
         {| content := {| key := rstrip 0 text; address := message_origin;
                          sequence := _next_sequence (query_creator st) |};
            ttl := 3 |} t).
Proof.
  intros message_data forwarded Hdb Hne.
  assert (Hfw : forall query t w,
            pack_query query = Some w ->
            queries_sent t
            = map (fun n => (w, n))
                (filter (fun n => n <> message_origin) neighbor_addresses) ->
            sent t = queries_sent t ++ responses_sent t ->
            forwarded query t).
  { intros query t w Hw Hqs Hsent.
    destruct (unpack_pack_query Hlaw query w Hw) as (b & ip' & Hb & Hn & Hu).
    destruct (pack_query_inv _ _ Hw) as (Htag & _).
    destruct (forwarded_to t w message_origin Htag Hqs Hsent) as [Hq Hs].
    exists w, b, ip'. repeat (split; [assumption|]). exact Hs. }
  split.
  - intros query Hq Hfresh Hpos.
    destruct (iteration_query_sends st datagram message_origin query
                Hdb Hq Hfresh)
      as (_ & _ & _ & st' & t & Hrun & _ & Hqs & _ & _ & Hsent).
    destruct (Hqs Hpos) as (w & Hw & Hsentq).
    exists st', t. split; [exact Hrun|]. exact (Hfw query t w Hw Hsentq Hsent).
  - intros text Ho Hst Htype Htext Hfresh.
    destruct (iteration_clireq_sends st datagram message_origin text
                Hdb Ho Hst Htype Htext Hfresh)
      as (st' & t & Hrun & (w & Hw & Hsentq) & _ & _ & Hsent).
    exists st', t. split; [exact Hrun|]. exact (Hfw _ t w Hw Hsentq Hsent).
Qed.

(** C8: in an iteration on a query that is not a duplicate and whose key
    the database has, exactly one RESPONSE leaves the servent.  Its bytes
    are the type 3 and the UTF-8 of the key, a tab, the value of the
    database and a NUL (the key cut to 40 characters, the value to 160),
    which is what [pack_response] returns for them.  It goes to the
    address in the content of the query: for a QUERY the address unpacked
    from the datagram, so that the address the datagram came from gets no
    RESPONSE unless it is that address; for a CLIREQ the address of the
    sender. *)
Theorem answer_goes_to_origin (st : state) (datagram : bytes)
    (message_origin : ip_port) :
  let message_data := recvfrom MAX_SERVER_MESSAGE_SIZE datagram in
  database_text database ->
  (forall query value,
     unpack_query message_data = Some (query, []) ->
     content query ∉ queries_seen st ->
     database !! key (content query) = Some value ->
     exists st' t r,
       iteration database neighbor_addresses st datagram message_origin
       = Some (st', t) /\
       pack_response (key (content query)) value = Some r /\
       response_for (key (content query)) value r /\
       responses_sent t = [(r, address (content query))] /\
       sent t = queries_sent t ++ responses_sent t /\
       (message_origin <> address (content query) ->
        forall d, (d, message_origin) ∉ responses_sent t)) /\
  (forall text value,
     socket_address message_origin -> creator_ok st ->
     extract_message_type message_data = Some CLIREQ ->
     Utf8.decode (drop MESSAGE_TYPE_SIZE message_data) = Some text ->
     {| key := rstrip 0 text; address := message_origin;
        sequence := _next_sequence (query_creator st) |}
     ∉ queries_seen st ->
     database !! rstrip 0 text = Some value ->
     exists st' t r,
       iteration database neighbor_addresses st datagram message_origin
       = Some (st', t) /\
       pack_response (rstrip 0 text) value = Some r /\
       response_for (rstrip 0 text) value r /\
       responses_sent t = [(r, message_origin)] /\
       sent t = queries_sent t ++ responses_sent t).
Proof.
  intros message_data Hdb. split.
  - intros query value Hq Hfresh Hv.
    destruct (iteration_query_sends st datagram message_origin query
                Hdb Hq Hfresh)
      as (_ & _ & _ & st' & t & Hrun & _ & _ & Hyes & _ & Hsent).
    destruct (Hyes value Hv) as (r & Hr & Hfor & Hrs).
    exists st', t, r. split; [exact Hrun|]. split; [exact Hr|].
    split; [exact Hfor|]. split; [exact Hrs|]. split; [exact Hsent|].
    intros Hne d. rewrite Hrs. intros Hin.
    apply list_elem_of_singleton in Hin. congruence.
  - intros text value Ho Hst Htype Htext Hfresh Hv.
    destruct (iteration_clireq_sends st datagram message_origin text
                Hdb Ho Hst Htype Htext Hfresh)
      as (st' & t & Hrun & _ & Hyes & _ & Hsent).
    destruct (Hyes value Hv) as (r & Hr & Hfor & Hrs).
    exists st', t, r. split; [exact Hrun|]. split; [exact Hr|].
    split; [exact Hfor|]. split; [exact Hrs | exact Hsent].
Qed.

End Query.

(** At B, with neighbours A and C: the query arrives from A with 1 in
    its ttl field; B forwards it to nobody and answers the client. *)
Lemma ttl_gates_forwarding_only_witness :
  exists st' t,
    @iteration dotted_quad Scenario.B_database
      [Scenario.A_address; Scenario.C_address] initial
      Scenario.packed_last_hop_query Scenario.A_address = Some (st', t) /\
    wire_ttl (recvfrom MAX_SERVER_MESSAGE_SIZE Scenario.packed_last_hop_query)
    = Some (ttl Scenario.spent_query + 1) /\
    queries_sent t = [] /\
    responses_sent t = [(response_baz, Scenario.client_address)] /\
    sent t = queries_sent t ++ responses_sent t.
Proof.
  destruct (@ttl_gates_forwarding_only dotted_quad dotted_quad_lawful
              Scenario.B_database [Scenario.A_address; Scenario.C_address]
              initial Scenario.packed_last_hop_query Scenario.A_address
              B_database_text) as [Hquery _].
  destruct (Hquery Scenario.spent_query eq_refl (not_elem_of_empty _))
    as (st' & t & Hrun & Hwire & Hle & _ & Hyes & _ & Hsent).
  destruct (Hyes Scenario.qux eq_refl) as (r & (d & Hd & ->) & Hrs).
  vm_compute in Hd. injection Hd as <-.
  exists st', t. split; [exact Hrun|]. split; [exact Hwire|].
  split; [apply Hle; reflexivity|]. split; [exact Hrs | exact Hsent].
Defined.

(** At B, with neighbours A and C: the query that arrives from A goes on
    to C alone, with 2 in its ttl field. *)
Lemma forward_excludes_sender_witness :
  exists st' t,
    @iteration dotted_quad Scenario.B_database
      [Scenario.A_address; Scenario.C_address] initial
      Scenario.packed_first_query Scenario.A_address = Some (st', t) /\
    queries_sent t = [(Scenario.packed_relayed_query, Scenario.C_address)] /\
    forall a, (Scenario.packed_relayed_query, a) ∈ sent t <->
              a ∈ [Scenario.A_address; Scenario.C_address] /\
              a <> Scenario.A_address.
Proof.
  destruct (@forward_excludes_sender dotted_quad dotted_quad_lawful
              Scenario.B_database [Scenario.A_address; Scenario.C_address]
              initial Scenario.packed_first_query Scenario.A_address
              B_database_text ltac:(discriminate)) as [Hquery _].
  destruct (Hquery Scenario.relayed_query eq_refl (not_elem_of_empty _)
              eq_refl)
    as (st' & t & Hrun & w & b & ip' & Hw & _ & _ & _ & Hqs & _ & Hs).
  vm_compute in Hw. injection Hw as <-.
  exists st', t. split; [exact Hrun|]. split; [exact Hqs | exact Hs].
Defined.

(** At B: the answer to the query that arrives from A goes to the
    client, and the answer of A to the client's request for [foo] goes to
    the client, who sent it. *)
Lemma answer_goes_to_origin_witness :
  (exists st' t,
     @iteration dotted_quad Scenario.B_database
       [Scenario.A_address; Scenario.C_address] initial
       Scenario.packed_first_query Scenario.A_address = Some (st', t) /\
     responses_sent t = [(response_baz, Scenario.client_address)] /\
     forall d, (d, Scenario.A_address) ∉ responses_sent t) /\
  (exists st' t,
     @iteration dotted_quad Scenario.A_database Scenario.A_neighbors initial
       Scenario.clireq_foo Scenario.client_address = Some (st', t) /\
     responses_sent t = [(response_foo, Scenario.client_address)]).
Proof.
  split.
  - destruct (@answer_goes_to_origin dotted_quad dotted_quad_lawful
                Scenario.B_database [Scenario.A_address; Scenario.C_address]
                initial Scenario.packed_first_query Scenario.A_address
                B_database_text) as [Hquery _].
    destruct (Hquery Scenario.relayed_query Scenario.qux eq_refl
                (not_elem_of_empty _) eq_refl)
      as (st' & t & r & Hrun & Hr & _ & Hrs & _ & Hnot).
    vm_compute in Hr. injection Hr as <-.
    exists st', t. split; [exact Hrun|]. split; [exact Hrs|].
    apply Hnot. discriminate.
  - destruct (@answer_goes_to_origin dotted_quad dotted_quad_lawful
                Scenario.A_database Scenario.A_neighbors
                initial Scenario.clireq_foo Scenario.client_address
                A_database_text) as [_ Hclireq].
    destruct (Hclireq (Scenario.foo ++ [0]) Scenario.bar
                client_socket_address initial_creator_ok eq_refl eq_refl
                (not_elem_of_empty _) eq_refl)
      as (st' & t & r & Hrun & Hr & _ & Hrs & _).
    vm_compute in Hr. injection Hr as <-.
    exists st', t. split; [exact Hrun | exact Hrs].
Defined.

Section Duplicate.
Context `{SocketLib} (Hlaw : inet_lawful).
Variable database : gmap str str.
Variable neighbor_addresses : list ip_port.

(** C6: a datagram that unpacks as a QUERY not seen before is handled
    once.  The first time the servent records the content, makes its
    forwarding pass and sends its answer; the second time, whoever sends
    it, the content is in the set, the state stays as it is and nothing is
    sent.  The two iterations together send one forwarding pass, if the
    ttl is positive, and one answer, if the database has the key; the
    packing of the two succeeds. *)
Theorem duplicate_query_discarded (st : state) (datagram : bytes)
    (first_origin second_origin : ip_port) (query : Query) :
  let again := [log_received_query query; log_already_seen query] in
  database_text database ->
  unpack_query (recvfrom MAX_SERVER_MESSAGE_SIZE datagram)
  = Some (query, []) ->
  content query ∉ queries_seen st ->
  exists st' t,
    iteration database neighbor_addresses st datagram first_origin
    = Some (st', t) /\
    content query ∈ queries_seen st' /\
    iteration database neighbor_addresses st' datagram second_origin
    = Some (st', again) /\
    sent again = [] /\
    main database neighbor_addresses st
      [(datagram, first_origin); (datagram, second_origin)]
    = Some (st', t ++ again) /\
    queries_sent (t ++ again)
    = (if (0 <? ttl query) && nonempty neighbor_addresses
       then map (fun n => (default [] (pack_query query), n))
              (filter (fun n => n <> first_origin) neighbor_addresses)
       else []) /\
    responses_sent (t ++ again)
    = match database !! key (content query) with
      | Some value =>
          [(default [] (pack_response (key (content query)) value),
            address (content query))]
      | None => []
      end /\
    sent (t ++ again) = queries_sent (t ++ again) ++ responses_sent (t ++ again) /\
    (0 < ttl query -> is_Some (pack_query query)) /\
    (forall value, database !! key (content query) = Some value ->
                   is_Some (pack_response (key (content query)) value)).
Proof.
  intros again Hdb Hq Hfresh.
  destruct (unpack_query_inv Hlaw _ _ _ Hq)
    as (_ & _ & _ & Hfit & Httl & _).
  destruct (handle_query_outcome database neighbor_addresses st query
              first_origin Hfresh Hfit ltac:(lia) Hdb)
    as (t & Hrun & Hqs & Hrs & Hsent).
  assert (Hfirst :
    iteration database neighbor_addresses st datagram first_origin
    = Some ({| query_creator := query_creator st;
               queries_seen := {[content query]} ∪ queries_seen st |},
            log_received_query query :: t)).
  { rewrite (iteration_query Hlaw _ _ st datagram first_origin query Hq).
    rewrite Hrun. reflexivity. }
  assert (Hin : content query ∈ {[content query]} ∪ queries_seen st)
    by (apply elem_of_union_l, elem_of_singleton; reflexivity).
  assert (Hsecond :
    iteration database neighbor_addresses
      {| query_creator := query_creator st;
         queries_seen := {[content query]} ∪ queries_seen st |}
      datagram second_origin
    = Some ({| query_creator := query_creator st;
               queries_seen := {[content query]} ∪ queries_seen st |},
            again)).
  { rewrite (iteration_query Hlaw _ _ _ datagram second_origin query Hq).
    rewrite handle_query_seen by exact Hin. reflexivity. }
  do 2 eexists. split; [exact Hfirst|]. split; [exact Hin|].
  split; [exact Hsecond|]. split; [reflexivity|]. split.
  { cbn [main]. rewrite Hfirst. cbn [bind]. rewrite Hsecond. cbn [bind ret].
    rewrite app_nil_r. reflexivity. }
  rewrite queries_sent_app, responses_sent_app, sent_app.
  change (queries_sent again) with (@nil (bytes * ip_port)).
  change (responses_sent again) with (@nil (bytes * ip_port)).
  change (sent again) with (@nil (bytes * ip_port)).
  rewrite !app_nil_r.
  change (queries_sent (log_received_query query :: t)) with (queries_sent t).
  change (responses_sent (log_received_query query :: t))
    with (responses_sent t).
  change (sent (log_received_query query :: t)) with (sent t).
  split; [exact Hqs|]. split; [exact Hrs|]. split; [exact Hsent|].
  destruct (handle_query_fresh database neighbor_addresses st query
              first_origin Hfresh Hfit ltac:(lia) Hdb) as (_ & Hresp & _).
  split; [|exact Hresp].
  intros Hpos. apply (pack_query_is_Some query Hfit). lia.
Qed.

End Duplicate.

(** At B: the query of the scenario arrives from A and then again from
    C; the second time nothing happens. *)
Lemma duplicate_query_discarded_witness :
  let datagram := Scenario.packed_first_query in
  let again := [log_received_query Scenario.relayed_query;
                log_already_seen Scenario.relayed_query] in
  exists st' t,
    @iteration dotted_quad Scenario.B_database
      [Scenario.A_address; Scenario.C_address] initial
      datagram Scenario.A_address = Some (st', t) /\
    @iteration dotted_quad Scenario.B_database
      [Scenario.A_address; Scenario.C_address] st'
      datagram Scenario.C_address = Some (st', again) /\
    sent (t ++ again) = queries_sent (t ++ again) ++ responses_sent (t ++ again).
Proof.
  cbv zeta.
  destruct (@duplicate_query_discarded dotted_quad dotted_quad_lawful
              Scenario.B_database [Scenario.A_address; Scenario.C_address]
              initial
              Scenario.packed_first_query
              Scenario.A_address Scenario.C_address Scenario.relayed_query)
    as (st' & t & H1 & _ & H2 & _ & _ & _ & _ & H3 & _).
  - exact B_database_text.
  - reflexivity.
  - apply not_elem_of_empty.
  - exists st', t. split; [exact H1|]. split; [exact H2 | exact H3].
Defined.

Section Continue.
Context `{SocketLib} (Hlaw : inet_lawful).
Variable database : gmap str str.
Variable neighbor_addresses : list ip_port.

(** An iteration that comes to its end has decoded its datagram. *)
Lemma iteration_Some_decodes (st : state) (datagram : bytes) (o : ip_port) :
  is_Some (iteration database neighbor_addresses st datagram o) ->
  decodes (recvfrom MAX_SERVER_MESSAGE_SIZE datagram).
Proof.
  unfold decodes, iteration. cbv zeta.
  set (message_data := recvfrom MAX_SERVER_MESSAGE_SIZE datagram).
  destruct (extract_message_type message_data) as [[| |]|] eqn:Htype;
    cbn [lift bind ret].
  - unfold unpack_clireq. rewrite Htype. cbn [lift bind ret].
    destruct (Utf8.decode _) as [text|]; [eexists; reflexivity|].
    intros [? [=]].
  - destruct (unpack_query message_data) as [[q tq]|] eqn:Hq;
      [|intros [? [=]]].
    destruct (unpack_query_inv Hlaw _ _ _ Hq) as (Hlen & Hdec & _).
    intros _. split; assumption.
  - intros _. exact I.
  - intros [? [=]].
Qed.

(** C3 fails on the code.  Nothing in the loop catches an exception: on a
    datagram that does not decode (no type 1, 2 or 3 in its first two
    bytes, or no UTF-8 key behind the type of a CLIREQ or behind the whole
    header of a QUERY) the iteration raises, the loop ends, and the
    datagrams that follow are never read.  The branch next to it does
    what the claim says: a RESPONSE that strays in is logged and the loop
    goes on with the next datagram. *)
Theorem undecodable_ends_loop (st : state) (datagram : bytes)
    (message_origin : ip_port) (rest : list (bytes * ip_port)) :
  let message_data := recvfrom MAX_SERVER_MESSAGE_SIZE datagram in
  (~ decodes message_data ->
   iteration database neighbor_addresses st datagram message_origin = None /\
   main database neighbor_addresses st ((datagram, message_origin) :: rest)
   = None) /\
  (extract_message_type message_data = Some RESPONSE ->
   main database neighbor_addresses st ((datagram, message_origin) :: rest)
   = match main database neighbor_addresses st rest with
     | Some (st', t) =>
         Some (st', log_received_response message_origin :: t)
     | None => None
     end).
Proof.
  intros message_data. split.
  - intros Hbad.
    assert (Hrun : iteration database neighbor_addresses st datagram
                     message_origin = None).
    { destruct (iteration _ _ _ _ _) as [r|] eqn:Hrun; [|reflexivity].
      contradiction Hbad. apply (iteration_Some_decodes st _ message_origin).
      rewrite Hrun. eexists; reflexivity. }
    split; [exact Hrun|]. cbn [main]. rewrite Hrun. reflexivity.
  - intros Htype. cbn [main].
    rewrite (iteration_response _ _ st datagram message_origin Htype).
    cbn [bind]. destruct (main _ _ st rest) as [[st' t]|]; reflexivity.
Qed.

End Continue.

(** At A: the datagram of the two bytes 00 04 ends the loop before the
    request of the client is read; after the RESPONSE of B for [baz] in
    its place, the loop serves the request. *)
Lemma undecodable_ends_loop_witness :
  @main dotted_quad Scenario.A_database Scenario.A_neighbors initial
    [([Byte.x00; Byte.x04], Scenario.client_address);
     (Scenario.clireq_baz, Scenario.client_address)]
  = None /\
  @main dotted_quad Scenario.A_database Scenario.A_neighbors initial
    [(response_baz, Scenario.client_address);
     (Scenario.clireq_baz, Scenario.client_address)]
  = Some ({| query_creator := {| _next_sequence := 1; _initial_ttl := 3 |};
             queries_seen := {[content Scenario.first_query]} ∪ ∅ |},
          [log_received_response Scenario.client_address;
           log_received_clireq Scenario.first_query;
           log_forwarding Scenario.B_address;
           sendto Scenario.packed_first_query Scenario.B_address]).
Proof.
  split.
  - apply (@undecodable_ends_loop dotted_quad dotted_quad_lawful
             Scenario.A_database Scenario.A_neighbors initial
             [Byte.x00; Byte.x04] Scenario.client_address).
    intros Hd. exact Hd.
  - etransitivity.
    + apply (@undecodable_ends_loop dotted_quad dotted_quad_lawful
               Scenario.A_database Scenario.A_neighbors initial
               response_baz Scenario.client_address).
      reflexivity.
    + run_both_sides.
Defined.

Section Fresh.
Context `{SocketLib} (Hlaw : inet_lawful).
Variable database : gmap str str.
Variable neighbor_addresses : list ip_port.

Lemma handle_query_state (s s' : state) (q : Query) (o : ip_port)
    (t : list effect) :
  handle_query database neighbor_addresses s q o = Some (s', t) ->
  query_creator s' = query_creator s /\
  (queries_seen s' = queries_seen s \/
   queries_seen s' = {[content q]} ∪ queries_seen s).
Proof.
  unfold handle_query. destruct (decide (content q ∈ queries_seen s)).
  - intros [= <- _]. split; [reflexivity | left; reflexivity].
  - destruct ((0 <? ttl q) && nonempty neighbor_addresses);
      destruct (pack_query q); destruct (database !! key (content q));
      try destruct (pack_response _ _); cbn; intros [= <- _];
      (split; [reflexivity | right; reflexivity]).
Qed.

(** An iteration on anything but a QUERY keeps the contents of the set
    below the counter. *)
Lemma iteration_stamped_below (st st' : state) (datagram : bytes)
    (o : ip_port) (t : list effect) :
  stamped_below st ->
  extract_message_type (recvfrom MAX_SERVER_MESSAGE_SIZE datagram)
  <> Some QUERY ->
  iteration database neighbor_addresses st datagram o = Some (st', t) ->
  stamped_below st'.
Proof.
  intros Hst Htype. unfold iteration. cbv zeta.
  destruct (extract_message_type _) as [[| |]|]; cbn [lift bind ret];
    [|congruence|intros [= <- _]; exact Hst|discriminate].
  destruct (unpack_clireq _) as [[k tk]|]; [|discriminate]. cbn [bind].
  unfold new_query. cbn [tell bind].
  destruct (handle_query _ _ _ _ _) as [[s' t']|] eqn:Hs; [|discriminate].
  apply handle_query_state in Hs as [Hc Hseen]. intros [= <- _].
  intros c Hin. rewrite Hc. cbn [query_creator _next_sequence].
  cbn [queries_seen content] in Hseen.
  destruct Hseen as [Hseen|Hseen]; rewrite Hseen in Hin.
  - specialize (Hst c Hin). lia.
  - apply elem_of_union in Hin as [Hin|Hin].
    + apply elem_of_singleton in Hin. subst c. cbn. lia.
    + specialize (Hst c Hin). lia.
Qed.

(** C10, as the code has it: the sequences one creator stamps grow
    strictly from call to call.  While every content of the set of seen
    queries has a sequence below the counter, the content made of a CLIREQ
    is not in the set; the servent records it, sends the packed query to
    the neighbours and keeps the set below the counter.  The set is below
    the counter at the start and stays so as long as no QUERY arrives; a
    QUERY can bring any sequence into the set. *)
Theorem clireq_stamped_afresh :
  (forall self calls i j qi qj,
     new_queries self calls !! i = Some qi ->
     new_queries self calls !! j = Some qj ->
     (i < j)%nat -> sequence (content qi) < sequence (content qj)) /\
  (forall st datagram message_origin text,
     let message_data := recvfrom MAX_SERVER_MESSAGE_SIZE datagram in
     let query :=
       {| content := {| key := rstrip 0 text; address := message_origin;
                        sequence := _next_sequence (query_creator st) |};
          ttl := 3 |} in
     let st' :=
       {| query_creator :=
            {| _next_sequence := _next_sequence (query_creator st) + 1;
               _initial_ttl := 3 |};
          queries_seen := {[content query]} ∪ queries_seen st |} in
     database_text database -> socket_address message_origin ->
     creator_ok st -> stamped_below st ->
     extract_message_type message_data = Some CLIREQ ->
     Utf8.decode (drop MESSAGE_TYPE_SIZE message_data) = Some text ->
     (content query ∉ queries_seen st) /\
     stamped_below st' /\
     exists t w,
       iteration database neighbor_addresses st datagram message_origin
       = Some (st', t) /\
       pack_query query = Some w /\
       queries_sent t
       = map (fun n => (w, n))
           (filter (fun n => n <> message_origin) neighbor_addresses)) /\
  (forall st incoming st' t,
     stamped_below st ->
     Forall (fun dm : bytes * ip_port =>
               extract_message_type (recvfrom MAX_SERVER_MESSAGE_SIZE dm.1)
               <> Some QUERY) incoming ->
     main database neighbor_addresses st incoming = Some (st', t) ->
     stamped_below st') /\
  stamped_below initial.
Proof.
  split; [|split; [|split]].
  - intros self calls i j qi qj. rewrite !new_queries_lookup.
    destruct (calls !! i); [|discriminate].
    destruct (calls !! j); [|discriminate].
    intros [= <-] [= <-] Hij. cbn. lia.
  - intros st datagram o text message_data query st' Hdb Ho Hst Hbelow
      Htype Htext.
    assert (Hfresh : content query ∉ queries_seen st).
    { intros Hin. specialize (Hbelow _ Hin). cbn in Hbelow. lia. }
    split; [exact Hfresh|]. split.
    { intros c Hin. cbn [st' queries_seen] in Hin.
      cbn [st' query_creator _next_sequence].
      apply elem_of_union in Hin as [Hin|Hin].
      - apply elem_of_singleton in Hin. subst c. cbn. lia.
      - specialize (Hbelow c Hin). lia. }
    pose proof (clireq_content_fits st o _ text Ho Hst Htext) as Hfit.
    destruct Hst as [Httl Hsq].
    rewrite (iteration_clireq _ _ st datagram o text Htype Htext).
    cbn [new_query fst snd]. rewrite Httl. fold query.
    destruct (handle_query_outcome database neighbor_addresses
                {| query_creator :=
                     {| _next_sequence := _next_sequence (query_creator st) + 1;
                        _initial_ttl := 3 |};
                   queries_seen := queries_seen st |}
                query o Hfresh Hfit ltac:(cbn; lia) Hdb)
      as (t & -> & Hqs & _ & _).
    destruct (pack_query_is_Some query Hfit ltac:(cbn; lia)) as [w Hw].
    rewrite Hw in Hqs. cbn [default from_option ttl] in Hqs.
    unfold id in Hqs.
    exists (log_received_clireq query :: t), w.
    split; [reflexivity|]. split; [exact Hw|].
    change (queries_sent (log_received_clireq query :: t))
      with (queries_sent t).
    rewrite Hqs. destruct neighbor_addresses; reflexivity.
  - intros st incoming. revert st.
    induction incoming as [|[d o] incoming IH]; intros st st' t Hst Hall.
    + intros [= <- _]. exact Hst.
    + apply Forall_cons in Hall as [Hd Hall]. cbn [fst] in Hd. cbn [main].
      destruct (iteration _ _ st d o) as [[st1 t1]|] eqn:Hrun;
        [|discriminate].
      cbn [bind].
      destruct (main _ _ st1 incoming) as [[st2 t2]|] eqn:Hrest;
        [|discriminate].
      intros [= <- _].
      eapply IH; [|exact Hall|exact Hrest].
      eapply iteration_stamped_below; eassumption.
  - intros c Hin. apply not_elem_of_empty in Hin. contradiction.
Qed.

End Fresh.

(** At A: the client sends its CLIREQ and sends it again; A stamps the
    second 1 and sends it on to B like the first. *)
Lemma clireq_stamped_afresh_witness :
  let clireq := Scenario.clireq_baz in
  let again :=
    {| content := {| key := Scenario.baz;
                     address := Scenario.client_address; sequence := 1 |};
       ttl := 3 |} in
  exists st1 t1 st2 t2 w1 w2,
    @iteration dotted_quad Scenario.A_database Scenario.A_neighbors initial
      clireq Scenario.client_address = Some (st1, t1) /\
    @iteration dotted_quad Scenario.A_database Scenario.A_neighbors st1
      clireq Scenario.client_address = Some (st2, t2) /\
    @pack_query dotted_quad Scenario.first_query = Some w1 /\
    @pack_query dotted_quad again = Some w2 /\
    queries_sent t1 = [(w1, Scenario.B_address)] /\
    queries_sent t2 = [(w2, Scenario.B_address)].
Proof.
  cbv zeta.
  destruct (@clireq_stamped_afresh dotted_quad Scenario.A_database
              Scenario.A_neighbors) as (_ & Hstep & _ & Hinit).
  destruct (Hstep initial Scenario.clireq_baz
              Scenario.client_address (Scenario.baz ++ [0])
              A_database_text client_socket_address initial_creator_ok
              Hinit eq_refl eq_refl)
    as (_ & Hbelow & t1 & w1 & Hrun1 & Hw1 & Hq1).
  match type of Hrun1 with
  | _ = Some (?st1, _) =>
      destruct (Hstep st1 Scenario.clireq_baz
                  Scenario.client_address (Scenario.baz ++ [0])
                  A_database_text client_socket_address
                  ltac:(split; [reflexivity | cbn; lia])
                  Hbelow eq_refl eq_refl)
        as (_ & _ & t2 & w2 & Hrun2 & Hw2 & Hq2)
  end.
  eexists. exists t1. eexists. exists t2, w1, w2.
  split; [exact Hrun1|]. split; [exact Hrun2|]. split; [exact Hw1|].
  split; [exact Hw2|]. split; [exact Hq1 | exact Hq2].
Defined.

(** C10 as stated fails: A has seen, in a QUERY that C passed on, the
    content of the client's query with sequence 0; the CLIREQ the client
    then sends to A is stamped 0 too and dropped as a duplicate, with
    nothing sent for it. *)
Lemma clireq_discarded_counterexample :
  @main dotted_quad Scenario.A_database Scenario.A_neighbors initial
    [(Scenario.packed_first_query, Scenario.C_address);
     (Scenario.clireq_baz, Scenario.client_address)]
  = Some ({| query_creator := {| _next_sequence := 1; _initial_ttl := 3 |};
             queries_seen := {[content Scenario.first_query]} ∪ ∅ |},
          [log_received_query Scenario.relayed_query;
           log_forwarding Scenario.B_address;
           sendto Scenario.packed_relayed_query Scenario.B_address;
           log_received_clireq Scenario.first_query;
           log_already_seen Scenario.first_query]).
Proof. run_both_sides. Qed.

End Claims.

(** * Further properties of the codec *)

Module CodecExtras.
Import Utils Servent CodecFacts LoopFacts.

Lemma encode_Some_encodable (s : str) (b : bytes) :
  Utf8.encode s = Some b -> Utf8.encodable s = true.
Proof.
  intros Hb. eapply Utf8Facts.decode_encodable, Utf8Facts.decode_encode, Hb.
Qed.

Lemma encode_ascii (s : str) :
  is_ascii s = true -> Utf8.encode s = Some (map byte_of_Z s).
Proof.
  induction s as [|c s IH]; cbn; intros Hs; [reflexivity|].
  apply andb_true_iff in Hs as [Hc Hs]. rewrite (IH Hs).
  unfold Utf8.encode_char, Utf8.is_scalar.
  replace ((0 <=? c) && (c <? 55296) || (57344 <=? c) && (c <=? 1114111))
    with true by lia.
  replace (c <? 128) with true by lia. reflexivity.
Qed.

Lemma is_ascii_app (s t : str) : is_ascii (s ++ t) = is_ascii s && is_ascii t.
Proof. apply forallb_app. Qed.

Lemma is_ascii_take (n : nat) (s : str) :
  is_ascii s = true -> is_ascii (take n s) = true.
Proof.
  revert n. induction s as [|c s IH]; intros [|n]; cbn; auto.
  intros Hs. apply andb_true_iff in Hs as [-> Hs]. cbn. auto.
Qed.

(** Every character takes one byte at least, and two when it is beyond
    the ASCII range. *)
Lemma encode_length_wide (s : str) (b : bytes) :
  Utf8.encode s = Some b -> (forall c, c ∈ s -> 128 <= c) ->
  (2 * length s <= length b)%nat.
Proof.
  revert b. induction s as [|c s IH]; intros b Hb Hs; cbn in Hb.
  - injection Hb as <-. cbn. lia.
  - destruct (Utf8.encode_char c) as [bc|] eqn:Hc; [|discriminate].
    destruct (Utf8.encode s) as [bs|]; [|discriminate].
    injection Hb as <-.
    assert (Hbc : (2 <= length bc)%nat).
    { assert (128 <= c) by (apply Hs; left).
      unfold Utf8.encode_char in Hc.
      destruct (negb _); [discriminate|].
      replace (c <? 128) with false in Hc by lia.
      destruct (c <? 2048); [injection Hc as <-; cbn; lia|].
      destruct (c <? 65536); injection Hc as <-; cbn; lia. }
    specialize (IH bs eq_refl ltac:(intros c' Hc'; apply Hs; right; exact Hc')).
    rewrite length_app. cbn [length]. lia.
Qed.

Lemma not_elem_of_take (x : Z) (n : nat) (s : str) : x ∉ s -> x ∉ take n s.
Proof. intros Hx Hin. apply Hx. exact (subseteq_take n s x Hin). Qed.

(** X1.  The type of a datagram is read exactly when the datagram starts
    with the two bytes of a type: 00 01, 00 02 or 00 03.  Anything
    shorter, or with other leading bytes, raises. *)
Theorem extract_message_type_spec (d : bytes) (t : MessageType) :
  extract_message_type d = Some t <->
  exists rest, d = Byte.x00 :: byte_of_Z (MessageType_value t) :: rest.
Proof.
  split.
  - destruct d as [|b0 [|b1 rest]]; try discriminate.
    unfold extract_message_type, unpack_type. cbn [take MESSAGE_TYPE_SIZE].
    cbn [Struct.unpack_H mbind option_bind].
    pose proof (byte_to_Z_range b0) as H0.
    pose proof (byte_to_Z_range b1) as H1.
    intros Ht. exists rest.
    assert (Hv : byte_to_Z b0 * 256 + byte_to_Z b1 = MessageType_value t).
    { destruct (byte_to_Z b0 * 256 + byte_to_Z b1) as [|[[|[]|]|[|[]|]|]|];
        try discriminate; injection Ht as <-; reflexivity. }
    assert (Hb0 : byte_to_Z b0 = 0) by (destruct t; cbn in Hv; lia).
    assert (Hb1 : byte_to_Z b1 = MessageType_value t) by lia.
    rewrite <- (byte_of_to_Z b0), <- (byte_of_to_Z b1), Hb0, Hb1.
    reflexivity.
  - intros [rest ->]. apply extract_message_type_tagged.
Qed.

(** X2.  A CLIREQ carries the first 40 characters of its key: whatever
    the length of a key that is text without NUL, packing succeeds and
    unpacking returns the key cut to [MAX_KEY_SIZE], with no error
    logged. *)
Theorem clireq_truncates_key (k : str) :
  Utf8.encodable k = true -> 0 ∉ k ->
  exists w, pack_clireq k = Some w /\
            unpack_clireq w = Some (take MAX_KEY_SIZE k, []).
Proof.
  intros Hk H0. destruct (pack_clireq_is_Some k Hk) as [w Hw].
  exists w. split; [exact Hw|].
  rewrite (unpack_pack_clireq _ _ Hw), rstrip_id; [reflexivity|].
  apply not_elem_of_take, H0.
Qed.

Lemma clireq_truncates_key_witness :
  exists w, pack_clireq (replicate 45 97) = Some w /\
            unpack_clireq w = Some (replicate 40 97, []).
Proof.
  apply (clireq_truncates_key (replicate 45 97)).
  - reflexivity.
  - intros Hin. apply elem_of_replicate in Hin as [Hin _]. discriminate.
Defined.

(** X3.  A RESPONSE carries the first 40 characters of the key and the
    first 160 of the value, with a tab between them. *)
Theorem response_truncates (k value : str) :
  Utf8.encodable k = true -> Utf8.encodable value = true ->
  0 ∉ k -> 0 ∉ value ->
  exists w, pack_response k value = Some w /\
            unpack_response w
            = Some (take MAX_KEY_SIZE k ++ 9 :: take MAX_VALUE_SIZE value,
                    []).
Proof.
  intros Hk Hv Hk0 Hv0.
  destruct (pack_response_is_Some k value Hk Hv) as [w Hw].
  exists w. split; [exact Hw|].
  rewrite (unpack_pack_response _ _ _ Hw), rstrip_id; [reflexivity|].
  rewrite elem_of_app, elem_of_cons. intros [Hin|[Hin|Hin]].
  - exact (not_elem_of_take _ _ _ Hk0 Hin).
  - discriminate.
  - exact (not_elem_of_take _ _ _ Hv0 Hin).
Qed.

Lemma response_truncates_witness :
  exists w, pack_response (replicate 45 97) (replicate 200 98) = Some w /\
            unpack_response w
            = Some (replicate 40 97 ++ 9 :: replicate 160 98, []).
Proof.
  apply (response_truncates (replicate 45 97) (replicate 200 98)).
  - reflexivity.
  - reflexivity.
  - intros Hin. apply elem_of_replicate in Hin as [Hin _]. discriminate.
  - intros Hin. apply elem_of_replicate in Hin as [Hin _]. discriminate.
Defined.

(** X4.  The two text messages are read leniently: [unpack_clireq] on a
    packed RESPONSE and [unpack_response] on a packed CLIREQ log the
    wrong type and return the text of the message all the same. *)
Theorem text_messages_read_across (k value : str) (w : bytes) :
  (pack_response k value = Some w ->
   unpack_clireq w
   = Some (rstrip 0 (take MAX_KEY_SIZE k ++ 9 :: take MAX_VALUE_SIZE value),
           [log_invalid_message CLIREQ RESPONSE])) /\
  (pack_clireq k = Some w ->
   unpack_response w
   = Some (rstrip 0 (take MAX_KEY_SIZE k),
           [log_invalid_message RESPONSE CLIREQ])).
Proof.
  split.
  - unfold pack_response. rewrite pack_type_value.
    destruct (Utf8.encode _) as [d|] eqn:Hd; [|discriminate].
    intros [= <-]. unfold unpack_clireq.
    change (extract_message_type _) with (Some RESPONSE).
    change (drop _ _) with d.
    rewrite (Utf8Facts.decode_encode _ _ Hd). run_M.
    change (take MAX_KEY_SIZE k ++ 9 :: take MAX_VALUE_SIZE value ++ [0])
      with (take MAX_KEY_SIZE k ++ (9 :: take MAX_VALUE_SIZE value) ++ [0]).
    rewrite app_assoc, rstrip_snoc. reflexivity.
  - unfold pack_clireq. rewrite pack_type_value.
    destruct (Utf8.encode _) as [d|] eqn:Hd; [|discriminate].
    intros [= <-]. unfold unpack_response.
    change (extract_message_type _) with (Some CLIREQ).
    change (drop _ _) with d.
    rewrite (Utf8Facts.decode_encode _ _ Hd). run_M.
    rewrite rstrip_snoc. reflexivity.
Qed.

Lemma text_messages_read_across_witness :
  unpack_response Scenario.clireq_baz
  = Some (Scenario.baz, [log_invalid_message RESPONSE CLIREQ]).
Proof.
  apply (text_messages_read_across Scenario.baz [] Scenario.clireq_baz).
  reflexivity.
Defined.

(** X5.  The RESPONSE does not escape the tab: a key with a tab in it and
    the key before the tab give the same datagram when the rest moves
    into the value, so the receiver cannot tell the two pairs apart. *)
Theorem response_tab_ambiguous (k v value : str) :
  (length k + 1 + length v <= MAX_KEY_SIZE)%nat ->
  (length v + 1 + length value <= MAX_VALUE_SIZE)%nat ->
  pack_response (k ++ 9 :: v) value = pack_response k (v ++ 9 :: value).
Proof.
  intros Hk Hv. unfold pack_response.
  rewrite (take_ge (k ++ 9 :: v)) by (rewrite length_app; cbn; lia).
  rewrite (take_ge k) by lia.
  rewrite (take_ge (v ++ 9 :: value)) by (rewrite length_app; cbn; lia).
  rewrite (take_ge value) by lia.
  cbn [app]. rewrite <- !app_assoc. reflexivity.
Qed.

Lemma response_tab_ambiguous_witness :
  pack_response (Scenario.foo ++ 9 :: Scenario.bar) Scenario.qux
  = pack_response Scenario.foo (Scenario.bar ++ 9 :: Scenario.qux).
Proof.
  apply (response_tab_ambiguous Scenario.foo Scenario.bar Scenario.qux);
    unfold MAX_KEY_SIZE, MAX_VALUE_SIZE; cbn; lia.
Defined.

Lemma encode_ascii_length (s : str) (b : bytes) :
  is_ascii s = true -> Utf8.encode s = Some b -> length b = length s.
Proof.
  intros Hs Hb. rewrite (encode_ascii s Hs) in Hb. injection Hb as <-.
  apply length_map.
Qed.

Lemma pack_type_length (t : MessageType) (b : bytes) :
  pack_type (MessageType_value t) = Some b -> length b = 2%nat.
Proof. rewrite pack_type_value. intros [= <-]. reflexivity. Qed.

Lemma take_bound (n : nat) (s : str) : (length (take n s) <= n)%nat.
Proof. rewrite length_take. apply Nat.le_min_l. Qed.

Lemma clireq_fits (k : str) (w : bytes) :
  is_ascii k = true -> pack_clireq k = Some w ->
  (length w <= CLIREQ_MESSAGE_SIZE)%nat /\
  recvfrom MAX_SERVER_MESSAGE_SIZE w = w.
Proof.
  intros Hk. unfold pack_clireq. rewrite pack_type_value.
  destruct (Utf8.encode _) as [d|] eqn:Hd; [|discriminate].
  intros [= <-].
  apply encode_ascii_length in Hd;
    [|rewrite is_ascii_app, is_ascii_take by exact Hk; reflexivity].
  rewrite length_app in Hd. cbn [length] in Hd.
  pose proof (take_bound MAX_KEY_SIZE k) as Hmin.
  assert (Hlen : (length ([Byte.x00; byte_of_Z (MessageType_value CLIREQ)]
                          ++ d) <= CLIREQ_MESSAGE_SIZE)%nat).
  { rewrite length_app. cbn [length].
    unfold CLIREQ_MESSAGE_SIZE, MESSAGE_TYPE_SIZE, MAX_KEY_SIZE in *. lia. }
  split; [exact Hlen|]. apply take_ge.
  eapply Nat.le_trans; [exact Hlen|]. vm_compute. lia.
Qed.

Lemma query_fits `{SocketLib} (q : Query) (w : bytes) :
  is_ascii (key (content q)) = true -> pack_query q = Some w ->
  (length w <= QUERY_MESSAGE_SIZE)%nat /\
  recvfrom MAX_SERVER_MESSAGE_SIZE w = w.
Proof.
  intros Hk. unfold pack_query.
  destruct (address (content q)) as [ip port].
  destruct (inet_aton ip) as [b|]; [|discriminate]. cbn [mbind option_bind].
  destruct (pack_query_header _ _ _ _ _) as [h|] eqn:Hh; [|discriminate].
  destruct (Utf8.encode _) as [d|] eqn:Hd; [|discriminate].
  cbn [mbind option_bind]. intros [= <-].
  apply unpack_pack_query_header in Hh as [Hh _].
  apply encode_ascii_length in Hd;
    [|rewrite is_ascii_app, is_ascii_take by exact Hk; reflexivity].
  rewrite length_app in Hd. cbn [length] in Hd.
  pose proof (take_bound MAX_KEY_SIZE (key (content q))) as Hmin.
  assert (Hlen : (length (h ++ d) <= QUERY_MESSAGE_SIZE)%nat).
  { rewrite length_app.
    unfold QUERY_MESSAGE_SIZE, QUERY_HEADER_SIZE, MESSAGE_TYPE_SIZE,
      MAX_KEY_SIZE in *. lia. }
  split; [exact Hlen|]. apply take_ge.
  eapply Nat.le_trans; [exact Hlen|]. vm_compute. lia.
Qed.

Lemma response_fits (k value : str) (w : bytes) :
  is_ascii k = true -> is_ascii value = true ->
  pack_response k value = Some w ->
  (length w <= RESPONSE_MESSAGE_SIZE)%nat /\
  take RESPONSE_MESSAGE_SIZE w = w.
Proof.
  intros Hk Hv. unfold pack_response. rewrite pack_type_value.
  destruct (Utf8.encode _) as [d|] eqn:Hd; [|discriminate].
  intros [= <-].
  apply encode_ascii_length in Hd;
    [|rewrite !is_ascii_app, !is_ascii_take by assumption; reflexivity].
  rewrite !length_app in Hd. cbn [length] in Hd.
  pose proof (take_bound MAX_KEY_SIZE k) as Hmin.
  pose proof (take_bound MAX_VALUE_SIZE value) as Hmin'.
  assert (Hlen : (length ([Byte.x00;
                           byte_of_Z (MessageType_value RESPONSE)] ++ d)
                  <= RESPONSE_MESSAGE_SIZE)%nat).
  { rewrite length_app. cbn [length].
    unfold RESPONSE_MESSAGE_SIZE, RESPONSE_DATA_SIZE, MESSAGE_TYPE_SIZE,
      MAX_KEY_SIZE, MAX_VALUE_SIZE in *. lia. }
  split; [exact Hlen|]. apply take_ge. exact Hlen.
Qed.

(** X6.  Messages of ASCII text fit the buffers they are received into: a
    packed CLIREQ has at most [CLIREQ_MESSAGE_SIZE] bytes and a packed
    QUERY at most [QUERY_MESSAGE_SIZE], so that the [recvfrom] of the
    servent hands them over whole, and a packed RESPONSE has at most
    [RESPONSE_MESSAGE_SIZE], the buffer of the client. *)
Theorem ascii_messages_fit `{SocketLib} :
  (forall k w,
     is_ascii k = true -> pack_clireq k = Some w ->
     (length w <= CLIREQ_MESSAGE_SIZE)%nat /\
     recvfrom MAX_SERVER_MESSAGE_SIZE w = w) /\
  (forall q w,
     is_ascii (key (content q)) = true -> pack_query q = Some w ->
     (length w <= QUERY_MESSAGE_SIZE)%nat /\
     recvfrom MAX_SERVER_MESSAGE_SIZE w = w) /\
  (forall k value w,
     is_ascii k = true -> is_ascii value = true ->
     pack_response k value = Some w ->
     (length w <= RESPONSE_MESSAGE_SIZE)%nat /\
     take RESPONSE_MESSAGE_SIZE w = w).
Proof.
  split; [exact clireq_fits|]. split; [exact query_fits | exact response_fits].
Qed.

Lemma ascii_messages_fit_witness :
  (length Scenario.clireq_baz <= CLIREQ_MESSAGE_SIZE)%nat /\
  recvfrom MAX_SERVER_MESSAGE_SIZE Scenario.packed_first_query
  = Scenario.packed_first_query.
Proof.
  destruct (@ascii_messages_fit dotted_quad) as (Hc & Hq & _).
  split.
  - apply (Hc Scenario.baz Scenario.clireq_baz); reflexivity.
  - apply (Hq Scenario.first_query Scenario.packed_first_query); reflexivity.
Defined.

(** X7.  [MAX_KEY_SIZE] counts characters, not bytes: a key of 21
    characters or more, none of them ASCII, packs into a CLIREQ of more
    than [CLIREQ_MESSAGE_SIZE] bytes and into a QUERY of more than
    [MAX_SERVER_MESSAGE_SIZE], of which the [recvfrom] of a servent drops
    the end. *)
Theorem wide_key_overflows `{SocketLib} :
  (forall k w,
     (forall c, c ∈ k -> 128 <= c) -> (21 <= length k)%nat ->
     pack_clireq k = Some w -> (CLIREQ_MESSAGE_SIZE < length w)%nat) /\
  (forall q w,
     (forall c, c ∈ key (content q) -> 128 <= c) ->
     (21 <= length (key (content q)))%nat ->
     pack_query q = Some w ->
     (MAX_SERVER_MESSAGE_SIZE < length w)%nat /\
     recvfrom MAX_SERVER_MESSAGE_SIZE w <> w).
Proof.
  assert (Hdata : forall k d,
    (forall c, c ∈ k -> 128 <= c) -> (21 <= length k)%nat ->
    Utf8.encode (take MAX_KEY_SIZE k ++ [0]) = Some d ->
    (43 <= length d)%nat).
  { intros k d Hk Hlen Hd.
    assert (Hsplit : exists dk, Utf8.encode (take MAX_KEY_SIZE k) = Some dk /\
                                length d = S (length dk)).
    { clear Hk Hlen. revert d Hd.
      induction (take MAX_KEY_SIZE k) as [|c s IH]; intros d Hd.
      - injection Hd as <-. exists []. split; reflexivity.
      - cbn in Hd.
        destruct (Utf8.encode_char c) as [bc|] eqn:Hc; [|discriminate].
        destruct (Utf8.encode (s ++ [0])) as [bs|]; [|discriminate].
        injection Hd as <-. destruct (IH bs eq_refl) as (dk & Hdk & Hl).
        exists (bc ++ dk). cbn [Utf8.encode]. rewrite Hc, Hdk.
        split; [reflexivity|]. rewrite !length_app, Hl. lia. }
    destruct Hsplit as (dk & Hdk & ->).
    apply encode_length_wide in Hdk.
    - unfold MAX_KEY_SIZE in Hdk.
      destruct (Nat.le_ge_cases 40 (length k)) as [Hge|Hle].
      + rewrite length_take_le in Hdk by exact Hge. lia.
      + rewrite take_ge in Hdk by exact Hle. lia.
    - intros c Hc. apply Hk. exact (subseteq_take _ _ _ Hc). }
  split.
  - intros k w Hk Hlen. unfold pack_clireq. rewrite pack_type_value.
    destruct (Utf8.encode _) as [d|] eqn:Hd; [|discriminate].
    intros [= <-]. specialize (Hdata k d Hk Hlen Hd).
    cbn [length app].
    unfold CLIREQ_MESSAGE_SIZE, MESSAGE_TYPE_SIZE, MAX_KEY_SIZE. lia.
  - intros q w Hk Hlen. unfold pack_query.
    destruct (address (content q)) as [ip port].
    destruct (inet_aton ip) as [b|]; [|discriminate]. cbn [mbind option_bind].
    destruct (pack_query_header _ _ _ _ _) as [h|] eqn:Hh; [|discriminate].
    destruct (Utf8.encode _) as [d|] eqn:Hd; [|discriminate].
    cbn [mbind option_bind]. intros [= <-].
    apply unpack_pack_query_header in Hh as [Hh _].
    specialize (Hdata _ d Hk Hlen Hd).
    assert (Hlong : (MAX_SERVER_MESSAGE_SIZE < length (h ++ d))%nat).
    { rewrite length_app. change MAX_SERVER_MESSAGE_SIZE with 55%nat.
      change QUERY_HEADER_SIZE with 14%nat in Hh. lia. }
    split; [exact Hlong|]. intros Heq.
    apply (f_equal length) in Heq. unfold recvfrom in Heq.
    rewrite length_take in Heq. lia.
Qed.

Lemma wide_key_overflows_witness :
  (CLIREQ_MESSAGE_SIZE
   < length ([x00; x01] ++ mjoin (replicate 21 [xc3; xa9]) ++ [x00]))%nat.
Proof.
  destruct (@wide_key_overflows dotted_quad) as [Hc _].
  apply (Hc (replicate 21 233)).
  - intros c Hin. apply elem_of_replicate in Hin as [-> _]. lia.
  - rewrite length_replicate. lia.
  - reflexivity.
Defined.

(** X8.  [pack_query] raises exactly when a field has no room in the
    header ([struct.error]), the ip is none [inet_aton] reads, or the
    first 40 characters of the key are not text. *)
Theorem pack_query_is_Some_iff `{SocketLib} (q : Query) :
  is_Some (pack_query q) <->
  is_Some (inet_aton (address (content q)).1) /\
  0 <= ttl q < 2 ^ 16 /\ 0 <= (address (content q)).2 < 2 ^ 16 /\
  0 <= sequence (content q) < 2 ^ 32 /\
  Utf8.encodable (take MAX_KEY_SIZE (key (content q))) = true.
Proof.
  destruct q as [[k [ip port] sq] l].
  cbn [content key address sequence ttl fst snd].
  unfold pack_query, pack_query_header.
  cbn [content key address sequence ttl].
  split.
  - intros [w Hw].
    destruct (inet_aton ip) as [b|]; [|discriminate].
    cbn [mbind option_bind] in Hw.
    change (Struct.pack_H (MessageType_value QUERY))
      with (Some [Byte.x00; Byte.x02]) in Hw.
    cbn [mbind option_bind] in Hw.
    destruct (Struct.pack_H l) as [bl|] eqn:Hl; [|discriminate].
    cbn [mbind option_bind] in Hw.
    destruct (Struct.pack_H port) as [bp|] eqn:Hp; [|discriminate].
    cbn [mbind option_bind] in Hw.
    destruct (Struct.pack_I sq) as [bs|] eqn:Hs; [|discriminate].
    cbn [mbind option_bind] in Hw.
    destruct (Utf8.encode _) as [d|] eqn:Hd; [|discriminate].
    split; [eexists; reflexivity|].
    split; [apply StructFacts.pack_H_range; eexists; exact Hl|].
    split; [apply StructFacts.pack_H_range; eexists; exact Hp|].
    split; [apply StructFacts.pack_I_range; eexists; exact Hs|].
    apply encode_Some_encodable in Hd.
    rewrite Utf8Facts.encodable_app in Hd.
    apply andb_true_iff in Hd as [Hd _]. exact Hd.
  - intros ([b ->] & Hl & Hp & Hs & Hk).
    apply StructFacts.pack_H_range in Hl as [bl ->], Hp as [bp ->].
    apply StructFacts.pack_I_range in Hs as [bs ->].
    destruct (Utf8Facts.encode_is_Some (take MAX_KEY_SIZE k ++ [0]))
      as [d ->].
    { rewrite Utf8Facts.encodable_app, Hk. reflexivity. }
    eexists; reflexivity.
Qed.

End CodecExtras.

(** * Further properties of the servent *)

Module EngineExtras.
Import Utils Servent CodecFacts LoopFacts.

Section Engine.
Context `{SocketLib} (Hlaw : inet_lawful).
Variable database : gmap str str.
Variable neighbor_addresses : list ip_port.

(** What an iteration that comes to its end has sent for a query: the
    packed query to neighbours, or nothing, and then the response, or
    nothing. *)
Lemma handle_query_sent (s s' : state) (q : Query) (o : ip_port)
    (t : list effect) :
  handle_query database neighbor_addresses s q o = Some (s', t) ->
  exists fw an,
    sent t = fw ++ an /\
    (fw = [] \/
     exists w, pack_query q = Some w /\ 0 < ttl q /\
               fw = map (fun n => (w, n))
                      (filter (fun n => n <> o) neighbor_addresses)) /\
    (an = [] \/
     exists value r, database !! key (content q) = Some value /\
                     pack_response (key (content q)) value = Some r /\
                     an = [(r, address (content q))]).
Proof.
  unfold handle_query. destruct (decide (content q ∈ queries_seen s)).
  { intros [= _ <-]. exists [], []. repeat split; left; reflexivity. }
  assert (Hfw : forall m : M unit,
    m = (if (0 <? ttl q) && nonempty neighbor_addresses
         then bind (lift (pack_query q))
                (fun packed_query =>
                   tell (forward neighbor_addresses packed_query o))
         else ret tt) ->
    forall u tf, m = Some (u, tf) ->
    sent tf = [] \/
    exists w, pack_query q = Some w /\ 0 < ttl q /\
              sent tf = map (fun n => (w, n))
                          (filter (fun n => n <> o) neighbor_addresses)).
  { intros m -> u tf. destruct ((0 <? ttl q) && _) eqn:Hc.
    - apply andb_true_iff in Hc as [Hpos _].
      destruct (pack_query q) as [w|] eqn:Hw; [|discriminate]. cbn.
      intros [= _ <-]. right. exists w. split; [reflexivity|].
      split; [lia|]. rewrite ?app_nil_r. apply sent_forward.
    - intros [= _ <-]. left. reflexivity. }
  assert (Han : forall m : M unit,
    m = match database !! key (content q) with
        | Some value =>
            bind (lift (pack_response (key (content q)) value))
              (fun response =>
                 tell [log_sending_response (address (content q));
                       sendto response (address (content q))])
        | None => ret tt
        end ->
    forall u ta, m = Some (u, ta) ->
    sent ta = [] \/
    exists value r, database !! key (content q) = Some value /\
                    pack_response (key (content q)) value = Some r /\
                    sent ta = [(r, address (content q))]).
  { intros m -> u ta.
    destruct (database !! key (content q)) as [value|] eqn:Hv.
    - destruct (pack_response _ _) as [r|] eqn:Hr; [|discriminate]. cbn.
      intros [= _ <-]. right. exists value, r. repeat split. exact Hr.
    - intros [= _ <-]. left. reflexivity. }
  match goal with
  | |- bind ?m1 (fun _ => bind ?m2 _) = _ -> _ =>
      specialize (Hfw m1 eq_refl); specialize (Han m2 eq_refl);
      destruct m1 as [[u1 tf]|]; [|discriminate];
      destruct m2 as [[u2 ta]|]; [|discriminate]
  end.
  cbn. intros [= _ <-]. rewrite app_nil_r, sent_app.
  exists (sent tf), (sent ta). split; [reflexivity|]. split.
  - destruct (Hfw _ _ eq_refl) as [Hf|(w & Hw & Hpos & Hf)];
      [left; exact Hf | right; exists w; auto].
  - destruct (Han _ _ eq_refl) as [Ha|(value & r & Hv & Hr & Ha)];
      [left; exact Ha | right; exists value, r; auto].
Qed.

(** What an iteration has sent: nothing for a RESPONSE, and for a CLIREQ
    or a QUERY what was sent for the query made of it. *)
Lemma iteration_sent (st st' : state) (d : bytes) (o : ip_port)
    (t : list effect) :
  iteration database neighbor_addresses st d o = Some (st', t) ->
  sent t = [] \/
  exists s s' q t',
    handle_query database neighbor_addresses s q o = Some (s', t') /\
    sent t = sent t' /\
    (unpack_query (recvfrom MAX_SERVER_MESSAGE_SIZE d) = Some (q, []) \/
     extract_message_type (recvfrom MAX_SERVER_MESSAGE_SIZE d)
     = Some CLIREQ /\ address (content q) = o).
Proof.
  unfold iteration. cbv zeta.
  destruct (extract_message_type _) as [[| |]|] eqn:Htype;
    cbn [lift bind ret]; [| |intros [= _ <-]; left; reflexivity|discriminate].
  - destruct (unpack_clireq _) as [[k tk]|] eqn:Hk; [|discriminate].
    cbn [bind]. unfold new_query. cbn [tell bind].
    destruct (handle_query _ _ _ _ _) as [[s' t']|] eqn:Hs; [|discriminate].
    intros [= _ <-]. right. do 4 eexists. split; [exact Hs|]. split.
    + unfold unpack_clireq in Hk. rewrite Htype in Hk.
      destruct (Utf8.decode _); [|discriminate]. injection Hk as _ <-.
      reflexivity.
    + right. split; reflexivity.
  - destruct (unpack_query _) as [[q tq]|] eqn:Hq; [|discriminate].
    cbn [bind tell].
    destruct (handle_query _ _ _ _ _) as [[s' t']|] eqn:Hs; [|discriminate].
    intros [= _ <-]. right.
    destruct (unpack_query_inv Hlaw _ _ _ Hq) as (_ & _ & (mt & Hmt & ->) & _).
    rewrite Htype in Hmt. injection Hmt as <-.
    do 4 eexists. split; [exact Hs|]. split; [reflexivity|].
    left. reflexivity.
Qed.

Lemma length_filter_le {A} (P : A -> Prop) `{forall x, Decision (P x)}
    (l : list A) :
  (length (filter P l) <= length l)%nat.
Proof.
  induction l as [|x l IH]; [reflexivity|].
  rewrite filter_cons. destruct (decide (P x)); cbn; lia.
Qed.

(** X9.  One datagram makes a servent send at most one datagram to each
    neighbour and one more: each datagram sent is a QUERY to a neighbour
    other than the sender, or the single RESPONSE. *)
Theorem iteration_fan_out (st st' : state) (datagram : bytes)
    (message_origin : ip_port) (t : list effect) :
  iteration database neighbor_addresses st datagram message_origin
  = Some (st', t) ->
  (length (sent t) <= length neighbor_addresses + 1)%nat /\
  (length (responses_sent t) <= 1)%nat /\
  forall w a, (w, a) ∈ sent t ->
    (extract_message_type w = Some QUERY /\
     a ∈ neighbor_addresses /\ a <> message_origin) \/
    extract_message_type w = Some RESPONSE.
Proof.
  intros Hrun.
  destruct (iteration_sent _ _ _ _ _ Hrun)
    as [Hnil|(s & s' & q & t' & Hs & Hsent & _)].
  { unfold responses_sent. rewrite Hnil. cbn. repeat split; try lia.
    intros w a Hin. apply elem_of_nil in Hin. contradiction. }
  destruct (handle_query_sent _ _ _ _ _ Hs) as (fw & an & Ht' & Hfw & Han).
  assert (Hfwl : (length fw <= length neighbor_addresses)%nat /\
                 filter (fun da : bytes * ip_port =>
                           extract_message_type da.1 = Some RESPONSE) fw = []
                 /\ forall w a, (w, a) ∈ fw ->
                      extract_message_type w = Some QUERY /\
                      a ∈ neighbor_addresses /\ a <> message_origin).
  { destruct Hfw as [->|(w & Hw & _ & ->)].
    - split; [cbn; lia|]. split; [reflexivity|].
      intros w a Hin. apply elem_of_nil in Hin. contradiction.
    - destruct (pack_query_inv _ _ Hw) as (Htag & _).
      split; [rewrite length_map; apply length_filter_le|].
      split.
      + rewrite (filter_tagged QUERY RESPONSE) by exact Htag.
        destruct (decide (QUERY = RESPONSE)); [discriminate | reflexivity].
      + intros w' a Hin.
        apply list_elem_of_In, in_map_iff in Hin as (n & [= <- <-] & Hn).
        apply list_elem_of_In, list_elem_of_filter in Hn as [Hn Hin].
        split; [exact Htag|]. split; assumption. }
  destruct Hfwl as (Hfwl & Hfwr & Hfwd).
  assert (Hanl : (length an <= 1)%nat /\
                 forall w a, (w, a) ∈ an ->
                   extract_message_type w = Some RESPONSE).
  { destruct Han as [->|(value & r & _ & Hr & ->)].
    - split; [cbn; lia|].
      intros w a Hin. apply elem_of_nil in Hin. contradiction.
    - split; [cbn; lia|]. intros w a Hin.
      apply list_elem_of_singleton in Hin. injection Hin as -> ->.
      exact (extract_message_type_response _ _ _ Hr). }
  destruct Hanl as [Hanl Hand].
  unfold responses_sent. rewrite Hsent, Ht'. split; [|split].
  - rewrite length_app. lia.
  - rewrite filter_app, Hfwr. cbn [app].
    etransitivity; [apply length_filter_le | exact Hanl].
  - intros w a Hin. apply elem_of_app in Hin as [Hin|Hin].
    + left. exact (Hfwd w a Hin).
    + right. exact (Hand w a Hin).
Qed.

Lemma rstrip_idem (ch : Z) (s : str) : rstrip ch (rstrip ch s) = rstrip ch s.
Proof.
  induction s as [|c s IH]; [reflexivity|]. cbn [rstrip].
  destruct (rstrip ch s) as [|c' r] eqn:Hr.
  - destruct (Z.eqb_spec c ch) as [->|Hne]; [reflexivity|].
    cbn. destruct (Z.eqb_spec c ch); [contradiction | reflexivity].
  - cbn [rstrip]. cbn [rstrip] in IH. rewrite IH. reflexivity.
Qed.

(** X10.  Each hop uses up one unit of the ttl: of a QUERY that arrives
    with [n] in its ttl field and is no duplicate, the servent sends on
    only queries with [n - 1] in the field and the same sequence, and
    none at all when [n] is 1 or less. *)
Theorem query_hop (st : state) (datagram : bytes) (message_origin : ip_port)
    (query : Query) :
  let message_data := recvfrom MAX_SERVER_MESSAGE_SIZE datagram in
  database_text database ->
  unpack_query message_data = Some (query, []) ->
  content query ∉ queries_seen st ->
  exists st' t n,
    iteration database neighbor_addresses st datagram message_origin
    = Some (st', t) /\
    wire_ttl message_data = Some n /\ ttl query = n - 1 /\
    (n <= 1 -> queries_sent t = []) /\
    forall w a, (w, a) ∈ queries_sent t ->
      wire_ttl w = Some (n - 1) /\
      wire_sequence w = wire_sequence message_data.
Proof.
  intros message_data Hdb Hq Hfresh.
  destruct (unpack_query_inv Hlaw _ _ _ Hq)
    as (_ & _ & _ & Hfit & Httl & Hwttl & Hwsq).
  destruct (handle_query_outcome database neighbor_addresses st query
              message_origin Hfresh Hfit ltac:(lia) Hdb)
    as (t & Hrun & Hqs & _ & _).
  rewrite (iteration_query Hlaw _ _ st datagram message_origin query Hq).
  rewrite Hrun. do 2 eexists. exists (ttl query + 1).
  split; [reflexivity|]. split; [exact Hwttl|]. split; [lia|].
  change (queries_sent (log_received_query query :: t))
    with (queries_sent t).
  rewrite Hqs. split.
  - intros Hn. replace (0 <? ttl query) with false by lia. reflexivity.
  - intros w a Hin. destruct ((0 <? ttl query) && _) eqn:Hc;
      [|apply elem_of_nil in Hin; contradiction].
    apply andb_true_iff in Hc as [Hpos _].
    destruct (pack_query_is_Some query Hfit ltac:(lia)) as [w' Hw'].
    rewrite Hw' in Hin. cbn [default from_option] in Hin. unfold id in Hin.
    apply list_elem_of_In, in_map_iff in Hin as (n & [= <- <-] & _).
    destruct (pack_query_inv _ _ Hw') as (_ & Hwt & _ & Hws & _).
    rewrite Hwt. fold message_data. rewrite Hwsq, Hws.
    split; [f_equal; lia | reflexivity].
Qed.

(** X11.  Forwarding keeps the identity of a query: when the key of a
    QUERY that arrives has at most 40 characters, the queries the servent
    sends on unpack to the same content, with one hop fewer, so that
    every servent on the way tests the same content for a duplicate. *)
Theorem forwarding_keeps_content (st : state) (datagram : bytes)
    (message_origin : ip_port) (query : Query) :
  database_text database ->
  unpack_query (recvfrom MAX_SERVER_MESSAGE_SIZE datagram)
  = Some (query, []) ->
  content query ∉ queries_seen st ->
  (length (key (content query)) <= MAX_KEY_SIZE)%nat ->
  exists st' t,
    iteration database neighbor_addresses st datagram message_origin
    = Some (st', t) /\
    forall w a, (w, a) ∈ queries_sent t ->
      unpack_query w
      = Some ({| content := content query; ttl := ttl query - 1 |}, []).
Proof.
  intros Hdb Hq Hfresh Hlen.
  destruct (unpack_query_inv Hlaw _ _ _ Hq)
    as (_ & _ & _ & Hfit & Httl & _).
  destruct (handle_query_outcome database neighbor_addresses st query
              message_origin Hfresh Hfit ltac:(lia) Hdb)
    as (t & Hrun & Hqs & _ & _).
  rewrite (iteration_query Hlaw _ _ st datagram message_origin query Hq).
  rewrite Hrun. do 2 eexists. split; [reflexivity|].
  change (queries_sent (log_received_query query :: t))
    with (queries_sent t).
  rewrite Hqs. intros w a Hin. destruct ((0 <? ttl query) && _) eqn:Hc;
    [|apply elem_of_nil in Hin; contradiction].
  apply andb_true_iff in Hc as [Hpos _].
  destruct (pack_query_is_Some query Hfit ltac:(lia)) as [w' Hw'].
  rewrite Hw' in Hin. cbn [default from_option] in Hin. unfold id in Hin.
  apply list_elem_of_In, in_map_iff in Hin as (n & [= <- <-] & _).
  destruct (unpack_pack_query Hlaw _ _ Hw') as (b & ip' & Hb & Hip & ->).
  rewrite take_ge by exact Hlen.
  (* the key and the ip are as [unpack_query] made them *)
  revert Hq. unfold unpack_query.
  destruct (unpack_query_header _) as [[[[[mt l] ipb] p] sq]|] eqn:Hh;
    [|discriminate].
  destruct (Utf8.decode _) as [text|]; [|discriminate]. run_M.
  destruct (inet_ntoa ipb) as [ip|] eqn:Hn; [|discriminate]. run_M.
  destruct (MessageType_of_value mt) as [[| |]|]; try discriminate.
  cbn. intros [= <-]. cbn in Hb, Hip |- *.
  destruct (unpack_query_header_inv _ _ _ _ _ _ Hh) as (_ & Hipb & _).
  rewrite (inet_ntoa_aton Hlaw _ _ Hipb Hn) in Hb. injection Hb as <-.
  rewrite Hn in Hip. injection Hip as <-.
  rewrite rstrip_idem. reflexivity.
Qed.

(** X12.  The set of seen queries only grows, by one content a datagram
    at most: after any run of the loop it holds all it held before, and
    no more new contents than datagrams arrived. *)
Theorem seen_set_grows (st st' : state) (incoming : list (bytes * ip_port))
    (t : list effect) :
  main database neighbor_addresses st incoming = Some (st', t) ->
  queries_seen st ⊆ queries_seen st' /\
  (size (queries_seen st') <= size (queries_seen st) + length incoming)%nat.
Proof.
  revert st st' t.
  assert (Hstep : forall s s' d o t,
    iteration database neighbor_addresses s d o = Some (s', t) ->
    queries_seen s ⊆ queries_seen s' /\
    (size (queries_seen s') <= size (queries_seen s) + 1)%nat).
  { assert (Hh : forall s s' q o t,
      handle_query database neighbor_addresses s q o = Some (s', t) ->
      queries_seen s ⊆ queries_seen s' /\
      (size (queries_seen s') <= size (queries_seen s) + 1)%nat).
    { intros s s' q o t. unfold handle_query.
      destruct (decide (content q ∈ queries_seen s)).
      - intros [= <- _]. split; [reflexivity | lia].
      - intros Hrun.
        assert (Hs : queries_seen s' = {[content q]} ∪ queries_seen s).
        { revert Hrun.
          destruct ((0 <? ttl q) && nonempty neighbor_addresses);
            destruct (pack_query q); destruct (database !! key (content q));
            try destruct (pack_response _ _); cbn; intros [= <- _];
            reflexivity. }
        rewrite Hs. split; [apply union_subseteq_r|].
        rewrite size_union_alt, size_singleton.
        pose proof (subseteq_size (queries_seen s ∖ {[content q]})
                      (queries_seen s)
                      ltac:(apply subseteq_difference_l; reflexivity)).
        lia. }
    intros s s' d o t. unfold iteration. cbv zeta.
    destruct (extract_message_type _) as [[| |]|]; cbn [lift bind ret];
      [| |intros [= <- _]; split; [reflexivity | lia]|discriminate].
    - destruct (unpack_clireq _) as [[k tk]|]; [|discriminate]. cbn [bind].
      unfold new_query. cbn [tell bind].
      destruct (handle_query _ _ _ _ _) as [[s1 t1]|] eqn:Hs; [|discriminate].
      intros [= <- _]. exact (Hh _ _ _ _ _ Hs).
    - destruct (unpack_query _) as [[q tq]|]; [|discriminate].
      cbn [bind tell].
      destruct (handle_query _ _ _ _ _) as [[s1 t1]|] eqn:Hs; [|discriminate].
      intros [= <- _]. exact (Hh _ _ _ _ _ Hs). }
  induction incoming as [|[d o] incoming IH]; intros st st' t.
  - intros [= <- _]. split; [reflexivity | cbn; lia].
  - cbn [main].
    destruct (iteration _ _ st d o) as [[st1 t1]|] eqn:Hrun; [|discriminate].
    cbn [bind].
    destruct (main _ _ st1 incoming) as [[st2 t2]|] eqn:Hrest;
      [|discriminate].
    intros [= <- _]. destruct (Hstep _ _ _ _ _ Hrun) as [Hsub Hsize].
    destruct (IH _ _ _ Hrest) as [Hsub' Hsize']. split.
    + etransitivity; eassumption.
    + cbn [length]. lia.
Qed.

(** X13.  The counter moves by one for every CLIREQ the loop reads, a
    duplicate included, and for nothing else; the initial ttl of the
    creator never changes. *)
Theorem counter_counts_clireqs (st st' : state)
    (incoming : list (bytes * ip_port)) (t : list effect) :
  main database neighbor_addresses st incoming = Some (st', t) ->
  _next_sequence (query_creator st')
  = _next_sequence (query_creator st)
    + Z.of_nat (length (filter
        (fun dm : bytes * ip_port =>
           extract_message_type (recvfrom MAX_SERVER_MESSAGE_SIZE dm.1)
           = Some CLIREQ) incoming)) /\
  _initial_ttl (query_creator st') = _initial_ttl (query_creator st).
Proof.
  revert st st' t.
  induction incoming as [|[d o] incoming IH]; intros st st' t.
  - intros [= <- _]. cbn. split; [lia | reflexivity].
  - cbn [main].
    destruct (iteration _ _ st d o) as [[st1 t1]|] eqn:Hrun; [|discriminate].
    cbn [bind].
    destruct (main _ _ st1 incoming) as [[st2 t2]|] eqn:Hrest;
      [|discriminate].
    intros [= <- _]. destruct (IH _ _ _ Hrest) as [Hsq Httl].
    rewrite Hsq, Httl, filter_cons. cbn [fst]. clear IH Hrest Hsq Httl.
    revert Hrun. unfold iteration. cbv zeta.
    destruct (extract_message_type _) as [[| |]|]; cbn [lift bind ret];
      [| |intros [= <- _]|discriminate].
    + destruct (unpack_clireq _) as [[k tk]|]; [|discriminate]. cbn [bind].
      unfold new_query. cbn [tell bind].
      destruct (handle_query _ _ _ _ _) as [[s1 u1]|] eqn:Hs; [|discriminate].
      apply Claims.handle_query_state in Hs as [Hc _]. intros [= <- _].
      rewrite Hc.
      destruct (decide (Some CLIREQ = Some CLIREQ)); [|congruence].
      cbn [query_creator _next_sequence _initial_ttl length].
      split; [lia | reflexivity].
    + destruct (unpack_query _) as [[q tq]|]; [|discriminate].
      cbn [bind tell].
      destruct (handle_query _ _ _ _ _) as [[s1 u1]|] eqn:Hs; [|discriminate].
      apply Claims.handle_query_state in Hs as [Hc _]. intros [= <- _].
      rewrite Hc.
      destruct (decide (Some QUERY = Some CLIREQ)); [discriminate|].
      split; [lia | reflexivity].
    + destruct (decide (Some RESPONSE = Some CLIREQ)); [discriminate|].
      split; [lia | reflexivity].
Qed.

End Engine.

Lemma iteration_fan_out_witness :
  (length (sent [log_received_clireq Scenario.first_query;
                 log_forwarding Scenario.B_address;
                 sendto Scenario.packed_first_query Scenario.B_address])
   <= length Scenario.A_neighbors + 1)%nat.
Proof.
  apply (@iteration_fan_out dotted_quad dotted_quad_lawful
           Scenario.A_database Scenario.A_neighbors initial
           {| query_creator := {| _next_sequence := 1; _initial_ttl := 3 |};
              queries_seen := {[content Scenario.first_query]} ∪ ∅ |}
           Scenario.clireq_baz Scenario.client_address).
  Claims.run_both_sides.
Defined.

(** At B, with neighbours A and C: the query arrives from A with 3 in
    its ttl field and goes on with 2. *)
Lemma query_hop_witness :
  exists st' t n,
    @iteration dotted_quad Scenario.B_database
      [Scenario.A_address; Scenario.C_address] initial
      Scenario.packed_first_query Scenario.A_address = Some (st', t) /\
    wire_ttl (recvfrom MAX_SERVER_MESSAGE_SIZE Scenario.packed_first_query)
    = Some n /\
    ttl Scenario.relayed_query = n - 1 /\
    (n <= 1 -> queries_sent t = []) /\
    forall w a, (w, a) ∈ queries_sent t ->
      wire_ttl w = Some (n - 1) /\
      wire_sequence w
      = wire_sequence
          (recvfrom MAX_SERVER_MESSAGE_SIZE Scenario.packed_first_query).
Proof.
  apply (@query_hop dotted_quad dotted_quad_lawful Scenario.B_database
           [Scenario.A_address; Scenario.C_address] initial
           Scenario.packed_first_query Scenario.A_address
           Scenario.relayed_query).
  - exact Claims.B_database_text.
  - reflexivity.
  - apply not_elem_of_empty.
Defined.

Lemma forwarding_keeps_content_witness :
  exists st' t,
    @iteration dotted_quad Scenario.B_database
      [Scenario.A_address; Scenario.C_address] initial
      Scenario.packed_first_query Scenario.A_address = Some (st', t) /\
    forall w a, (w, a) ∈ queries_sent t ->
      @unpack_query dotted_quad w
      = Some ({| content := content Scenario.relayed_query; ttl := 1 |}, []).
Proof.
  apply (@forwarding_keeps_content dotted_quad dotted_quad_lawful
           Scenario.B_database [Scenario.A_address; Scenario.C_address]
           initial Scenario.packed_first_query Scenario.A_address
           Scenario.relayed_query).
  - exact Claims.B_database_text.
  - reflexivity.
  - apply not_elem_of_empty.
  - unfold MAX_KEY_SIZE. cbn. lia.
Defined.

(** The run of A on the query C passes on and on the request of the
    client, with the state and the trace it ends in. *)
Lemma run_of_A :
  @main dotted_quad Scenario.A_database Scenario.A_neighbors initial
    [(Scenario.packed_first_query, Scenario.C_address);
     (Scenario.clireq_baz, Scenario.client_address)]
  = Some ({| query_creator := {| _next_sequence := 1; _initial_ttl := 3 |};
             queries_seen := {[content Scenario.first_query]} ∪ ∅ |},
          [log_received_query Scenario.relayed_query;
           log_forwarding Scenario.B_address;
           sendto Scenario.packed_relayed_query Scenario.B_address;
           log_received_clireq Scenario.first_query;
           log_already_seen Scenario.first_query]).
Proof. Claims.run_both_sides. Qed.

Lemma seen_set_grows_witness :
  queries_seen initial ⊆ {[content Scenario.first_query]} ∪ ∅ /\
  (size ({[content Scenario.first_query]} ∪ (∅ : gset QueryContent))
   <= size (queries_seen initial) + 2)%nat.
Proof.
  exact (@seen_set_grows dotted_quad Scenario.A_database
           Scenario.A_neighbors _ _ _ _ run_of_A).
Defined.

Lemma counter_counts_clireqs_witness :
  let st' :=
    {| query_creator := {| _next_sequence := 1; _initial_ttl := 3 |};
       queries_seen := {[content Scenario.first_query]} ∪ ∅ |} in
  _next_sequence (query_creator st')
  = _next_sequence (query_creator initial)
    + Z.of_nat (length (filter
        (fun dm : bytes * ip_port =>
           extract_message_type (recvfrom MAX_SERVER_MESSAGE_SIZE dm.1)
           = Some CLIREQ)
        [(Scenario.packed_first_query, Scenario.C_address);
         (Scenario.clireq_baz, Scenario.client_address)])) /\
  _initial_ttl (query_creator st') = _initial_ttl (query_creator initial).
Proof.
  exact (@counter_counts_clireqs dotted_quad Scenario.A_database
           Scenario.A_neighbors _ _ _ _ run_of_A).
Defined.

End EngineExtras.

(** * Properties of the client *)

Module ClientExtras.
Import Utils Client.

(** The loop of the second [try], call by call. *)
Lemma receive_until_timeout_eq (client_socket : list arrival) :
  receive_until_timeout client_socket
  = match recv_and_print_response client_socket with
    | Some (returned, t, rest) =>
        match receive_until_timeout rest with
        | Some t' => Some (t ++ t')
        | None => None
        end
    | Some (timed_out, t, _) => Some (t ++ [log_timeout_stop])
    | None => None
    end.
Proof.
  destruct client_socket as [|[[d a]|] rest]; [reflexivity| |reflexivity].
  cbn [receive_until_timeout]. unfold recv_and_print_response.
  cbn [recvfrom]. destruct (unpack_response _) as [[value records]|];
    reflexivity.
Qed.

Lemma client_sent_app (t t' : list effect) :
  sent (t ++ t') = sent t ++ sent t'.
Proof. unfold sent. apply flat_map_app. Qed.

Lemma printed_app (t t' : list effect) :
  printed (t ++ t') = printed t ++ printed t'.
Proof. unfold printed. apply flat_map_app. Qed.

Lemma sent_logs (records : list Utils.effect) : sent (map log records) = [].
Proof. induction records; [reflexivity | assumption]. Qed.

Lemma printed_logs (records : list Utils.effect) :
  printed (map log records) = [].
Proof. induction records; [reflexivity | assumption]. Qed.

(** One datagram read: the call returns when the datagram unpacks, and
    prints its line. *)
Lemma recv_and_print_datagram (da : bytes * ip_port)
    (rest : list arrival) :
  recv_and_print_response (Some da :: rest)
  = match unpack_response (take RESPONSE_MESSAGE_SIZE da.1) with
    | Some (value, records) =>
        Some (returned,
              map log records ++ [print (response_line da.2 value)], rest)
    | None => None
    end.
Proof. destruct da as [d a]. reflexivity. Qed.

Lemma receive_until_timeout_spec (client_socket : list arrival) :
  (is_Some (receive_until_timeout client_socket) <->
   Forall (fun da => is_Some (shown da)) (until_timeout client_socket)) /\
  forall t, receive_until_timeout client_socket = Some t ->
    sent t = [] /\
    Forall2 (fun da line => shown da = Some line)
      (until_timeout client_socket) (printed t).
Proof.
  induction client_socket as [|[da|] rest IH].
  - split; [split; [constructor | eexists; reflexivity]|].
    intros t [= <-]. split; [reflexivity | constructor].
  - destruct IH as [IHs IHt].
    cbn [receive_until_timeout until_timeout].
    rewrite recv_and_print_datagram.
    assert (Hsh : shown da
                  = match unpack_response (take RESPONSE_MESSAGE_SIZE da.1)
                    with
                    | Some (value, _) => Some (response_line da.2 value)
                    | None => None
                    end) by reflexivity.
    destruct (unpack_response _) as [[value records]|].
    + split.
      * rewrite Forall_cons, Hsh. split.
        -- intros [t Ht].
           destruct (receive_until_timeout rest) as [t'|]; [|discriminate].
           split; [eexists; reflexivity | apply IHs; eexists; reflexivity].
        -- intros [_ Hrest]. apply IHs in Hrest as [t' ->].
           eexists; reflexivity.
      * intros t Ht.
        destruct (receive_until_timeout rest) as [t'|]; [|discriminate].
        injection Ht as <-. destruct (IHt t' eq_refl) as [Hs Hp].
        rewrite !client_sent_app, !printed_app, sent_logs, printed_logs, Hs.
        split; [reflexivity|]. cbn [app printed flat_map].
        constructor; [exact Hsh | exact Hp].
    + split; [|discriminate]. split; [intros [t [=]]|].
      intros Hall. apply Forall_cons in Hall as [[line Hl] _].
      rewrite Hsh in Hl. discriminate.
  - split; [split; [constructor | eexists; reflexivity]|].
    cbn. intros t [= <-]. split; [reflexivity | constructor].
Qed.

(** X14.  A lookup sends its CLIREQ once, to the servent, and a second
    time exactly when the first wait times out; it sends nothing else,
    however many responses arrive. *)
Theorem lookup_sends (address : ip_port) (query : str)
    (client_socket : list arrival) (t : list effect) :
  lookup address query client_socket = Some t ->
  exists clireq,
    pack_clireq query = Some clireq /\
    sent t = if times_out_first client_socket
             then [(clireq, address); (clireq, address)]
             else [(clireq, address)].
Proof.
  unfold lookup. destruct (pack_clireq query) as [clireq|]; [|discriminate].
  intros Ht. exists clireq. split; [reflexivity|]. revert Ht.
  destruct client_socket as [|[da|] rest].
  - cbn. intros [= <-]. reflexivity.
  - rewrite recv_and_print_datagram.
    destruct (unpack_response _) as [[value records]|]; [|discriminate].
    destruct (receive_until_timeout rest) as [t'|] eqn:Hrest; [|discriminate].
    intros [= <-].
    destruct (proj2 (receive_until_timeout_spec rest) t' Hrest) as [Hs _].
    cbn [app sent flat_map times_out_first].
    fold (sent ((map log records ++ [print (response_line da.2 value)])
                ++ t')).
    rewrite !client_sent_app, sent_logs, Hs. reflexivity.
  - cbn [recv_and_print_response recvfrom].
    destruct (receive_until_timeout rest) as [t'|] eqn:Hrest; [|discriminate].
    intros [= <-].
    destruct (proj2 (receive_until_timeout_spec rest) t' Hrest) as [Hs _].
    cbn [app sent flat_map times_out_first]. fold (sent t').
    rewrite Hs. reflexivity.
Qed.

Lemma lookup_sends_witness :
  exists clireq,
    pack_clireq Scenario.baz = Some clireq /\
    sent [print querying; sendto Scenario.clireq_baz Scenario.A_address;
          log_timeout_trying_again;
          sendto Scenario.clireq_baz Scenario.A_address; log_timeout_stop]
    = [(clireq, Scenario.A_address); (clireq, Scenario.A_address)].
Proof.
  apply (lookup_sends Scenario.A_address Scenario.baz [None] _ eq_refl).
Defined.

(** X15.  A lookup comes to its end exactly when the key is text and
    every datagram it reads unpacks; it then has printed, after its
    first line, one line for each datagram that arrived before the wait
    that ended it, in the order of arrival, whoever sent it.  What arrives
    later is never read. *)
Theorem lookup_prints (address : ip_port) (query : str)
    (client_socket : list arrival) :
  (is_Some (lookup address query client_socket) <->
   is_Some (pack_clireq query) /\
   Forall (fun da => is_Some (shown da)) (heard client_socket)) /\
  forall t, lookup address query client_socket = Some t ->
    exists lines,
      printed t = querying :: lines /\
      Forall2 (fun da line => shown da = Some line)
        (heard client_socket) lines.
Proof.
  unfold lookup. destruct (pack_clireq query) as [clireq|];
    [|split; [split; [intros [t [=]] | intros [[c [=]] _]] | discriminate]].
  destruct client_socket as [|[da|] rest].
  - split; [split; [intros _; split; [eexists; reflexivity | constructor]
                   | intros _; eexists; reflexivity]|].
    cbn. intros t [= <-]. exists []. split; [reflexivity | constructor].
  - rewrite recv_and_print_datagram.
    destruct (receive_until_timeout_spec rest) as [Hs Ht].
    cbn [heard until_timeout].
    assert (Hsh : shown da
                  = match unpack_response (take RESPONSE_MESSAGE_SIZE da.1)
                    with
                    | Some (value, _) => Some (response_line da.2 value)
                    | None => None
                    end) by reflexivity.
    destruct (unpack_response _) as [[value records]|].
    + split.
      * rewrite Forall_cons, Hsh. split.
        -- intros [t Hrun].
           destruct (receive_until_timeout rest) as [t'|]; [|discriminate].
           split; [eexists; reflexivity|].
           split; [eexists; reflexivity | apply Hs; eexists; reflexivity].
        -- intros (_ & _ & Hrest). apply Hs in Hrest as [t' ->].
           eexists; reflexivity.
      * intros t Hrun.
        destruct (receive_until_timeout rest) as [t'|]; [|discriminate].
        injection Hrun as <-. destruct (Ht t' eq_refl) as [_ Hp].
        exists (response_line da.2 value :: printed t'). split.
        -- cbn [app printed flat_map].
           fold (printed ((map log records
                           ++ [print (response_line da.2 value)]) ++ t')).
           rewrite !printed_app, printed_logs. reflexivity.
        -- constructor; [exact Hsh | exact Hp].
    + split; [|discriminate]. split; [intros [t [=]]|].
      intros [_ Hall]. apply Forall_cons in Hall as [[line Hl] _].
      rewrite Hsh in Hl. discriminate.
  - cbn [recv_and_print_response recvfrom heard].
    destruct (receive_until_timeout_spec rest) as [Hs Ht]. split.
    + split.
      * intros [t Hrun].
        destruct (receive_until_timeout rest) as [t'|]; [|discriminate].
        split; [eexists; reflexivity | apply Hs; eexists; reflexivity].
      * intros [_ Hrest]. apply Hs in Hrest as [t' ->]. eexists; reflexivity.
    + intros t Hrun.
      destruct (receive_until_timeout rest) as [t'|]; [|discriminate].
      injection Hrun as <-. destruct (Ht t' eq_refl) as [_ Hp].
      exists (printed t'). split; [reflexivity | exact Hp].
Qed.

Lemma lookup_prints_witness :
  exists lines,
    printed [print querying;
             sendto Scenario.clireq_baz Scenario.A_address;
             print response_baz_line; log_timeout_stop]
    = querying :: lines /\
    Forall2 (fun da line => shown da = Some line)
      (heard [Some (response_baz, (Scenario.localhost, 40000)); None;
              Some (response_baz, (Scenario.localhost, 40001))])
      lines.
Proof.
  apply (proj2 (lookup_prints Scenario.A_address Scenario.baz
                  [Some (response_baz, (Scenario.localhost, 40000)); None;
                   Some (response_baz, (Scenario.localhost, 40001))])
           _ eq_refl).
Defined.

End ClientExtras.

(** * Properties of the text methods *)

Module TextFacts.
Import Text.

Lemma lstrip_spec (s : str) :
  exists pre, s = pre ++ lstrip s /\ blank pre = true /\
              forall c, head (lstrip s) = Some c -> isspace c = false.
Proof.
  induction s as [|c s (pre & Hs & Hpre & Hhead)].
  - exists []. repeat split. discriminate.
  - cbn [lstrip]. destruct (isspace c) eqn:Hc.
    + exists (c :: pre). split; [cbn; rewrite <- Hs; reflexivity|].
      split; [|exact Hhead]. unfold blank in *. cbn. rewrite Hc, Hpre.
      reflexivity.
    + exists []. repeat split. cbn. intros c' [= <-]. exact Hc.
Qed.

Lemma lstrip_blank_app (pre s : str) :
  blank pre = true -> lstrip (pre ++ s) = lstrip s.
Proof.
  unfold blank. induction pre as [|c pre IH]; cbn; [reflexivity|].
  intros Hpre. apply andb_true_iff in Hpre as [-> Hpre]. auto.
Qed.

Lemma lstrip_solid_head (c : Z) (s : str) :
  isspace c = false -> lstrip (c :: s) = c :: s.
Proof. intros Hc. cbn. rewrite Hc. reflexivity. Qed.

Lemma rstrip_blank (s : str) : blank s = true -> rstrip s = [].
Proof.
  unfold blank. induction s as [|c s IH]; cbn; [reflexivity|].
  intros Hs. apply andb_true_iff in Hs as [-> Hs]. rewrite (IH Hs).
  reflexivity.
Qed.

Lemma rstrip_app_blank (s post : str) :
  blank post = true -> rstrip (s ++ post) = rstrip s.
Proof.
  intros Hpost. induction s as [|c s IH]; cbn [app rstrip].
  - apply rstrip_blank, Hpost.
  - rewrite IH. reflexivity.
Qed.

Lemma rstrip_spec (s : str) :
  exists post, s = rstrip s ++ post /\ blank post = true /\
               forall c, last (rstrip s) = Some c -> isspace c = false.
Proof.
  induction s as [|c s (post & Hs & Hpost & Hlast)].
  - exists []. repeat split. discriminate.
  - cbn [rstrip]. destruct (rstrip s) as [|c' r] eqn:Hr.
    + cbn [app] in Hs. subst post. destruct (isspace c) eqn:Hc.
      * exists (c :: s). split; [reflexivity|]. split; [|discriminate].
        unfold blank in *. cbn. rewrite Hc, Hpost. reflexivity.
      * exists s. repeat split; [exact Hpost|].
        cbn. intros c' [= <-]. exact Hc.
    + exists post. split; [cbn; rewrite Hs at 1; reflexivity|].
      split; [exact Hpost|]. rewrite last_cons_cons. exact Hlast.
Qed.

Lemma rstrip_solid_last (s : str) (c : Z) :
  last s = Some c -> isspace c = false -> rstrip s = s.
Proof.
  intros Hl Hc. apply last_Some in Hl as [s' ->].
  induction s' as [|c' s' IH]; cbn [app rstrip].
  - rewrite Hc. reflexivity.
  - rewrite IH. destruct s'; reflexivity.
Qed.

Lemma word_spec (s w r : str) :
  word s = (w, r) ->
  s = w ++ r /\ solid w = true /\
  forall c, head r = Some c -> isspace c = true.
Proof.
  revert w r. induction s as [|c s IH]; intros w r; cbn [word].
  - intros [= <- <-]. repeat split. discriminate.
  - destruct (isspace c) eqn:Hc.
    + intros [= <- <-]. repeat split. cbn. intros c' [= <-]. exact Hc.
    + destruct (word s) as [w' r']. intros [= <- <-].
      destruct (IH w' r' eq_refl) as (-> & Hw & Hr).
      split; [reflexivity|]. split; [|exact Hr].
      unfold solid in *. cbn. rewrite Hc, Hw. reflexivity.
Qed.

Lemma word_solid_app (w r : str) :
  solid w = true -> (forall c, head r = Some c -> isspace c = true) ->
  word (w ++ r) = (w, r).
Proof.
  intros Hw Hr. induction w as [|c w IH]; cbn [app].
  - destruct r as [|c r]; [reflexivity|]. cbn. rewrite (Hr c eq_refl).
    reflexivity.
  - unfold solid in *. cbn in Hw. apply andb_true_iff in Hw as [Hc Hw].
    apply negb_true_iff in Hc. cbn [word]. rewrite Hc, (IH Hw).
    reflexivity.
Qed.

Lemma solid_head (s : str) (c : Z) :
  solid s = true -> head s = Some c -> isspace c = false.
Proof.
  destruct s as [|c' s]; [discriminate|]. unfold solid. cbn.
  intros Hs [= <-].
  apply andb_true_iff in Hs as [Hc _]. apply negb_true_iff, Hc.
Qed.

Lemma blank_head (s : str) (c : Z) :
  blank s = true -> head s = Some c -> isspace c = true.
Proof.
  destruct s as [|c' s]; [discriminate|]. unfold blank. cbn.
  intros Hs [= <-].
  apply andb_true_iff in Hs as [Hc _]. exact Hc.
Qed.

Lemma blank_app (s t : str) : blank (s ++ t) = blank s && blank t.
Proof. apply forallb_app. Qed.

Lemma trimmed_inv (s : str) :
  trimmed s = true ->
  exists c c', head s = Some c /\ last s = Some c' /\
               isspace c = false /\ isspace c' = false.
Proof.
  unfold trimmed. destruct (head s) as [c|]; [|discriminate].
  destruct (last s) as [c'|]; [|discriminate].
  intros Hs. apply andb_true_iff in Hs as [Hc Hc'].
  apply negb_true_iff in Hc, Hc'. eauto 6.
Qed.

(** What [split(maxsplit=1)] gives when it gives two parts. *)
Lemma split_maxsplit_1_two (s k value : str) :
  split_maxsplit_1 s = [k; value] ->
  exists pre sep,
    s = pre ++ k ++ sep ++ value /\
    blank pre = true /\ sep <> [] /\ blank sep = true /\
    k <> [] /\ solid k = true /\
    exists c, head value = Some c /\ isspace c = false.
Proof.
  unfold split_maxsplit_1.
  destruct (lstrip_spec s) as (pre & Hs & Hpre & Hhead).
  destruct (lstrip s) as [|c1 s1] eqn:Hs1; [discriminate|].
  destruct (word (c1 :: s1)) as [w r] eqn:Hw.
  destruct (word_spec _ _ _ Hw) as (Hwr & Hsolid & Hr).
  destruct (lstrip_spec r) as (sep & Hsep & Hblank & Hv).
  destruct (lstrip r) as [|c2 s2] eqn:Hs2; [discriminate|].
  intros [= <- <-]. exists pre, sep.
  split; [rewrite Hs, Hwr, Hsep at 1; reflexivity|].
  split; [exact Hpre|]. split.
  { intros ->. cbn [app] in Hsep. subst r.
    pose proof (Hr c2 eq_refl) as Hyes. pose proof (Hv c2 eq_refl) as Hno.
    congruence. }
  split; [exact Hblank|]. split.
  { intros ->. cbn [app] in Hwr. subst r.
    pose proof (Hr c1 eq_refl) as Hyes. pose proof (Hhead c1 eq_refl) as Hno.
    congruence. }
  split; [exact Hsolid|]. exists c2. split; [reflexivity|]. apply Hv.
  reflexivity.
Qed.

Lemma split_maxsplit_1_parts (k sep value : str) :
  k <> [] -> solid k = true -> sep <> [] -> blank sep = true ->
  (exists c, head value = Some c /\ isspace c = false) ->
  split_maxsplit_1 (k ++ sep ++ value) = [k; value].
Proof.
  intros Hk Hsolid Hsep Hblank (c & Hc & Hcs). unfold split_maxsplit_1.
  assert (Hl : lstrip (k ++ sep ++ value) = k ++ sep ++ value).
  { destruct k as [|ck k]; [contradiction|].
    apply lstrip_solid_head, (solid_head (ck :: k)); [exact Hsolid|].
    reflexivity. }
  rewrite Hl. destruct (k ++ sep ++ value) as [|c1 s1] eqn:Hs.
  { destruct k; [contradiction | discriminate]. }
  rewrite <- Hs, word_solid_app; [|exact Hsolid|].
  - rewrite (lstrip_blank_app _ _ Hblank).
    destruct value as [|cv value]; [discriminate|]. injection Hc as ->.
    rewrite (lstrip_solid_head _ _ Hcs). reflexivity.
  - intros c' Hc'. apply (blank_head sep); [exact Hblank|].
    destruct sep; [contradiction | exact Hc'].
Qed.

End TextFacts.

(** * Properties of the dict file *)

Module DatabaseExtras.
Import Text Database TextFacts.

Lemma parse_line_sets (database : gmap str str) (line k value : str) :
  sets line k value ->
  parse_line database line = Some (<[k := value]> database).
Proof.
  intros (Hhash & Hk & Hsolid & Hv & pre & sep & post & -> & Hpre & Hsep
          & Hblank & Hpost).
  destruct (trimmed_inv _ Hv) as (c & c' & Hc & Hc' & Hcs & Hcs').
  unfold parse_line.
  destruct (pre ++ k ++ sep ++ value ++ post) as [|c0 line] eqn:Hline.
  { destruct pre; [|discriminate]. destruct k; [contradiction | discriminate]. }
  destruct (Z.eqb_spec c0 35) as [->|_]; [contradiction Hhash; reflexivity|].
  rewrite <- Hline. unfold strip. rewrite (lstrip_blank_app _ _ Hpre).
  assert (Hl : lstrip (k ++ sep ++ value ++ post)
               = (k ++ sep ++ value) ++ post).
  { rewrite <- !app_assoc. destruct k as [|ck k]; [contradiction|].
    apply lstrip_solid_head, (solid_head (ck :: k)); [exact Hsolid|].
    reflexivity. }
  rewrite Hl, (rstrip_app_blank _ _ Hpost).
  rewrite (rstrip_solid_last _ c').
  - rewrite split_maxsplit_1_parts; eauto.
  - rewrite !last_app, Hc'. reflexivity.
  - exact Hcs'.
Qed.

Lemma parse_line_inv (database database' : gmap str str) (line : str) :
  parse_line database line = Some database' ->
  (head line = Some 35 /\ database' = database) \/
  exists k value, sets line k value /\ database' = <[k := value]> database.
Proof.
  unfold parse_line. destruct line as [|c0 line]; [discriminate|].
  destruct (Z.eqb_spec c0 35) as [->|Hc0]; [intros [= <-]; left; auto|].
  destruct (split_maxsplit_1 _) as [|k [|value [|? ?]]] eqn:Hsplit;
    try discriminate.
  intros [= <-]. right. exists k, value. split; [|reflexivity].
  apply split_maxsplit_1_two in Hsplit
    as (pre1 & sep & Hs & Hpre1 & Hsep & Hblank & Hk & Hsolid & c & Hc & Hcs).
  unfold strip in Hs.
  destruct (lstrip_spec (c0 :: line)) as (pre & Hline & Hpre & _).
  destruct (rstrip_spec (lstrip (c0 :: line))) as (post & Hl & Hpost & Hlast).
  split; [cbn; congruence|]. split; [exact Hk|]. split; [exact Hsolid|].
  split.
  - unfold trimmed. rewrite Hc.
    destruct value as [|cv value']; [discriminate|].
    destruct (last (cv :: value')) as [c'|] eqn:Hc'.
    + rewrite Hcs, (Hlast c'); [reflexivity|].
      rewrite Hs, !last_app, Hc'. reflexivity.
    + apply last_None in Hc'. discriminate.
  - exists (pre ++ pre1), sep, post.
    split; [|rewrite blank_app, Hpre, Hpre1; auto].
    rewrite Hline at 1. rewrite Hl at 1. rewrite Hs.
    rewrite <- !app_assoc. reflexivity.
Qed.

Lemma lstrip_blank (s : str) : blank s = true -> lstrip s = [].
Proof.
  intros Hs. rewrite <- (app_nil_r s), (lstrip_blank_app _ _ Hs).
  reflexivity.
Qed.

Lemma solid_last (s : str) (c : Z) :
  solid s = true -> last s = Some c -> isspace c = false.
Proof.
  intros Hs Hl. apply last_Some in Hl as [s' ->]. unfold solid in Hs.
  rewrite forallb_app in Hs. apply andb_true_iff in Hs as [_ Hc].
  cbn in Hc. rewrite andb_true_r in Hc. apply negb_true_iff, Hc.
Qed.

(** A line of one word at most makes the unpacking into [key, value]
    raise. *)
Lemma parse_line_short (database : gmap str str) (pre w post : str) :
  head (pre ++ w ++ post) <> Some 35 ->
  blank pre = true -> solid w = true -> blank post = true ->
  parse_line database (pre ++ w ++ post) = None.
Proof.
  intros Hhash Hpre Hw Hpost. unfold parse_line.
  destruct (pre ++ w ++ post) as [|c0 line] eqn:Hline; [reflexivity|].
  destruct (Z.eqb_spec c0 35) as [->|_]; [contradiction Hhash; reflexivity|].
  rewrite <- Hline. unfold strip. rewrite (lstrip_blank_app _ _ Hpre).
  destruct w as [|cw w].
  - cbn [app]. rewrite (lstrip_blank _ Hpost). reflexivity.
  - pose proof (solid_head _ _ Hw eq_refl) as Hcw.
    cbn [app]. rewrite (lstrip_solid_head _ _ Hcw).
    change (cw :: w ++ post) with ((cw :: w) ++ post).
    rewrite (rstrip_app_blank _ _ Hpost).
    destruct (last (cw :: w)) as [c'|] eqn:Hc';
      [|apply last_None in Hc'; discriminate].
    rewrite (rstrip_solid_last _ c' Hc' (solid_last _ _ Hw Hc')).
    unfold split_maxsplit_1. rewrite (lstrip_solid_head _ _ Hcw).
    rewrite <- (app_nil_r (cw :: w)), word_solid_app;
      [reflexivity | exact Hw | discriminate].
Qed.

Lemma parse_lines_None (database : gmap str str) (input_file : list str)
    (line : str) :
  line ∈ input_file -> (forall d, parse_line d line = None) ->
  parse_lines database input_file = None.
Proof.
  intros Hin Hline. revert database.
  induction input_file as [|l rest IH]; intros database;
    [apply elem_of_nil in Hin; contradiction|].
  cbn [parse_lines]. apply elem_of_cons in Hin as [<-|Hin].
  - rewrite Hline. reflexivity.
  - destruct (parse_line database l); [apply IH, Hin | reflexivity].
Qed.

Lemma parse_lines_app (database : gmap str str) (before after : list str) :
  parse_lines database (before ++ after)
  = match parse_lines database before with
    | Some database' => parse_lines database' after
    | None => None
    end.
Proof.
  revert database. induction before as [|l rest IH]; intros database;
    [reflexivity|].
  cbn [app parse_lines]. destruct (parse_line database l); [apply IH|].
  reflexivity.
Qed.

Lemma parse_lines_keep (database database' : gmap str str)
    (input_file : list str) (k value : str) :
  parse_lines database input_file = Some database' ->
  database !! k = Some value ->
  (forall l value', l ∈ input_file -> ~ sets l k value') ->
  database' !! k = Some value.
Proof.
  revert database. induction input_file as [|l rest IH]; intros database;
    cbn [parse_lines]; [intros [= <-] Hk _; exact Hk|].
  destruct (parse_line database l) as [d|] eqn:Hl; [|discriminate].
  intros Hrest Hk Hnone. apply (IH d Hrest).
  - apply parse_line_inv in Hl as [[_ ->]|(k' & value' & Hs & ->)];
      [exact Hk|].
    rewrite lookup_insert_ne; [exact Hk|]. intros ->.
    apply (Hnone l value'); [left | exact Hs].
  - intros l' value' Hin. apply Hnone. right. exact Hin.
Qed.

Lemma parse_lines_from (database database' : gmap str str)
    (input_file : list str) (k value : str) :
  parse_lines database input_file = Some database' ->
  database' !! k = Some value ->
  database !! k = Some value \/
  exists line, line ∈ input_file /\ sets line k value.
Proof.
  revert database. induction input_file as [|l rest IH]; intros database;
    cbn [parse_lines]; [intros [= <-] Hk; left; exact Hk|].
  destruct (parse_line database l) as [d|] eqn:Hl; [|discriminate].
  intros Hrest Hk. destruct (IH d Hrest Hk) as [Hd|(line & Hin & Hs)].
  - apply parse_line_inv in Hl as [[_ ->]|(k' & value' & Hs & ->)];
      [left; exact Hd|].
    apply lookup_insert_Some in Hd as [[-> ->]|[_ Hd]];
      [right; exists l; split; [left | exact Hs] | left; exact Hd].
  - right. exists line. split; [right; exact Hin | exact Hs].
Qed.

(** X16.  [parse_database] returns exactly when every line of the file is
    a comment or gives a value to a key; the entries of the dict it
    returns all come from such lines, so that no key is empty or has
    whitespace in it and every value is there without the whitespace
    around it. *)
Theorem parse_database_lines (input_file : list str) :
  (is_Some (parse_database input_file) <->
   Forall (fun line => head line = Some 35 \/
                       exists k value, sets line k value) input_file) /\
  forall database k value,
    parse_database input_file = Some database ->
    database !! k = Some value ->
    exists line, line ∈ input_file /\ sets line k value.
Proof.
  split.
  - unfold parse_database. generalize (∅ : gmap str str).
    induction input_file as [|l rest IH]; intros database;
      cbn [parse_lines]; [split; [constructor | eexists; reflexivity]|].
    rewrite Forall_cons. split.
    + destruct (parse_line database l) as [d|] eqn:Hl;
        [|intros [? [=]]].
      intros Hrest. split; [|apply (IH d), Hrest].
      apply parse_line_inv in Hl as [[Hl _]|(k & value & Hs & _)]; eauto.
    + intros [[Hl|(k & value & Hs)] Hrest].
      * destruct l as [|c0 l]; [discriminate|]. injection Hl as ->.
        cbn. apply IH, Hrest.
      * rewrite (parse_line_sets _ _ _ _ Hs). apply IH, Hrest.
  - intros database k value Hrun Hk.
    destruct (parse_lines_from _ _ _ _ _ Hrun Hk) as [He|Hline];
      [|exact Hline].
    rewrite lookup_empty in He. discriminate.
Qed.

Lemma foo_again_sets : sets DictFile.foo_again Scenario.foo DictFile.baz_qux.
Proof.
  split; [discriminate|]. split; [discriminate|].
  split; [reflexivity|]. split; [reflexivity|].
  exists [32], [9; 32], [32; 10]. repeat split; discriminate.
Qed.

Lemma parse_database_lines_witness :
  exists line,
    line ∈ DictFile.input_file /\
    sets line Scenario.foo DictFile.baz_qux.
Proof.
  apply (proj2 (parse_database_lines DictFile.input_file)
           DictFile.database Scenario.foo DictFile.baz_qux).
  - Claims.run_both_sides.
  - Claims.run_both_sides.
Defined.

(** X17.  A line that is not a comment and has one word at most, a blank
    line among them, makes [parse_database] raise, wherever it is in the
    file. *)
Theorem short_line_raises (input_file : list str) (pre w post : str) :
  pre ++ w ++ post ∈ input_file ->
  head (pre ++ w ++ post) <> Some 35 ->
  blank pre = true -> solid w = true -> blank post = true ->
  parse_database input_file = None.
Proof.
  intros Hin Hhash Hpre Hw Hpost. apply (parse_lines_None _ _ _ Hin).
  intros d. apply parse_line_short; assumption.
Qed.

Lemma short_line_raises_witness :
  parse_database [DictFile.foo_bar; [10]; DictFile.foo_again] = None.
Proof.
  apply (short_line_raises [DictFile.foo_bar; [10]; DictFile.foo_again]
           [10] [] []).
  - right. left.
  - discriminate.
  - reflexivity.
  - reflexivity.
  - reflexivity.
Defined.

(** X18.  The last line for a key is the one that counts: when the file
    parses, the dict has for a key the value of the last line that gives
    it one. *)
Theorem last_line_wins (before after : list str) (line k value : str)
    (database : gmap str str) :
  parse_database (before ++ line :: after) = Some database ->
  sets line k value ->
  (forall l value', l ∈ after -> ~ sets l k value') ->
  database !! k = Some value.
Proof.
  unfold parse_database. rewrite parse_lines_app.
  destruct (parse_lines ∅ before) as [d|]; [|discriminate].
  cbn [parse_lines]. intros Hrun Hs Hnone.
  rewrite (parse_line_sets _ _ _ _ Hs) in Hrun.
  apply (parse_lines_keep _ _ _ _ _ Hrun); [apply lookup_insert_eq|].
  exact Hnone.
Qed.

Lemma last_line_wins_witness :
  DictFile.database !! Scenario.foo = Some DictFile.baz_qux.
Proof.
  apply (last_line_wins [DictFile.comment; DictFile.foo_bar]
           [DictFile.comment] DictFile.foo_again).
  - Claims.run_both_sides.
  - exact foo_again_sets.
  - intros l value' Hin [Hhash _].
    apply list_elem_of_singleton in Hin as ->. apply Hhash. reflexivity.
Defined.

End DatabaseExtras.

(** * Properties of the address parser *)

Module AddressParserExtras.
Import Utils DottedQuad AddressParser.

Lemma split_on_cons (sep : Z) (s : str) : split_on sep s <> [].
Proof.
  destruct s as [|c s]; cbn; [discriminate|].
  destruct (c =? sep); [discriminate|].
  destruct (split_on sep s); discriminate.
Qed.

(** The first part of a split has no separator in it; it is the whole
    text when it is the only part, and the separator and the text the
    other parts come from follow it otherwise. *)
Lemma split_on_inv (sep : Z) (s p : str) (ps : list str) :
  split_on sep s = p :: ps ->
  (sep ∉ p) /\
  match ps with
  | [] => s = p
  | _ => exists r, s = p ++ sep :: r /\ split_on sep r = ps
  end.
Proof.
  revert p ps. induction s as [|c s IH]; intros p ps; cbn [split_on].
  - intros [= <- <-]. split; [apply not_elem_of_nil | reflexivity].
  - destruct (Z.eqb_spec c sep) as [->|Hc].
    + intros [= <- <-]. split; [apply not_elem_of_nil|].
      destruct (split_on sep s) as [|p' ps'] eqn:Hs;
        [apply split_on_cons in Hs; contradiction|].
      exists s. split; [reflexivity | exact Hs].
    + destruct (split_on sep s) as [|p' ps'] eqn:Hs;
        [apply split_on_cons in Hs; contradiction|].
      intros [= <- <-]. destruct (IH p' ps' eq_refl) as [Hp' Hps'].
      split; [apply not_elem_of_cons; split; [congruence | exact Hp']|].
      destruct ps' as [|p'' ps''].
      * rewrite Hps'. reflexivity.
      * destruct Hps' as (r & -> & Hr). exists r.
        split; [reflexivity | exact Hr].
Qed.

Section Int.
Variable int : str -> option Z.

(** X19.  An address is parsed exactly when it has one colon and [int]
    reads what follows it; what precedes the colon is taken for the ip
    as it is, so that the empty text and a host name pass, an address
    with no colon or with more than one is refused, and the port is any
    integer [int] reads. *)
Theorem parse_address_one_colon (address ip : str) (n : Z) :
  _parse_address int address false = Some (ip, n) <->
  exists port,
    address = ip ++ 58 :: port /\ (58 ∉ ip) /\ (58 ∉ port) /\
    int port = Some n.
Proof.
  unfold _parse_address. split.
  - destruct (split_on 58 address) as [|p [|port [|? ?]]] eqn:Hs;
      try discriminate.
    destruct (int port) as [n'|] eqn:Hn; [|discriminate].
    intros [= <- <-]. exists port.
    apply split_on_inv in Hs as (Hp & r & -> & Hr).
    apply split_on_inv in Hr as (Hport & ->). auto.
  - intros (port & -> & Hip & Hport & Hn).
    rewrite (DottedQuadFacts.split_on_sep _ _ _ Hip).
    rewrite (DottedQuadFacts.split_on_none _ _ Hport), Hn. reflexivity.
Qed.

End Int.

End AddressParserExtras.

(** * The client, two servents and the client again *)

Module EndToEnd.
Import Utils Servent CodecFacts LoopFacts.

Lemma ascii_encodable (s : str) :
  is_ascii s = true -> Utf8.encodable s = true.
Proof.
  intros Hs.
  eapply CodecExtras.encode_Some_encodable, CodecExtras.encode_ascii, Hs.
Qed.

Lemma pack_clireq_inv (k : str) (w : bytes) :
  pack_clireq k = Some w ->
  extract_message_type w = Some CLIREQ /\
  Utf8.decode (drop MESSAGE_TYPE_SIZE w) = Some (take MAX_KEY_SIZE k ++ [0]).
Proof.
  unfold pack_clireq. rewrite pack_type_value.
  destruct (Utf8.encode _) as [d|] eqn:Hd; [|discriminate].
  intros [= <-]. split; [reflexivity|].
  change (drop _ _) with d. apply Utf8Facts.decode_encode, Hd.
Qed.

Section Lookup.
Context `{SocketLib} (Hlaw : inet_lawful).
Variables A_database B_database : gmap str str.
Variables A_neighbors B_neighbors : list ip_port.

(** X20.  A lookup from end to end.  The client asks servent A for a key
    of ASCII text that B, a neighbour of A, has in its dict; the CLIREQ
    the client packs makes A send B a QUERY, that QUERY makes B send one
    RESPONSE to the address of the client, and on that RESPONSE the
    client prints the address it came from, the key, a tab and the value
    of B's dict.  The key has 40 characters at most and the value 160,
    with no NUL; the address of the client is one [inet_ntoa] prints; A
    has not used up its sequence numbers, and B has not seen the query
    before. *)
Theorem answer_reaches_client (k value : str) (client A o : ip_port)
    (B : ip_port) (stA stB : state) :
  is_ascii k = true -> (length k <= MAX_KEY_SIZE)%nat -> 0 ∉ k ->
  is_ascii value = true -> (length value <= MAX_VALUE_SIZE)%nat ->
  0 ∉ value ->
  socket_address client -> canonical_ip client.1 ->
  creator_ok stA -> stamped_below stA ->
  database_text A_database -> database_text B_database ->
  B ∈ A_neighbors -> B <> client ->
  B_database !! k = Some value ->
  {| key := k; address := client;
     sequence := _next_sequence (query_creator stA) |} ∉ queries_seen stB ->
  exists clireq packed_query response stA' tA stB' tB,
    pack_clireq k = Some clireq /\
    iteration A_database A_neighbors stA clireq client = Some (stA', tA) /\
    (packed_query, B) ∈ queries_sent tA /\
    iteration B_database B_neighbors stB packed_query o = Some (stB', tB) /\
    responses_sent tB = [(response, client)] /\
    forall from : ip_port,
      Client.lookup A k [Some (response, from)]
      = Some [Client.print Client.querying; Client.sendto clireq A;
              Client.print (from.1 ++ [58] ++ Text.str_of_int from.2
                            ++ [58; 32] ++ k ++ [9] ++ value);
              Client.log_timeout_stop].
Proof.
  intros Hk Hklen Hk0 Hv Hvlen Hv0 Hclient Hcanon [Httl Hseq] Hbelow
    HdbA HdbB HB HBc Hvalue HfreshB.
  destruct client as [ip port].
  pose proof (ascii_encodable k Hk) as Hkenc.
  destruct (pack_clireq_is_Some k Hkenc) as [clireq Hc].
  destruct (CodecExtras.clireq_fits k clireq Hk Hc) as [_ HrecvA].
  destruct (pack_clireq_inv k clireq Hc) as [Htype Htext].
  assert (Hkey : rstrip 0 (take MAX_KEY_SIZE k ++ [0]) = k).
  { rewrite rstrip_snoc, take_ge by exact Hklen. apply rstrip_id, Hk0. }
  pose proof (iteration_clireq A_database A_neighbors stA clireq (ip, port)
                (take MAX_KEY_SIZE k ++ [0])) as HitA.
  rewrite HrecvA in HitA. specialize (HitA Htype Htext).
  cbn [new_query fst snd] in HitA. rewrite Hkey, Httl in HitA.
  set (c := {| key := k; address := (ip, port);
               sequence := _next_sequence (query_creator stA) |}) in *.
  assert (HfreshA : c ∉ queries_seen stA).
  { intros Hin. apply Hbelow in Hin. cbn in Hin. lia. }
  assert (Hfit : fits_wire c).
  { split; [exact Hclient|]. split; [exact Hseq | exact Hkenc]. }
  assert (Hne : nonempty A_neighbors = true).
  { revert HB. generalize A_neighbors. intros [|n l] Hin; [|reflexivity].
    apply elem_of_nil in Hin. contradiction. }
  (* at A *)
  match type of HitA with
  | context [handle_query _ _ ?s ?q _] =>
      destruct (handle_query_outcome A_database A_neighbors s q (ip, port)
                  HfreshA Hfit ltac:(cbn; lia) HdbA)
        as (tA & HrunA & HqsA & _ & _);
      destruct (pack_query_is_Some q Hfit ltac:(cbn; lia)) as [w Hw]
  end.
  rewrite HrunA in HitA. rewrite Hw, Hne in HqsA.
  cbn [ttl Z.ltb Z.compare andb default from_option] in HqsA.
  unfold id in HqsA.
  (* at B *)
  destruct (CodecExtras.query_fits {| content := c; ttl := 3 |} w Hk Hw)
    as [_ HrecvB].
  destruct (unpack_pack_query Hlaw _ w Hw) as (b & ip' & Hb & Hip' & Hq).
  destruct Hcanon as (b0 & Hb0 & Hn0).
  cbn [content key address sequence ttl fst snd c] in Hb, Hb0, Hn0, Hq.
  assert (ip' = ip) as -> by congruence.
  rewrite take_ge, (rstrip_id 0 k Hk0) in Hq by exact Hklen.
  fold c in Hq.
  pose proof (iteration_query Hlaw B_database B_neighbors stB w o) as HitB.
  rewrite HrecvB in HitB. specialize (HitB _ Hq).
  destruct (Claims.handle_query_answer B_database B_neighbors stB
              {| content := c; ttl := 3 - 1 |} o value
              HfreshB Hfit ltac:(cbn; lia) HdbB Hvalue)
    as (stB' & tB & r & HrunB & Hr & HrsB & _).
  rewrite HrunB in HitB. cbn [content key address] in Hr, HrsB.
  (* at the client *)
  destruct (CodecExtras.response_fits k value r Hk Hv Hr) as [_ Htake].
  pose proof (unpack_pack_response k value r Hr) as Hu.
  rewrite !take_ge, rstrip_id in Hu by
    first [exact Hklen | exact Hvlen
          | intros Hin; apply elem_of_app in Hin as [Hin|Hin];
            [exact (Hk0 Hin)|];
            apply elem_of_cons in Hin as [Hin|Hin];
            [discriminate | exact (Hv0 Hin)]].
  eexists clireq, w, r, _, _, _, _.
  split; [exact Hc|]. split; [exact HitA|]. split.
  { change (queries_sent (log_received_clireq _ :: tA))
      with (queries_sent tA).
    rewrite HqsA. apply list_elem_of_In, in_map_iff. exists B.
    split; [reflexivity|]. apply list_elem_of_In, list_elem_of_filter.
    split; [exact HBc | exact HB]. }
  split; [exact HitB|]. split; [exact HrsB|].
  intros from. unfold Client.lookup. rewrite Hc.
  unfold Client.recv_and_print_response. cbn [Client.recvfrom].
  rewrite Htake, Hu. reflexivity.
Qed.

End Lookup.

Lemma answer_reaches_client_witness :
  exists clireq packed_query response stA' tA stB' tB,
    pack_clireq Scenario.baz = Some clireq /\
    @iteration dotted_quad Scenario.A_database Scenario.A_neighbors
      initial clireq Scenario.client_address = Some (stA', tA) /\
    (packed_query, Scenario.B_address) ∈ queries_sent tA /\
    @iteration dotted_quad Scenario.B_database [] initial packed_query
      (Scenario.localhost, 40001) = Some (stB', tB) /\
    responses_sent tB = [(response, Scenario.client_address)] /\
    forall from : ip_port,
      Client.lookup Scenario.A_address Scenario.baz [Some (response, from)]
      = Some [Client.print Client.querying;
              Client.sendto clireq Scenario.A_address;
              Client.print (from.1 ++ [58] ++ Text.str_of_int from.2
                            ++ [58; 32] ++ Scenario.baz ++ [9]
                            ++ Scenario.qux);
              Client.log_timeout_stop].
Proof.
  apply (@answer_reaches_client dotted_quad dotted_quad_lawful
           Scenario.A_database Scenario.B_database Scenario.A_neighbors []
           Scenario.baz Scenario.qux Scenario.client_address
           Scenario.A_address (Scenario.localhost, 40001)
           Scenario.B_address initial initial).
  - reflexivity.
  - apply Nat.leb_le. reflexivity.
  - intros Hin. apply list_elem_of_In in Hin. cbn in Hin.
    intuition discriminate.
  - reflexivity.
  - apply Nat.leb_le. reflexivity.
  - intros Hin. apply list_elem_of_In in Hin. cbn in Hin.
    intuition discriminate.
  - exact Claims.client_socket_address.
  - eexists. split; reflexivity.
  - exact Claims.initial_creator_ok.
  - intros c Hc. apply elem_of_empty in Hc. contradiction.
  - exact Claims.A_database_text.
  - exact Claims.B_database_text.
  - left.
  - discriminate.
  - Claims.run_both_sides.
  - apply not_elem_of_empty.
Defined.

End EndToEnd.
